(** * youtube-to-mp3: the job lifecycle of [server.js]

    A shallow embedding of the conversion server: the job registry (a JS
    [Map] from job ids to shared job objects), the progress simulator
    ([simulateProgress]), the conversion orchestrator ([processConversion]),
    the three job routes, the download finalizer and the retention sweeper.

    The event loop is modelled as a deterministic step function over an
    explicit state; everything the environment decides (the clock, the
    outcome of a provider call, the value of [Math.random()], whether a file
    system call throws) is carried by the event that triggers the step. *)

From Stdlib Require Import Ascii QArith Qround Qminmax.
From stdpp Require Import gmap strings list fin_maps pretty.

Local Open Scope Z_scope.
Local Open Scope string_scope.

(** ** JavaScript values and strings *)

(** A JS string is modelled as a [string]; each [ascii] stands for one code
    unit below 256.  *)

(** The values a JSON request body can hold for [url] and [quality].  Of a
    number only its being zero or not is ever looked at, so an integer
    stands for it. *)
#[local] Unset Elimination Schemes.
Inductive jsval :=
| JUndefined
| JNull
| JBool (b : bool)
| JNum (n : Z)
| JStr (s : string)
| JArr (l : list jsval)
| JObj.
#[local] Set Elimination Schemes.

(** JS truthiness, as used by [!url] and [quality || '192']. *)
Definition truthy (v : jsval) : bool :=
  match v with
  | JUndefined | JNull => false
  | JBool b => b
  | JNum n => negb (n =? 0)%Z
  | JStr s => negb (String.eqb s "")
  | JArr _ | JObj => true
  end.

(** [a || b] *)
Definition js_or (a b : jsval) : jsval := if truthy a then a else b.

(** [String.prototype.includes]: [sub] occurs somewhere in [s]. *)
Fixpoint includes (s sub : string) : bool :=
  String.prefix sub s ||
  match s with
  | EmptyString => false
  | String _ s' => includes s' sub
  end.

(** [Date.now().toString()]: the decimal rendering of an integer. *)
Definition toString (n : Z) : string := pretty n.

(** *** The title filter [/[^\w\s]/gi] *)

Definition code (c : ascii) : N := N_of_ascii c.

(** [\w] is [[A-Za-z0-9_]]; the [i] flag adds nothing to it without [u]. *)
Definition is_word (c : ascii) : bool :=
  let n := code c in
  ((48 <=? n) && (n <=? 57) || (65 <=? n) && (n <=? 90) ||
   (97 <=? n) && (n <=? 122) || (n =? 95))%N.

(** [\s] below 256: tab, line feed, vertical tab, form feed, carriage
    return, space and the no-break space. *)
Definition is_space (c : ascii) : bool :=
  let n := code c in
  ((9 <=? n) && (n <=? 13) || (n =? 32) || (n =? 160))%N.

(** [title.replace(/[^\w\s]/gi, '')]: every match of the negated class is
    replaced by the empty string. *)
Fixpoint replace_non_word_space (s : string) : string :=
  match s with
  | EmptyString => EmptyString
  | String c s' =>
      if is_word c || is_space c
      then String c (replace_non_word_space s')
      else replace_non_word_space s'
  end.

(** *** [path.parse(file).name] for a directory entry

    Node scans the base name from its end: [startDot] is the index of the
    last dot, and the extension is empty when there is no dot, when no
    character precedes the last dot, or when the name is [".."]. *)
Fixpoint last_dot (s : string) : option nat :=
  match s with
  | EmptyString => None
  | String c s' =>
      match last_dot s' with
      | Some i => Some (S i)
      | None => if Ascii.eqb c "."%char then Some 0%nat else None
      end
  end.

Definition path_parse_name (file : string) : string :=
  match last_dot file with
  | None => file
  | Some O => file
  | Some i => if String.eqb file ".." then file else String.substring 0 i file
  end.

(** The artifact of a job: [`${jobId}.mp3`] inside the downloads directory. *)
Definition artifact (jobId : string) : string := jobId +:+ ".mp3".

(** ** Data model *)

(** ['processing'], ['completed'], ['error'] *)
Inductive status := Processing | Completed | Error.

#[global] Instance status_eq_dec : EqDecision status.
Proof. solve_decision. Defined.

Definition terminal (s : status) : bool :=
  match s with Processing => false | Completed | Error => true end.

(** References to job objects, and the handles returned by [setInterval],
    [setTimeout], a promise chain and a running [res.download]. *)
Abbreviation ref := nat (only parsing).

(** A job object.  [job_error] and [job_progressIntervalId] are the two
    properties that may be absent. *)
Record job := Job {
  job_id : string;
  job_status : status;
  job_title : string;
  job_quality : jsval;
  job_progress : Z;
  job_error : option string;
  job_progressIntervalId : option ref
}.

(** The closure of the interval callback of [simulateProgress]: the captured
    [job] and [jobId], and the local variable [progress] (a double, modelled
    as a rational). *)
Record interval := Interval {
  iv_job : ref;
  iv_jobId : string;
  iv_progress : Q
}.

(** Where the promise chain of one [processConversion] call stands. *)
Inductive phase := AwaitInfo | AwaitAudio | Settled.

#[global] Instance phase_eq_dec : EqDecision phase.
Proof. solve_decision. Defined.

(** The closure of [processConversion]: [job] is whatever [jobs.get(jobId)]
    returned when the call was made. *)
Record task := Task {
  t_job : option ref;
  t_jobId : string;
  t_url : jsval;
  t_quality : jsval;
  t_phase : phase
}.

(** A [res.download] whose callback has not run yet. *)
Record transfer := Transfer { tr_jobId : string }.

(** A pending [setTimeout] of the download route. *)
Record cleanup := Cleanup { cl_delay : Z; cl_jobId : string }.

(** A directory entry of [downloads/]. *)
Record file := File { mtimeMs : Q }.

Record state := State {
  jobs : gmap string ref;         (* const jobs = new Map() *)
  heap : gmap ref job;            (* the job objects *)
  intervals : gmap ref interval;  (* live setInterval timers *)
  tasks : gmap ref task;          (* promise chains *)
  transfers : gmap ref transfer;  (* downloads in flight *)
  timeouts : gmap ref cleanup;    (* pending setTimeout callbacks *)
  fs : gmap string file;          (* the downloads directory *)
  next : ref                      (* allocator of fresh handles *)
}.

Definition set_jobs (f : gmap string ref → gmap string ref) (st : state) : state :=
  State (f (jobs st)) (heap st) (intervals st) (tasks st) (transfers st)
        (timeouts st) (fs st) (next st).
Definition set_heap (f : gmap ref job → gmap ref job) (st : state) : state :=
  State (jobs st) (f (heap st)) (intervals st) (tasks st) (transfers st)
        (timeouts st) (fs st) (next st).
Definition set_intervals (f : gmap ref interval → gmap ref interval) (st : state) : state :=
  State (jobs st) (heap st) (f (intervals st)) (tasks st) (transfers st)
        (timeouts st) (fs st) (next st).
Definition set_tasks (f : gmap ref task → gmap ref task) (st : state) : state :=
  State (jobs st) (heap st) (intervals st) (f (tasks st)) (transfers st)
        (timeouts st) (fs st) (next st).
Definition set_transfers (f : gmap ref transfer → gmap ref transfer) (st : state) : state :=
  State (jobs st) (heap st) (intervals st) (tasks st) (f (transfers st))
        (timeouts st) (fs st) (next st).
Definition set_timeouts (f : gmap ref cleanup → gmap ref cleanup) (st : state) : state :=
  State (jobs st) (heap st) (intervals st) (tasks st) (transfers st)
        (f (timeouts st)) (fs st) (next st).
Definition set_fs (f : gmap string file → gmap string file) (st : state) : state :=
  State (jobs st) (heap st) (intervals st) (tasks st) (transfers st)
        (timeouts st) (f (fs st)) (next st).
Definition bump (st : state) : state :=
  State (jobs st) (heap st) (intervals st) (tasks st) (transfers st)
        (timeouts st) (fs st) (S (next st)).

(** Property writes on a job object. *)
Definition with_status (s : status) (j : job) : job :=
  Job (job_id j) s (job_title j) (job_quality j) (job_progress j) (job_error j)
      (job_progressIntervalId j).
Definition with_title (t : string) (j : job) : job :=
  Job (job_id j) (job_status j) t (job_quality j) (job_progress j) (job_error j)
      (job_progressIntervalId j).
Definition with_progress (p : Z) (j : job) : job :=
  Job (job_id j) (job_status j) (job_title j) (job_quality j) p (job_error j)
      (job_progressIntervalId j).
Definition with_error (e : string) (j : job) : job :=
  Job (job_id j) (job_status j) (job_title j) (job_quality j) (job_progress j) (Some e)
      (job_progressIntervalId j).
Definition with_progressIntervalId (t : option ref) (j : job) : job :=
  Job (job_id j) (job_status j) (job_title j) (job_quality j) (job_progress j)
      (job_error j) t.

(** [obj.prop = v] through a reference. *)
Definition write (l : ref) (f : job → job) (st : state) : state :=
  set_heap (alter f l) st.

(** The server right after start-up: no job, whatever the downloads
    directory holds. *)
Definition init (files : gmap string file) : state :=
  State ∅ ∅ ∅ ∅ ∅ ∅ files 0%nat.

(** ** Responses *)

Inductive body :=
| BError (msg : string)
| BAccepted (jobId title : string)
| BJob (id : string) (s : status) (title : string) (quality : jsval)
       (progress : Z) (error : option string).

Inductive response :=
| Json (code : Z) (b : body)
| DownloadFile (path filename : string).

(** ** The progress simulator: [simulateProgress] *)

(** [clearInterval(job.progressIntervalId); delete job.progressIntervalId]
    for the job object at [l]. *)
Definition clear_progress_interval (l : ref) (st : state) : state :=
  match heap st !! l with
  | Some j =>
      match job_progressIntervalId j with
      | Some t => write l (with_progressIntervalId None) (set_intervals (delete t) st)
      | None => st
      end
  | None => st
  end.

Definition simulateProgress (jobId : string) (st : state) : state :=
  match jobs st !! jobId with
  | None => st
  | Some l =>
      let t := next st in
      bump (set_intervals <[t := Interval l jobId 5]>
             (write l (with_progressIntervalId (Some t))
               (write l (with_progress 5) st)))
  end.

(** One run of the interval callback of timer [t]; [r] is the value that
    [Math.random()] returns when it is called. *)
Definition tick (t : ref) (r : Q) (st : state) : state :=
  match intervals st !! t with
  | None => st
  | Some iv =>
      match heap st !! iv_job iv with
      | None => st
      | Some j =>
          if terminal (job_status j) then clear_progress_interval (iv_job iv) st
          else if negb (Qle_bool 90 (iv_progress iv)) then
            let p := Qmin 90 (iv_progress iv + r * 5) in
            set_jobs <[iv_jobId iv := iv_job iv]>
              (write (iv_job iv) (with_progress (Qfloor p))
                (set_intervals <[t := Interval (iv_job iv) (iv_jobId iv) p]> st))
          else st
      end
  end.

(** ** The orchestrator: [processConversion] *)

(** The synchronous part: look the job up, start the simulator, issue the
    metadata call. *)
Definition processConversion (jobId : string) (url quality : jsval) (st : state) : state :=
  let job := jobs st !! jobId in
  let st := simulateProgress jobId st in
  bump (set_tasks <[next st := Task job jobId url quality AwaitInfo]> st).

Definition set_phase (k : ref) (p : phase) (st : state) : state :=
  set_tasks (alter (λ t, Task (t_job t) (t_jobId t) (t_url t) (t_quality t) p) k) st.

(** [if (job) { ...; jobs.set(jobId, job) }] *)
Definition when_job (tk : task) (f : job → job) (st : state) : state :=
  match t_job tk with
  | Some l => set_jobs <[t_jobId tk := l]> (write l f st)
  | None => st
  end.

Definition when_job_clear (tk : task) (st : state) : state :=
  match t_job tk with
  | Some l => clear_progress_interval l st
  | None => st
  end.

(** [info.title] is truthy. *)
Definition title_given (title : option string) : option string :=
  match title with
  | Some s => if String.eqb s "" then None else Some s
  | None => None
  end.

(** First [.then]: the metadata call of chain [k] resolved with [info];
    [title] is [info.title] ([None] when it is missing).  The extraction
    call is issued next. *)
Definition info_resolved (k : ref) (title : option string) (st : state) : state :=
  match tasks st !! k with
  | Some tk =>
      match t_phase tk with
      | AwaitInfo =>
          let st :=
            match title_given title with
            | Some s =>
                when_job tk (λ j, with_progress 20 (with_status Processing
                                    (with_title (replace_non_word_space s) j))) st
            | None => st
            end in
          set_phase k AwaitAudio st
      | _ => st
      end
  | None => st
  end.

(** Second [.then]: the extraction call resolved; the provider has written
    the artifact (last modified at [mtime]) to [outputPath]. *)
Definition audio_resolved (k : ref) (mtime : Q) (st : state) : state :=
  match tasks st !! k with
  | Some tk =>
      match t_phase tk with
      | AwaitAudio =>
          let st := set_fs <[artifact (t_jobId tk) := File mtime]> st in
          let st := when_job_clear tk st in
          let st := when_job tk (λ j, with_progress 100 (with_status Completed j)) st in
          set_phase k Settled st
      | _ => st
      end
  | None => st
  end.

(** [fs.unlinkSync(name)]; [throws] tells whether the call fails, in which
    case nothing is removed. *)
Definition unlinkSync (name : string) (throws : bool) (st : state) : option state :=
  if throws then None else Some (set_fs (delete name) st).

(** The [.catch] handler, for a rejection with message [msg]. *)
Definition on_rejected (k : ref) (tk : task) (msg : string) (unlink_throws : bool)
    (st : state) : state :=
  let st := when_job_clear tk st in
  let st := when_job tk (λ j, with_error msg (with_status Error j)) st in
  let st := set_phase k Settled st in
  match fs st !! artifact (t_jobId tk) with
  | Some _ =>
      match unlinkSync (artifact (t_jobId tk)) unlink_throws st with
      | Some st' => st'
      | None => st
      end
  | None => st
  end.

(** The metadata call of chain [k] was rejected. *)
Definition info_rejected (k : ref) (msg : string) (unlink_throws : bool) (st : state) : state :=
  match tasks st !! k with
  | Some tk =>
      match t_phase tk with
      | AwaitInfo => on_rejected k tk msg unlink_throws st
      | _ => st
      end
  | None => st
  end.

(** What the provider left at [name] before its call failed, if anything. *)
Definition leave_partial (name : string) (partial : option file) (st : state) : state :=
  match partial with
  | Some f => set_fs <[name := f]> st
  | None => st
  end.

(** The extraction call of chain [k] was rejected; [partial] is what the
    provider left at [outputPath]. *)
Definition audio_rejected (k : ref) (msg : string) (partial : option file)
    (unlink_throws : bool) (st : state) : state :=
  match tasks st !! k with
  | Some tk =>
      match t_phase tk with
      | AwaitAudio =>
          on_rejected k tk msg unlink_throws
            (leave_partial (artifact (t_jobId tk)) partial st)
      | _ => st
      end
  | None => st
  end.

(** ** Routes *)

(** [url.includes(x)]: defined on strings and arrays; on any other truthy
    value the property is missing and the call throws a [TypeError]. *)
Definition js_includes (v : jsval) (x : string) : option bool :=
  match v with
  | JStr s => Some (includes s x)
  | JArr l => Some (existsb (λ e, match e with JStr s => String.eqb s x | _ => false end) l)
  | _ => None
  end.

Inductive verdict := Accept | Reject | Throw.

(** [!url || !(url.includes('youtube.com/') || url.includes('youtu.be/'))] *)
Definition check_url (url : jsval) : verdict :=
  if negb (truthy url) then Reject
  else match js_includes url "youtube.com/" with
       | None => Throw
       | Some true => Accept
       | Some false =>
           match js_includes url "youtu.be/" with
           | None => Throw
           | Some true => Accept
           | Some false => Reject
           end
       end.

(** [POST /api/convert] with body [{url, quality}], handled when the clock
    reads [now]. *)
Definition post_convert (now : Z) (url quality : jsval) (st : state) : response * state :=
  match check_url url with
  | Reject => (Json 400 (BError "Invalid YouTube URL"), st)
  | Throw =>
      (Json 500 (BError ("Failed to process video: " +:+ "url.includes is not a function")), st)
  | Accept =>
      let jobId := toString now in
      let l := next st in
      let st := bump (set_jobs <[jobId := l]>
                  (set_heap <[l := Job jobId Processing "Unknown Title"
                                     (js_or quality (JStr "192")) 0 None None]> st)) in
      (Json 200 (BAccepted jobId "Processing..."), processConversion jobId url quality st)
  end.

(** [jobs.get(jobId)], dereferenced. *)
Definition get_job (jobId : string) (st : state) : option job :=
  jobs st !! jobId ≫= λ l, heap st !! l.

(** [GET /api/status/:jobId] *)
Definition get_status (jobId : string) (st : state) : response :=
  match get_job jobId st with
  | None => Json 404 (BError "Job not found")
  | Some j =>
      Json 200 (BJob (job_id j) (job_status j) (job_title j) (job_quality j)
                     (job_progress j) (job_error j))
  end.

(** [GET /api/download/:jobId]: the response, and the transfer it starts. *)
Definition get_download (jobId : string) (st : state) : response * state :=
  match get_job jobId st with
  | None => (Json 404 (BError "File not ready or not found"), st)
  | Some j =>
      match job_status j with
      | Completed =>
          match fs st !! artifact jobId with
          | None => (Json 404 (BError "File not found"), st)
          | Some _ =>
              (DownloadFile (artifact jobId) (job_title j +:+ ".mp3"),
               bump (set_transfers <[next st := Transfer jobId]> st))
          end
      | _ => (Json 404 (BError "File not ready or not found"), st)
      end
  end.

(** The callback of [res.download], run once transfer [d] is over; [err] is
    its argument.  It only logs [err] and arms the timer. *)
Definition download_done (d : ref) (err : option string) (st : state) : state :=
  match transfers st !! d with
  | Some tr =>
      bump (set_timeouts <[next st := Cleanup 30000 (tr_jobId tr)]>
             (set_transfers (delete d) st))
  | None => st
  end.

(** The [setTimeout] callback of timer [c]. *)
Definition cleanup_fired (c : ref) (unlink_throws : bool) (st : state) : state :=
  match timeouts st !! c with
  | Some cl =>
      let st := set_timeouts (delete c) st in
      match fs st !! artifact (cl_jobId cl) with
      | Some _ =>
          match unlinkSync (artifact (cl_jobId cl)) unlink_throws st with
          | Some st' => set_jobs (delete (cl_jobId cl)) st'
          | None => st
          end
      | None => set_jobs (delete (cl_jobId cl)) st
      end
  | None => st
  end.

(** ** The retention sweeper *)

(** [fileAge > 3600000] *)
Definition expired (now : Z) (f : file) : bool :=
  negb (Qle_bool (inject_Z now - mtimeMs f) 3600000).

(** The body of [files.forEach]: [stat_throws] and [unlink_throws] are the
    entries on which [statSync] and [unlinkSync] fail during this pass. *)
Definition sweep_file (now : Z) (stat_throws unlink_throws : gset string)
    (st : state) (name : string) : state :=
  if decide (name ∈ stat_throws) then st
  else match fs st !! name with
       | None => st
       | Some f =>
           if expired now f then
             if decide (name ∈ unlink_throws) then st
             else set_jobs (delete (path_parse_name name)) (set_fs (delete name) st)
           else st
       end.

(** [fs.readdirSync('downloads')] *)
Definition readdirSync (st : state) : list string := (map_to_list (fs st)).*1.

(** One pass of the cleanup interval. *)
Definition sweep (now : Z) (stat_throws unlink_throws : gset string) (st : state) : state :=
  foldl (sweep_file now stat_throws unlink_throws) st (readdirSync st).

(** ** The event loop *)

Inductive event :=
| PostConvert (now : Z) (url quality : jsval)
| GetStatus (jobId : string)
| GetDownload (jobId : string)
| DownloadDone (d : ref) (err : option string)
| CleanupFired (c : ref) (unlink_throws : bool)
| Tick (t : ref) (r : Q)
| InfoResolved (k : ref) (title : option string)
| InfoRejected (k : ref) (msg : string) (unlink_throws : bool)
| AudioResolved (k : ref) (mtime : Q)
| AudioRejected (k : ref) (msg : string) (partial : option file) (unlink_throws : bool)
| Sweep (now : Z) (stat_throws unlink_throws : gset string).

Definition step (st : state) (e : event) : state :=
  match e with
  | PostConvert now url quality => (post_convert now url quality st).2
  | GetStatus _ => st
  | GetDownload jobId => (get_download jobId st).2
  | DownloadDone d err => download_done d err st
  | CleanupFired c u => cleanup_fired c u st
  | Tick t r => tick t r st
  | InfoResolved k title => info_resolved k title st
  | InfoRejected k msg u => info_rejected k msg u st
  | AudioResolved k mtime => audio_resolved k mtime st
  | AudioRejected k msg partial u => audio_rejected k msg partial u st
  | Sweep now s u => sweep now s u st
  end.

Definition run (st : state) (es : list event) : state := foldl step st es.

(** The states the server can be in: started on some directory contents and
    driven by any sequence of events. *)
Definition reachable (st : state) : Prop :=
  ∃ files es, st = run (init files) es.

(** ** Vocabulary of the statements *)

(** [s] contains one of the two host markers. *)
Definition has_marker (s : string) : Prop :=
  ∃ pre post, s = pre +:+ "youtube.com/" +:+ post ∨ s = pre +:+ "youtu.be/" +:+ post.

(** Letters and digits. *)
Definition is_alnum (c : ascii) : bool :=
  let n := code c in
  ((48 <=? n) && (n <=? 57) || (65 <=? n) && (n <=? 90) || (97 <=? n) && (n <=? 122))%N.

(** The sanitizer in the words of the specification: every character that
    is neither alphanumeric nor whitespace is stripped. *)
Fixpoint strip_non_alnum_space (s : string) : string :=
  match s with
  | EmptyString => EmptyString
  | String c s' =>
      if is_alnum c || is_space c
      then String c (strip_non_alnum_space s')
      else strip_non_alnum_space s'
  end.

(** The job id carried by the answer to an accepted request. *)
Definition accepted_id (r : response) : option string :=
  match r with
  | Json 200 (BAccepted jobId _) => Some jobId
  | _ => None
  end.

(** Whether the body of [files.forEach], run on entry [name] in [st], gets
    as far as [unlinkSync] and past it: [statSync] does not throw, the test
    [fileAge > 3600000] of the code holds, and [unlinkSync] does not throw
    (see [sweep_file_deletes]).  It tells the two cases of the body apart
    in the proofs; the statements about the sweeper spell the age out. *)
Definition deletes (now : Z) (stat_throws unlink_throws : gset string) (st : state)
    (name : string) : bool :=
  match fs st !! name with
  | Some f =>
      expired now f && bool_decide (name ∉ stat_throws) && bool_decide (name ∉ unlink_throws)
  | None => false
  end.

(** ** The invariant of the event loop *)

(** The bound that the status of a job puts on its progress. *)
Definition progress_ok (j : job) : Prop :=
  match job_status j with
  | Completed => job_progress j = 100
  | Processing | Error => (job_progress j ≤ 90)%Z
  end.

(** What every state the server can reach satisfies: handles are allocated
    below [next]; the registry maps an id to a job object carrying that id;
    a live interval belongs to a job that is still [Processing] and that
    stores the interval's handle; a promise chain that is not settled has a
    [Processing] job whose simulator is running, and no two chains share a
    job object; and the progress of a job is bounded as its status says. *)
Record wf (st : state) : Prop := Wf {
  wf_heap_fresh : ∀ l j, heap st !! l = Some j → (l < next st)%nat;
  wf_interval_fresh : ∀ t iv, intervals st !! t = Some iv → (t < next st)%nat;
  wf_registry : ∀ x l, jobs st !! x = Some l →
    ∃ j, heap st !! l = Some j ∧ job_id j = x;
  wf_handle : ∀ l j t, heap st !! l = Some j → job_progressIntervalId j = Some t →
    (t < next st)%nat ∧ ∀ iv, intervals st !! t = Some iv → iv_job iv = l;
  wf_interval : ∀ t iv, intervals st !! t = Some iv →
    ∃ j, heap st !! iv_job iv = Some j ∧ job_status j = Processing ∧
         job_progressIntervalId j = Some t ∧ job_id j = iv_jobId iv;
  wf_task : ∀ k tk, tasks st !! k = Some tk → t_phase tk ≠ Settled →
    ∃ l j t, t_job tk = Some l ∧ heap st !! l = Some j ∧
             job_status j = Processing ∧ job_id j = t_jobId tk ∧
             job_progressIntervalId j = Some t ∧ is_Some (intervals st !! t);
  wf_task_job : ∀ k tk l, tasks st !! k = Some tk → t_job tk = Some l →
    is_Some (heap st !! l);
  wf_task_inj : ∀ k k' tk tk' l,
    tasks st !! k = Some tk → tasks st !! k' = Some tk' →
    t_job tk = Some l → t_job tk' = Some l → k = k';
  wf_progress : ∀ l j, heap st !! l = Some j → progress_ok j;
  wf_id : ∀ l j, heap st !! l = Some j → job_id j ≠ ""
}.

(** How a job object may change in one step: its id never does, and once
    its status is terminal nothing does. *)
Definition evolves (j j' : job) : Prop :=
  job_id j' = job_id j ∧ (terminal (job_status j) = true → j' = j).

Definition heap_evolves (st st' : state) : Prop :=
  ∀ l j, heap st !! l = Some j → ∃ j', heap st' !! l = Some j' ∧ evolves j j'.

(** What a rejection of the chain [tk] must leave behind, [reject u] being
    the state after the [.catch] handler ran with [unlinkSync] failing
    ([u = true]) or not: the job is in state [Error] with the message
    stored, is back in the registry, has no interval left, and its artifact
    is gone when the deletion went through; and a failing deletion changes
    nothing but the directory. *)
Definition failed_as (tk : task) (msg : string) (st : state) (reject : bool → state) : Prop :=
  ∃ l j, t_job tk = Some l ∧ heap st !! l = Some j ∧
    (∀ u,
       heap (reject u) !! l =
         Some (with_error msg (with_status Error (with_progressIntervalId None j))) ∧
       jobs (reject u) !! t_jobId tk = Some l ∧
       (∀ t iv, intervals (reject u) !! t = Some iv → iv_job iv ≠ l)) ∧
    fs (reject false) !! artifact (t_jobId tk) = None ∧
    heap (reject true) = heap (reject false) ∧
    jobs (reject true) = jobs (reject false) ∧
    intervals (reject true) = intervals (reject false) ∧
    tasks (reject true) = tasks (reject false).

(** Some job object with id [y] is [Completed]. *)
Definition done_job (st : state) (y : string) : Prop :=
  ∃ l j, heap st !! l = Some j ∧ job_id j = y ∧ job_status j = Completed.

(** The job object at [l] has id [y] and is [Processing]. *)
Definition processing_job (st : state) (l : ref) (y : string) : Prop :=
  ∃ j, heap st !! l = Some j ∧ job_status j = Processing ∧ job_id j = y.

(** Downloads in flight and pending cleanups are those of completed jobs,
    and every cleanup waits 30000 ms. *)
Record wf_dl (st : state) : Prop := WfDl {
  wf_transfer : ∀ d tr, transfers st !! d = Some tr → done_job st (tr_jobId tr);
  wf_timeout : ∀ c cl, timeouts st !! c = Some cl →
    done_job st (cl_jobId cl) ∧ cl_delay cl = 30000
}.

(** Event [e] is not an accepted request that is given the id [x]. *)
Definition spares (x : string) (e : event) : Prop :=
  match e with
  | PostConvert now url _ => check_url url = Accept → toString now ≠ x
  | _ => True
  end.

(** No entry of [downloads/] parses to [x]. *)
Definition no_file_of (x : string) (st : state) : Prop :=
  ∀ n, is_Some (fs st !! n) → path_parse_name n ≠ x.

(** No job object but the one at [l] has id [x]. *)
Definition sole_owner (x : string) (l : ref) (st : state) : Prop :=
  ∀ l' j', heap st !! l' = Some j' → job_id j' = x → l' = l.

(** Event [e] is a request accepted under the id [y]. *)
Definition accepted_as (e : event) (y : string) : Prop :=
  ∃ now url q, e = PostConvert now url q ∧ check_url url = Accept ∧ y = toString now.

(** Where the job objects, registry entries and directory entries of [st']
    come from, [st'] being the state one step [e] after [st]: a job object
    was there or was created by an accepted request; a registry entry is
    unchanged, or was stored for a job that was [Processing], or belongs to
    the request just accepted and names its new job object, or was deleted
    for a completed job (the download finalizer) or along with a file that
    parses to it (the sweeper); a directory entry was there or is the
    artifact of a job that was [Processing] and that the registry now holds
    under its id. *)
Record step_effect (e : event) (st st' : state) : Prop := StepEffect {
  eff_heap : ∀ l j', heap st' !! l = Some j' →
    is_Some (heap st !! l) ∨ accepted_as e (job_id j');
  eff_jobs : ∀ y,
    jobs st' !! y = jobs st !! y ∨
    (∃ l, jobs st' !! y = Some l ∧ processing_job st l y) ∨
    (accepted_as e y ∧ jobs st' !! y = Some (next st)) ∨
    (jobs st' !! y = None ∧
     (done_job st y ∨ ∃ n, is_Some (fs st !! n) ∧ path_parse_name n = y));
  eff_fs : ∀ n, is_Some (fs st' !! n) →
    is_Some (fs st !! n) ∨
    ∃ l y, processing_job st l y ∧ n = artifact y ∧ jobs st' !! y = Some l
}.

(** The registry maps [x] to the job object [l], whose content is [j] and
    which alone has this id, and no directory entry parses to [x]. *)
Definition kept (x : string) (l : ref) (j : job) (st : state) : Prop :=
  jobs st !! x = Some l ∧ heap st !! l = Some j ∧
  sole_owner x l st ∧ no_file_of x st.

(** The job object at [l] has content [j]; and if the registry maps [x] to
    it, no directory entry parses to [x]. *)
Definition out_of_reach (x : string) (l : ref) (j : job) (st : state) : Prop :=
  heap st !! l = Some j ∧ (jobs st !! x = Some l → no_file_of x st).

(** ** States used as examples *)

Definition example_url : jsval := JStr "https://youtu.be/dQw4w9WgXcQ".

(** One accepted request: job object 0, interval 1, chain 2. *)
Definition example_processing : state :=
  run (init ∅) [PostConvert 1000 example_url JUndefined].

(** The same job after metadata and extraction went through. *)
Definition example_completed : state :=
  run example_processing [InfoResolved 2%nat (Some "Song"); AudioResolved 2%nat 1000%Q].

(** The same job after the metadata call failed. *)
Definition example_failed : state :=
  run example_processing [InfoRejected 2%nat "boom" false].

(** Two requests accepted in the same millisecond (job objects 0 and 3, both
    with id ["1000"]); the second completes and is downloaded, then the
    first fails. *)
Definition example_collision : state :=
  run (init ∅)
    [PostConvert 1000 example_url JUndefined; PostConvert 1000 example_url JUndefined;
     InfoResolved 5%nat (Some "Song"); AudioResolved 5%nat 1000%Q;
     GetDownload "1000"; DownloadDone 6%nat None;
     InfoRejected 2%nat "boom" false].

(** The server started on a directory that holds an old file [1000.txt];
    one request is accepted at clock reading 1000, and its metadata call
    fails.  The [.catch] handler finds no [1000.mp3] to delete. *)
Definition example_foreign : state :=
  run (init {["1000.txt" := File 0]})
    [PostConvert 1000 example_url JUndefined; InfoRejected 2%nat "boom" false].

(** One request accepted at clock reading 1000; the extraction call fails
    after the provider wrote part of [1000.mp3] (last modified at 2000),
    and the [unlinkSync] of the [.catch] handler throws. *)
Definition example_left_behind : state :=
  run (init ∅)
    [PostConvert 1000 example_url JUndefined; InfoResolved 2%nat (Some "Song");
     AudioRejected 2%nat "boom" (Some (File 2000)) true].

(** ** The remaining route: [POST /api/videoinfo] *)

(** How the awaited provider call ends. *)
Inductive outcome (R : Type) :=
| Fulfilled (result : R)
| RejectedWith (msg : string).
Arguments Fulfilled {R} result.
Arguments RejectedWith {R} msg.

(** [POST /api/videoinfo] with body [{url}]; [o] is how [await youtubedl(...)]
    ends if it is reached.  The answer is an error response or, through
    [res.json(result)], the provider's own JSON.  No job is involved. *)
Definition post_videoinfo {R : Type} (url : jsval) (o : outcome R) : response + R :=
  match check_url url with
  | Reject => inl (Json 400 (BError "Invalid YouTube URL"))
  | Throw =>
      inl (Json 500 (BError ("Failed to get video info: " +:+
                             "url.includes is not a function")))
  | Accept =>
      match o with
      | Fulfilled result => inr result
      | RejectedWith msg => inl (Json 500 (BError ("Failed to get video info: " +:+ msg)))
      end
  end.

(** ** Vocabulary of the further statements *)

(** The job object an event writes to, if any: the one a request creates,
    the one captured by the interval, the one captured by the chain. *)
Definition target (st : state) (e : event) : option ref :=
  match e with
  | PostConvert _ url _ =>
      match check_url url with Accept => Some (next st) | _ => None end
  | Tick t _ => iv_job <$> intervals st !! t
  | InfoResolved k _ | InfoRejected k _ _
  | AudioResolved k _ | AudioRejected k _ _ _ => tasks st !! k ≫= t_job
  | _ => None
  end.

(** The job object that an accepted request leaves behind: [simulateProgress]
    has already set progress 5 and stored the interval handle [t]. *)
Definition new_job (now : Z) (quality : jsval) (t : ref) : job :=
  Job (toString now) Processing "Unknown Title" (js_or quality (JStr "192")) 5 None (Some t).

(** The writes that one step [e] from [st] can make to a job object. *)
Inductive job_step (st : state) (e : event) (j : job) : job → Prop :=
| js_same : job_step st e j j
| js_tick t r iv :
    e = Tick t r → intervals st !! t = Some iv → job_status j = Processing →
    job_step st e j (with_progress (Qfloor (Qmin 90 (iv_progress iv + r * 5))) j)
| js_info k s :
    e = InfoResolved k (Some s) → s ≠ "" → job_status j = Processing →
    job_step st e j
      (with_progress 20 (with_status Processing (with_title (replace_non_word_space s) j)))
| js_done :
    job_status j = Processing →
    job_step st e j
      (with_progress 100 (with_status Completed (with_progressIntervalId None j)))
| js_fail msg :
    job_status j = Processing →
    job_step st e j (with_error msg (with_status Error (with_progressIntervalId None j))).

(** Every code unit of [s] is in [\w] or [\s]. *)
Definition word_or_space (s : string) : Prop :=
  Forall (λ c, is_word c || is_space c = true) (String.list_ascii_of_string s).

(** What holds of the fields of every job object the server makes. *)
Record tidy (j : job) : Prop := Tidy {
  tidy_id : ∃ n, job_id j = toString n;
  tidy_quality : truthy (job_quality j) = true;
  tidy_title : word_or_space (job_title j);
  tidy_error : is_Some (job_error j) ↔ job_status j = Error
}.

(** The title a job shows once its metadata call resolved with [title]. *)
Definition shown_title (title : option string) : string :=
  match title_given title with
  | Some s => replace_non_word_space s
  | None => "Unknown Title"
  end.

(** [Math.random()] returns a number in [[0, 1)]. *)
Definition random_ok (e : event) : Prop :=
  match e with
  | Tick _ r => (0 <= r)%Q ∧ (r < 1)%Q
  | _ => True
  end.

(** Chains are allocated below [next], and a job that is [Processing] has a
    chain that is not settled. *)
Record wf_chain (st : state) : Prop := WfChain {
  wf_chain_fresh : ∀ k tk, tasks st !! k = Some tk → (k < next st)%nat;
  wf_chain_live : ∀ l j, heap st !! l = Some j → job_status j = Processing →
    ∃ k tk, tasks st !! k = Some tk ∧ t_job tk = Some l ∧ t_phase tk ≠ Settled
}.

(** Two requests accepted at different clock readings: job objects 0 and 3,
    intervals 1 and 4, chains 2 and 5. *)
Definition example_two : state :=
  run (init ∅) [PostConvert 1000 example_url JUndefined;
                PostConvert 2000 example_url (JStr "320")].

(** Job progress within [5, 100], local simulator progress within [5, 90]. *)
Definition in_range (st : state) : Prop :=
  (∀ l j, heap st !! l = Some j → (5 ≤ job_progress j ≤ 100)%Z) ∧
  (∀ t iv, intervals st !! t = Some iv →
           (5 <= iv_progress iv)%Q ∧ (iv_progress iv <= 90)%Q).

(** ** Facts about the string functions *)

Lemma app_String (c : ascii) (s t : string) : String c s +:+ t = String c (s +:+ t).
Proof. reflexivity. Qed.

Lemma app_empty (t : string) : "" +:+ t = t.
Proof. reflexivity. Qed.

Lemma prefix_true_iff (p s : string) :
  String.prefix p s = true ↔ ∃ post, s = p +:+ post.
Proof.
  revert p. induction s as [|d s IH]; intros [|c p]; simpl;
    rewrite ?app_String.
  - split; [by exists "" | done].
  - split; [done | intros [post ?]; done].
  - split; [by exists (String d s) | done].
  - destruct (Ascii.ascii_dec c d) as [->|Hne].
    + rewrite IH. setoid_rewrite app_String.
      split; intros [post Heq]; exists post; by simplify_eq.
    + setoid_rewrite app_String.
      split; [done | intros [post ?]; by simplify_eq].
Qed.

(** [includes] is the substring test. *)
Lemma includes_true_iff (s sub : string) :
  includes s sub = true ↔ ∃ pre post, s = pre +:+ sub +:+ post.
Proof.
  induction s as [|c s IH]; cbn [includes].
  - rewrite orb_false_r, prefix_true_iff. split.
    + intros [post ->]. by exists "", post.
    + intros [[|d pre] [post Heq]]; [by exists post | done].
  - rewrite orb_true_iff, prefix_true_iff, IH. split.
    + intros [[post ->] | (pre & post & ->)].
      * by exists "", post.
      * by exists (String c pre), post.
    + intros [[|d pre] [post Heq]]; rewrite ?app_empty, ?app_String in Heq.
      * left. by exists post.
      * right. exists pre, post. by simplify_eq.
Qed.

Lemma toString_inj (m n : Z) : toString m = toString n → m = n.
Proof. apply pretty_Z_inj. Qed.

(** The replacement keeps, in order, exactly the code units of [\w] and
    [\s]. *)
Lemma replace_non_word_space_filter (s : string) :
  String.list_ascii_of_string (replace_non_word_space s) =
  List.filter (λ c, is_word c || is_space c) (String.list_ascii_of_string s).
Proof.
  induction s as [|c s IH]; simpl; [done|].
  destruct (is_word c || is_space c); simpl; by rewrite IH.
Qed.

Lemma last_dot_app_ext (s : string) :
  last_dot (s +:+ ".mp3") = Some (String.length s).
Proof.
  induction s as [|c s IH]; [done|].
  rewrite app_String. simpl. by rewrite IH.
Qed.

Lemma substring_app_length (s t : string) :
  String.substring 0 (String.length s) (s +:+ t) = s.
Proof.
  induction s as [|c s IH]; [by destruct t|].
  rewrite app_String. simpl. by rewrite IH.
Qed.

(** The sweeper maps the artifact of a job back to the job's id. *)
Lemma path_parse_name_artifact (jobId : string) :
  jobId ≠ "" → path_parse_name (artifact jobId) = jobId.
Proof.
  intros Hne. unfold path_parse_name, artifact. rewrite last_dot_app_ext.
  destruct jobId as [|c s]; [done|]. cbn [String.length].
  change (S (String.length s)) with (String.length (String c s)).
  rewrite substring_app_length.
  destruct (String.eqb_spec (String c s +:+ ".mp3") "..") as [Heq|_]; [|done].
  destruct s as [|? [|? ?]]; rewrite ?app_String, ?app_empty in Heq; simplify_eq.
Qed.

(** A few evaluations of the string functions. *)

Example includes_watch :
  includes "https://www.youtube.com/watch?v=abc" "youtube.com/" = true.
Proof. reflexivity. Qed.

Example includes_other :
  includes "https://example.com/video" "youtube.com/" = false.
Proof. reflexivity. Qed.

Example toString_now : toString 1700000000000 = "1700000000000".
Proof. vm_compute. reflexivity. Qed.

Example replace_title :
  replace_non_word_space "Rick & Roll - (Official_Video)!" = "Rick  Roll  Official_Video".
Proof. reflexivity. Qed.

Example parse_name_mp3 : path_parse_name "1700000000000.mp3" = "1700000000000".
Proof. reflexivity. Qed.

Example parse_name_hidden : path_parse_name ".gitkeep" = ".gitkeep".
Proof. reflexivity. Qed.

Example parse_name_two : path_parse_name "a.b.c" = "a.b".
Proof. reflexivity. Qed.

(** ** [POST /api/convert] *)

Lemma check_url_string (s : string) :
  check_url (JStr s) = Accept ↔ has_marker s.
Proof.
  unfold check_url, has_marker. cbn [truthy js_includes].
  destruct (String.eqb_spec s "") as [->|Hne]; cbn [negb].
  - split; [done|]. intros (pre & post & [H|H]); by destruct pre.
  - destruct (includes s "youtube.com/") eqn:H1.
    + split; [|done]. intros _. apply includes_true_iff in H1 as (pre & post & ->).
      exists pre, post. by left.
    + destruct (includes s "youtu.be/") eqn:H2.
      * split; [|done]. intros _. apply includes_true_iff in H2 as (pre & post & ->).
        exists pre, post. by right.
      * split; [done|]. intros (pre & post & [H|H]).
        -- assert (includes s "youtube.com/" = true) by (apply includes_true_iff; eauto).
           congruence.
        -- assert (includes s "youtu.be/" = true) by (apply includes_true_iff; eauto).
           congruence.
Qed.

Lemma check_url_string_cases (s : string) :
  check_url (JStr s) = Accept ∨ check_url (JStr s) = Reject.
Proof.
  unfold check_url. cbn [truthy js_includes].
  destruct (negb _); [by right|].
  destruct (includes s "youtube.com/"); [by left|].
  destruct (includes s "youtu.be/"); [by left | by right].
Qed.

(** C4. A string URL is accepted by [POST /api/convert] exactly when it
    contains ["youtube.com/"] or ["youtu.be/"].  A rejected URL (and a
    missing or empty one) is answered with 400 and an error body, and the
    state (in particular the registry) is left as it was.  An accepted URL
    is answered with the job id in the very step that creates the job: the
    registry then maps the id to a job in state [Processing], and the
    promise chain of that job is still waiting for the metadata call. *)
Theorem post_convert_spec (now : Z) (s : string) (quality : jsval) (st : state) :
  (check_url (JStr s) = Accept ↔ has_marker s) ∧
  (¬ has_marker s →
     post_convert now (JStr s) quality st = (Json 400 (BError "Invalid YouTube URL"), st)) ∧
  (∀ url, truthy url = false →
     post_convert now url quality st = (Json 400 (BError "Invalid YouTube URL"), st)) ∧
  (has_marker s →
     ∃ st', post_convert now (JStr s) quality st =
              (Json 200 (BAccepted (toString now) "Processing..."), st') ∧
       ∃ l j tk,
         jobs st' !! toString now = Some l ∧ heap st' !! l = Some j ∧
         job_id j = toString now ∧ job_status j = Processing ∧
         tasks st' !! S (S (next st)) = Some tk ∧
         t_job tk = Some l ∧ t_phase tk = AwaitInfo).
Proof.
  split; [apply check_url_string|]. split; [|split].
  - intros Hno. unfold post_convert.
    destruct (check_url_string_cases s) as [Ha|Hr]; [|by rewrite Hr].
    by apply check_url_string in Ha.
  - intros url Hf. unfold post_convert, check_url. by rewrite Hf.
  - intros Hm. apply check_url_string in Hm. unfold post_convert. rewrite Hm.
    eexists. split; [done|].
    unfold processConversion, simulateProgress; cbn.
    rewrite lookup_insert_eq. cbn.
    exists (next st). eexists. eexists.
    rewrite !lookup_insert_eq, !lookup_alter_eq, !lookup_insert_eq. cbn.
    repeat split; reflexivity.
Qed.

(** ** Job ids *)

Lemma post_convert_accepted_id (now : Z) (url quality : jsval) (st : state) :
  check_url url = Accept →
  accepted_id (post_convert now url quality st).1 = Some (toString now).
Proof. intros H. unfold post_convert. by rewrite H. Qed.

(** Requests accepted at different clock readings get different ids. *)
Lemma accepted_id_distinct (now1 now2 : Z) (u1 u2 q1 q2 : jsval) (st1 st2 : state) :
  check_url u1 = Accept → check_url u2 = Accept → now1 ≠ now2 →
  accepted_id (post_convert now1 u1 q1 st1).1 ≠ accepted_id (post_convert now2 u2 q2 st2).1.
Proof.
  intros H1 H2 Hne. rewrite !post_convert_accepted_id by done.
  intros [=Heq]. by apply toString_inj in Heq.
Qed.

(** C5. Two requests accepted while [Date.now()] reads the same millisecond
    are answered with the same job id; the second [jobs.set] replaces the
    first registry entry, so that two job objects exist and one id. *)
Theorem job_id_collision :
  let now := 1700000000000 in
  let r1 := post_convert now (JStr "https://youtu.be/first") JUndefined (init ∅) in
  let r2 := post_convert now (JStr "https://youtu.be/second") JUndefined r1.2 in
  accepted_id r1.1 = Some "1700000000000" ∧
  accepted_id r2.1 = Some "1700000000000" ∧
  size (heap r2.2) = 2%nat ∧
  size (jobs r2.2) = 1%nat ∧
  jobs r1.2 !! "1700000000000" = Some 0%nat ∧
  jobs r2.2 !! "1700000000000" = Some 3%nat.
Proof. vm_compute. repeat split; reflexivity. Qed.

(** ** The metadata step *)

Lemma is_word_alnum (c : ascii) :
  is_word c = is_alnum c || Ascii.eqb c "_"%char.
Proof.
  unfold is_word, is_alnum. f_equal.
  destruct (Ascii.eqb_spec c "_"%char) as [->|Hne]; [done|].
  apply N.eqb_neq. intros Heq. apply Hne.
  rewrite <- (ascii_N_embedding c). unfold code in Heq. by rewrite Heq.
Qed.

(** C6, as stated, fails: the underscore is neither alphanumeric nor
    whitespace, yet it is kept in the title; and a metadata answer whose
    title is empty leaves title and progress as they were. *)
Lemma info_resolved_keeps_underscore :
  let st := (post_convert 1000 (JStr "https://youtu.be/x") JUndefined (init ∅)).2 in
  (get_job "1000" (info_resolved 2 (Some "My_Song!") st)) ≫= (λ j, Some (job_title j, job_progress j))
    = Some ("My_Song", 20) ∧
  strip_non_alnum_space "My_Song!" = "MySong" ∧
  (get_job "1000" (info_resolved 2 (Some "") st)) ≫= (λ j, Some (job_title j, job_progress j))
    = Some ("Unknown Title", 5).
Proof. vm_compute. repeat split; reflexivity. Qed.

(** C6, amended. When the metadata call of a waiting chain resolves with a
    non-empty title, the job's title becomes the provider title restricted
    to its letters, digits, underscores and whitespace, its progress
    becomes 20, and its status stays [Processing]; with an empty or missing
    title the job objects are left as they were. *)
Theorem info_resolved_spec (k l : ref) (tk : task) (j : job) (title : option string)
    (st : state) :
  tasks st !! k = Some tk → t_phase tk = AwaitInfo →
  t_job tk = Some l → heap st !! l = Some j →
  match title_given title with
  | Some s =>
      ∃ j', heap (info_resolved k title st) !! l = Some j' ∧
        String.list_ascii_of_string (job_title j') =
          List.filter (λ c, is_alnum c || Ascii.eqb c "_"%char || is_space c)
                      (String.list_ascii_of_string s) ∧
        job_progress j' = 20 ∧ job_status j' = Processing
  | None => heap (info_resolved k title st) = heap st
  end.
Proof.
  intros Hk Hp Hl Hj. unfold info_resolved. rewrite Hk, Hp.
  destruct (title_given title) as [s|]; [|done].
  unfold when_job. rewrite Hl. cbn. rewrite lookup_alter_eq, Hj. cbn.
  eexists. split; [done|]. cbn. split; [|done].
  rewrite replace_non_word_space_filter.
  apply List.filter_ext. intros c. by rewrite is_word_alnum.
Qed.

Lemma info_resolved_spec_witness :
  ∃ j', heap (info_resolved 2 (Some "My_Song!") example_processing) !! 0%nat = Some j' ∧
    String.list_ascii_of_string (job_title j') =
      List.filter (λ c, is_alnum c || Ascii.eqb c "_"%char || is_space c)
                  (String.list_ascii_of_string "My_Song!") ∧
    job_progress j' = 20 ∧ job_status j' = Processing.
Proof.
  eapply (info_resolved_spec 2 0 _ _ (Some "My_Song!") example_processing);
    vm_compute; reflexivity.
Defined.

(** ** [GET /api/download/:jobId] and the download finalizer *)

Lemma cleanup_fired_deletes (c : ref) (jobId : string) (delay : Z) (st : state) :
  timeouts st !! c = Some (Cleanup delay jobId) →
  let st' := cleanup_fired c false st in
  fs st' !! artifact jobId = None ∧ jobs st' !! jobId = None ∧ timeouts st' !! c = None.
Proof.
  intros Hc. unfold cleanup_fired. rewrite Hc. cbn.
  destruct (fs st !! artifact jobId) eqn:Hf; cbn.
  - by rewrite !lookup_delete_eq.
  - by rewrite Hf, !lookup_delete_eq.
Qed.

(** C8. [GET /api/download/:jobId] answers 404 with an error body, and
    changes nothing, when the registry has no such job, when the job is not
    [Completed], or when [downloads/] holds no artifact for the id.
    Otherwise it sends the artifact under the name [{title}.mp3]; when the
    transfer is over, with or without an error, a timer of 30000 ms is
    armed, whose callback deletes the artifact and the registry entry. *)
Theorem get_download_spec (jobId : string) (st : state) :
  (get_job jobId st = None →
     get_download jobId st = (Json 404 (BError "File not ready or not found"), st)) ∧
  (∀ j, get_job jobId st = Some j → job_status j ≠ Completed →
     get_download jobId st = (Json 404 (BError "File not ready or not found"), st)) ∧
  (∀ j, get_job jobId st = Some j → job_status j = Completed →
     fs st !! artifact jobId = None →
     get_download jobId st = (Json 404 (BError "File not found"), st)) ∧
  (∀ j, get_job jobId st = Some j → job_status j = Completed →
     is_Some (fs st !! artifact jobId) →
     ∃ st1, get_download jobId st =
              (DownloadFile (artifact jobId) (job_title j +:+ ".mp3"), st1) ∧
       transfers st1 !! next st = Some (Transfer jobId) ∧
       ∀ err, let st2 := download_done (next st) err st1 in
         timeouts st2 !! next st1 = Some (Cleanup 30000 jobId) ∧
         transfers st2 !! next st = None ∧
         let st3 := cleanup_fired (next st1) false st2 in
         fs st3 !! artifact jobId = None ∧ jobs st3 !! jobId = None).
Proof.
  unfold get_download. repeat split.
  - by intros ->.
  - intros j -> Hs. by destruct (job_status j).
  - intros j -> -> Hf. by rewrite Hf.
  - intros j -> -> [f Hf]. rewrite Hf. eexists. split; [done|]. cbn.
    rewrite lookup_insert_eq. split; [done|]. intros err.
    unfold download_done. cbn. rewrite lookup_insert_eq. cbn.
    rewrite lookup_insert_eq, lookup_delete_eq. repeat split.
    + eapply (cleanup_fired_deletes _ _ 30000). cbn. by rewrite lookup_insert_eq.
    + eapply (cleanup_fired_deletes _ _ 30000). cbn. by rewrite lookup_insert_eq.
Qed.

(** ** The retention sweeper *)

Lemma expired_iff (now : Z) (f : file) :
  expired now f = true ↔ (3600000 < inject_Z now - mtimeMs f)%Q.
Proof.
  unfold expired. rewrite negb_true_iff. split.
  - intros H. apply Qnot_le_lt. intros Hle. apply Qle_bool_iff in Hle. congruence.
  - intros H. apply not_true_is_false. intros Hle. apply Qle_bool_iff in Hle.
    by apply Qlt_not_le in H.
Qed.

Lemma sweep_file_deletes (now : Z) (S U : gset string) (st : state) (name : string) :
  sweep_file now S U st name =
  if deletes now S U st name
  then set_jobs (delete (path_parse_name name)) (set_fs (delete name) st)
  else st.
Proof.
  unfold sweep_file, deletes.
  destruct (decide (name ∈ S)) as [HS|HS].
  - destruct (fs st !! name); [|done].
    rewrite (bool_decide_eq_false_2 _) by tauto. by rewrite andb_false_r.
  - destruct (fs st !! name) as [f|]; [|done].
    rewrite (bool_decide_eq_true_2 _ HS), andb_true_r.
    destruct (expired now f); [|done]. cbn.
    destruct (decide (name ∈ U)) as [HU|HU].
    + by rewrite (bool_decide_eq_false_2 _) by tauto.
    + by rewrite (bool_decide_eq_true_2 _ HU).
Qed.

Section sweep_pass.
Variables (now : Z) (S U : gset string).

(** Some entry of [names] is removed from [st] and parses to [x]. *)
Let hits (st : state) (names : list string) (x : string) : Prop :=
  Exists (λ n, deletes now S U st n = true ∧ path_parse_name n = x) names.

Lemma sweep_fold (names : list string) (st : state) :
  NoDup names →
  let st' := foldl (sweep_file now S U) st names in
  (∀ n, n ∈ names → deletes now S U st n = true → fs st' !! n = None) ∧
  (∀ n, ¬ (n ∈ names ∧ deletes now S U st n = true) → fs st' !! n = fs st !! n) ∧
  (∀ x, hits st names x → jobs st' !! x = None) ∧
  (∀ x, ¬ hits st names x → jobs st' !! x = jobs st !! x) ∧
  heap st' = heap st ∧ intervals st' = intervals st ∧ tasks st' = tasks st ∧
  transfers st' = transfers st ∧ timeouts st' = timeouts st ∧ next st' = next st.
Proof.
  intros Hnd. revert st. induction Hnd as [|a names Ha Hnd IH]; intros st.
  { cbn. split; [by intros n Hn%elem_of_nil|]. split; [done|].
    split; [|done]. by intros x Hx%Exists_nil. }
  cbn [foldl]. set (st1 := sweep_file now S U st a).
  assert (Hfs1 : ∀ n, n ≠ a → fs st1 !! n = fs st !! n).
  { intros n Hne. unfold st1. rewrite sweep_file_deletes.
    destruct (deletes now S U st a); [cbn; by rewrite lookup_delete_ne | done]. }
  assert (Hsw : ∀ n, n ≠ a → deletes now S U st1 n = deletes now S U st n).
  { intros n Hne. unfold deletes. by rewrite Hfs1. }
  assert (Hne : ∀ n, n ∈ names → n ≠ a) by (by intros n Hn ->).
  assert (Hhits : ∀ x, hits st1 names x ↔ hits st names x).
  { intros x. unfold hits. rewrite !Exists_exists.
    split; intros (n & Hn & Hs & Hx); exists n.
    - by rewrite <- Hsw by auto.
    - by rewrite Hsw by auto. }
  assert (Hcons : ∀ x, hits st (a :: names) x ↔
            (deletes now S U st a = true ∧ path_parse_name a = x) ∨ hits st1 names x).
  { intros x. rewrite Hhits. unfold hits. by rewrite Exists_cons. }
  destruct (IH st1) as (IHdel & IHkeep & IHjdel & IHjkeep & IHrest).
  assert (Hst1 : st1 = if deletes now S U st a
                       then set_jobs (delete (path_parse_name a)) (set_fs (delete a) st)
                       else st).
  { unfold st1. by rewrite sweep_file_deletes. }
  split; [|split; [|split; [|split]]].
  - intros n [->|Hn]%elem_of_cons Hs.
    + rewrite IHkeep by (by intros [? _]). rewrite Hst1, Hs. cbn. apply lookup_delete_eq.
    + apply IHdel; [done|]. by rewrite Hsw by auto.
  - intros n Hn. destruct (decide (n = a)) as [->|Hna].
    + rewrite IHkeep by (by intros [? _]). rewrite Hst1.
      destruct (deletes now S U st a); [|done].
      exfalso. apply Hn. split; [apply list_elem_of_here | done].
    + rewrite IHkeep, Hfs1; [done..|]. intros [Hin Hs]. apply Hn.
      split; [by apply list_elem_of_further|]. by rewrite <- Hsw.
  - intros x [[Hs Hx]|Hh]%Hcons; [|by apply IHjdel].
    destruct (decide (hits st1 names x)) as [Hh|Hh]; [by apply IHjdel|].
    rewrite IHjkeep by done. rewrite Hst1, Hs, <- Hx. cbn. apply lookup_delete_eq.
  - intros x Hx. rewrite Hcons in Hx.
    rewrite IHjkeep by (intros ?; apply Hx; by right). rewrite Hst1.
    destruct (deletes now S U st a); [|done]. cbn.
    apply lookup_delete_ne. intros Heq. apply Hx. by left.
  - destruct IHrest as (-> & -> & -> & -> & -> & ->).
    rewrite Hst1. by destruct (deletes now S U st a).
Qed.
End sweep_pass.

Lemma elem_of_readdirSync (st : state) (name : string) :
  name ∈ readdirSync st ↔ is_Some (fs st !! name).
Proof.
  unfold readdirSync. rewrite list_elem_of_fmap. split.
  - intros ([n f] & -> & Hin). apply elem_of_map_to_list in Hin. by exists f.
  - intros [f Hf]. exists (name, f). split; [done|]. by apply elem_of_map_to_list.
Qed.

Lemma deletes_readdirSync (now : Z) (S U : gset string) (st : state) (name : string) :
  deletes now S U st name = true → name ∈ readdirSync st.
Proof.
  unfold deletes. intros H. apply elem_of_readdirSync.
  by destruct (fs st !! name).
Qed.

Lemma deletes_iff (now : Z) (S U : gset string) (st : state) (name : string) :
  deletes now S U st name = true ↔
  ∃ f, fs st !! name = Some f ∧ (3600000 < inject_Z now - mtimeMs f)%Q ∧
       (name ∉ S) ∧ (name ∉ U).
Proof.
  unfold deletes. split.
  - destruct (fs st !! name) as [f|]; [|done].
    rewrite !andb_true_iff, !bool_decide_eq_true, expired_iff.
    intros [[? ?] ?]. by exists f.
  - intros (f & -> & ? & ? & ?).
    rewrite !andb_true_iff, !bool_decide_eq_true, expired_iff. done.
Qed.

(** What one pass of the sweeper does to directory and registry. *)
Lemma sweep_effect (now : Z) (S U : gset string) (st : state) :
  let st' := sweep now S U st in
  (∀ name, deletes now S U st name = true → fs st' !! name = None) ∧
  (∀ name, deletes now S U st name = false → fs st' !! name = fs st !! name) ∧
  (∀ name f, fs st !! name = Some f → ¬ (3600000 < inject_Z now - mtimeMs f)%Q →
     fs st' !! name = Some f) ∧
  (∀ x, (∃ name, deletes now S U st name = true ∧ path_parse_name name = x) →
     jobs st' !! x = None) ∧
  (∀ x, (∀ name, deletes now S U st name = true → path_parse_name name ≠ x) →
     jobs st' !! x = jobs st !! x) ∧
  (∀ jobId, jobId ≠ "" → deletes now S U st (artifact jobId) = true →
     jobs st' !! jobId = None) ∧
  heap st' = heap st ∧ intervals st' = intervals st ∧ tasks st' = tasks st ∧
  transfers st' = transfers st ∧ timeouts st' = timeouts st.
Proof.
  intros st'.
  destruct (sweep_fold now S U (readdirSync st) st (NoDup_fst_map_to_list _))
    as (Hdel & Hkeep & Hjdel & Hjkeep & Hh & Hi & Ht & Htr & Hto & _).
  fold (sweep now S U st) in *. fold st' in Hdel, Hkeep, Hjdel, Hjkeep, Hh, Hi, Ht, Htr, Hto.
  assert (Hjdel' : ∀ x, (∃ name, deletes now S U st name = true ∧ path_parse_name name = x) →
                        jobs st' !! x = None).
  { intros x (name & Hs & Hx). apply Hjdel, Exists_exists. exists name.
    eauto using deletes_readdirSync. }
  split; [|split; [|split; [|split; [|split; [|split]]]]]; try done.
  - intros name Hs. apply Hdel; [by eapply deletes_readdirSync | done].
  - intros name Hs. apply Hkeep. intros [_ ?]. congruence.
  - intros name f Hf Hyoung. rewrite Hkeep; [done|].
    intros [_ (f' & Hf' & Hold & _)%deletes_iff]. by simplify_eq.
  - intros x Hx. apply Hjkeep. intros (name & Hin & Hs & Heq)%Exists_exists.
    by eapply Hx.
  - intros jobId Hne Hs. apply Hjdel'. exists (artifact jobId).
    by rewrite path_parse_name_artifact.
Qed.

(** ** The invariant is kept by every step *)

Ltac look :=
  repeat first
    [ progress (rewrite ?lookup_insert, ?lookup_alter, ?lookup_delete in * )
    | case_decide
    | progress simplify_eq/= ].

Lemma Qfloor_min_90 (q : Q) : (Qfloor (Qmin 90 q) ≤ 90)%Z.
Proof.
  change 90 with (Qfloor 90) at 2. apply Qfloor_resp_le, Q.le_min_l.
Qed.

Lemma toString_nonempty (n : Z) : toString n ≠ "".
Proof.
  assert (HN : ∀ x : N, pretty x ≠ "").
  { intros x. unfold pretty, pretty_N. destruct (decide (x = 0%N)) as [->|Hx]; [done|].
    assert (Hgo : ∀ y s, s ≠ "" → pretty_N_go y s ≠ "").
    { intros y. induction (N.lt_wf_0 y) as [y _ IH]. intros s Hs.
      destruct (decide (y = 0%N)) as [->|Hy]; [by rewrite pretty_N_go_0|].
      rewrite pretty_N_go_step by lia. apply IH; [|done].
      apply N.div_lt; lia. }
    rewrite pretty_N_go_step by lia. by apply Hgo. }
  unfold toString, pretty, pretty_Z. destruct n; [done|apply HN|done].
Qed.

Lemma wf_init (files : gmap string file) : wf (init files).
Proof. split; cbn; intros; look; done. Qed.

Lemma evolves_refl (j : job) : evolves j j.
Proof. done. Qed.

Lemma heap_evolves_refl (st st' : state) : heap st' = heap st → heap_evolves st st'.
Proof. intros Hh l j Hj. exists j. by rewrite Hh. Qed.

Lemma heap_evolves_trans (st1 st2 st3 : state) :
  heap_evolves st1 st2 → heap_evolves st2 st3 → heap_evolves st1 st3.
Proof.
  intros H12 H23 l j Hj.
  destruct (H12 _ _ Hj) as (j2 & Hj2 & Hid2 & Ht2).
  destruct (H23 _ _ Hj2) as (j3 & Hj3 & Hid3 & Ht3).
  exists j3. split; [done|]. split; [congruence|].
  intros Ht. specialize (Ht2 Ht). subst j2. auto.
Qed.

Section primitives.
Variable st : state.
Hypothesis Hwf : wf st.

(** Steps that leave job objects, intervals and chains alone, allocate at
    most, and only remove registry entries. *)
Lemma wf_frame (st' : state) :
  heap st' = heap st → intervals st' = intervals st → tasks st' = tasks st →
  (next st ≤ next st')%nat →
  (∀ x l, jobs st' !! x = Some l → jobs st !! x = Some l) →
  wf st'.
Proof.
  destruct Hwf as [Hhf Hif Hreg Hh Hiv Htk Htj Hinj Hpr Hid].
  intros Eh Ei Et Hn Hj. split; rewrite ?Eh, ?Ei, ?Et; eauto.
  - intros l j Hl. specialize (Hhf _ _ Hl). lia.
  - intros t iv Ht. specialize (Hif _ _ Ht). lia.
  - intros l j t Hl Hp. destruct (Hh _ _ _ Hl Hp). split; [lia | done].
Qed.

(** [jobs.set(x, job)] for a job object whose id is [x]. *)
Lemma wf_jobs_set (x : string) (l : ref) (j : job) :
  heap st !! l = Some j → job_id j = x → wf (set_jobs <[x := l]> st).
Proof.
  destruct Hwf as [Hhf Hif Hreg Hh Hiv Htk Htj Hinj Hpr Hid].
  intros Hl Hx. split; cbn; eauto.
  intros y l' Hy. look; eauto.
Qed.

(** A property write that keeps id and handle, and status unless the job
    has neither a live interval nor an unsettled chain. *)
Lemma wf_write (l : ref) (j : job) (f : job → job) :
  heap st !! l = Some j →
  job_id (f j) = job_id j →
  job_progressIntervalId (f j) = job_progressIntervalId j →
  progress_ok (f j) →
  (job_status (f j) = Processing ∨
   (job_progressIntervalId j = None ∧
    ∀ k tk, tasks st !! k = Some tk → t_job tk = Some l → t_phase tk = Settled)) →
  wf (write l f st).
Proof.
  destruct Hwf as [Hhf Hif Hreg Hh Hiv Htk Htj Hinj Hpr Hid].
  intros Hl Hfid Hfp Hfok Hst.
  assert (Hlk : ∀ l', heap (write l f st) !! l' =
                      if decide (l = l') then Some (f j) else heap st !! l').
  { intros l'. cbn. rewrite lookup_alter. case_decide; [subst; by rewrite Hl | done]. }
  split; try (cbn; by eauto).
  - intros l' j'. rewrite Hlk. case_decide; [subst; eauto | eauto].
  - intros x l' Hx. destruct (Hreg _ _ Hx) as (j' & Hj' & Hid').
    rewrite Hlk. case_decide; [|eauto]. simplify_eq. eauto.
  - intros l' j' t. rewrite Hlk. case_decide; [|by eauto].
    intros [= <-]. rewrite Hfp. subst. eauto.
  - intros t iv Ht. destruct (Hiv _ _ Ht) as (j' & Hj' & Hs' & Hp' & Hid').
    rewrite Hlk. case_decide; [|by eauto].
    assert (j' = j) as -> by congruence.
    exists (f j). rewrite Hfid, Hfp.
    destruct Hst as [Hs|[Hnone _]]; [done | congruence].
  - intros k tk Hk Hph.
    destruct (Htk _ _ Hk Hph) as (l' & j' & t & Hjob & Hj' & Hs' & Hid' & Hp' & Hlive).
    exists l'. rewrite Hlk. case_decide.
    + assert (j' = j) as -> by congruence.
      exists (f j), t. rewrite Hfid, Hfp.
      destruct Hst as [Hs|[_ Hset]]; [done|]. subst l'. by specialize (Hset _ _ Hk Hjob).
    + by exists j', t.
  - intros k tk l' Hk Hjob. rewrite Hlk. case_decide; [done | eauto].
  - intros l' j'. rewrite Hlk. case_decide; [by intros [= <-] | eauto].
  - intros l' j'. rewrite Hlk. case_decide; [|by eauto].
    intros [= <-]. rewrite Hfid. eauto.
Qed.

Lemma heap_evolves_write (l : ref) (f : job → job) :
  (∀ j, heap st !! l = Some j →
        job_id (f j) = job_id j ∧ job_status j = Processing) →
  heap_evolves st (write l f st).
Proof.
  intros Hf l' j' Hj'. cbn. rewrite lookup_alter. case_decide.
  - subst. rewrite Hj'. cbn. destruct (Hf _ Hj') as [Hid' Hs].
    exists (f j'). split; [done|]. split; [done|]. by rewrite Hs.
  - by exists j'.
Qed.

(** The callback of a timer stores its new local [progress]. *)
Lemma wf_interval_progress (t : ref) (iv : interval) (p : Q) :
  intervals st !! t = Some iv →
  wf (set_intervals <[t := Interval (iv_job iv) (iv_jobId iv) p]> st).
Proof.
  destruct Hwf as [Hhf Hif Hreg Hh Hiv Htk Htj Hinj Hpr Hid].
  intros Ht. split; try (cbn; by eauto).
  - intros t' iv' H'. cbn in *. look; eauto.
  - intros l j t' Hl Hp. destruct (Hh _ _ _ Hl Hp) as [Hlt Hown].
    split; [done|]. intros iv' H'. cbn in *. look; eauto.
  - intros t' iv' H'. cbn in *. look; eauto.
  - intros k tk Hk Hph.
    destruct (Htk _ _ Hk Hph) as (l' & j' & t' & Hjob & Hj' & Hs' & Hid' & Hp' & Hlive).
    exists l', j', t'. repeat split; try done. cbn. rewrite lookup_insert.
    case_decide; [done | by destruct Hlive].
Qed.

Lemma lookup_set_phase (k : ref) (p : phase) (k' : ref) (tk' : task) :
  tasks (set_phase k p st) !! k' = Some tk' →
  ∃ tk, tasks st !! k' = Some tk ∧ t_job tk' = t_job tk ∧ t_jobId tk' = t_jobId tk ∧
        (t_phase tk' = t_phase tk ∨ (k' = k ∧ t_phase tk' = p)).
Proof.
  cbn. rewrite lookup_alter. case_decide; [|by eauto 10].
  subst. destruct (tasks st !! k') as [tk|]; [|done]. cbn. intros [= <-]. cbn.
  exists tk. eauto 10.
Qed.

(** Moving chain [k] on, to [Settled] or, from a phase that was not
    settled, anywhere. *)
Lemma wf_set_phase (k : ref) (p : phase) :
  (∀ tk, tasks st !! k = Some tk → p = Settled ∨ t_phase tk ≠ Settled) →
  wf (set_phase k p st).
Proof.
  destruct Hwf as [Hhf Hif Hreg Hh Hiv Htk Htj Hinj Hpr Hid].
  intros Hp. split; try (cbn; by eauto).
  - intros k' tk' (tk & Hk & Hjob & Hjid & Hph)%lookup_set_phase Hne.
    rewrite Hjob, Hjid. change (heap (set_phase k p st)) with (heap st).
    change (intervals (set_phase k p st)) with (intervals st).
    apply (Htk _ _ Hk). destruct Hph as [<-|[-> Hph]]; [done|].
    destruct (Hp _ Hk) as [->|?]; [done | done].
  - intros k' tk' l (tk & Hk & Hjob & _)%lookup_set_phase. rewrite Hjob.
    apply (Htj _ _ _ Hk).
  - intros k1 k2 tk1 tk2 l (tk1' & H1 & -> & _)%lookup_set_phase
      (tk2' & H2 & -> & _)%lookup_set_phase. eauto.
Qed.

(** [clearInterval(job.progressIntervalId); delete job.progressIntervalId]
    once no unsettled chain depends on the job. *)
Lemma wf_clear (l : ref) :
  (∀ k tk, tasks st !! k = Some tk → t_job tk = Some l → t_phase tk = Settled) →
  wf (clear_progress_interval l st).
Proof.
  destruct Hwf as [Hhf Hif Hreg Hh Hiv Htk Htj Hinj Hpr Hid].
  intros Hset. unfold clear_progress_interval.
  destruct (heap st !! l) as [j|] eqn:Hl; [|done].
  destruct (job_progressIntervalId j) as [t|] eqn:Hp; [|done].
  set (st' := write l _ _).
  assert (Hlk : ∀ l', heap st' !! l' =
             if decide (l = l') then Some (with_progressIntervalId None j)
             else heap st !! l').
  { intros l'. cbn. rewrite lookup_alter. case_decide; [subst; by rewrite Hl | done]. }
  assert (Hiv' : ∀ t' iv, intervals st' !! t' = Some iv →
             t' ≠ t ∧ intervals st !! t' = Some iv ∧ iv_job iv ≠ l).
  { intros t' iv. cbn. rewrite lookup_delete. case_decide; [done|]. intros Ht'.
    repeat split; [congruence | done |]. intros Heq.
    destruct (Hiv _ _ Ht') as (j' & Hj' & _ & Hp' & _). congruence. }
  split; try (cbn; by eauto).
  - intros l' j'. rewrite Hlk. case_decide; [subst; eauto | eauto].
  - intros t' iv (_ & Ht' & _)%Hiv'. eauto.
  - intros x l' Hx. destruct (Hreg _ _ Hx) as (j' & Hj' & Hid').
    rewrite Hlk. case_decide; [|eauto]. assert (j' = j) as -> by congruence. eauto.
  - intros l' j' t'. rewrite Hlk. case_decide; [by intros [= <-]|].
    intros Hl' Hp'. destruct (Hh _ _ _ Hl' Hp') as [Hlt Hown].
    split; [done|]. intros iv (_ & Ht' & _)%Hiv'. eauto.
  - intros t' iv (Hne & Ht' & Hjob)%Hiv'. rewrite Hlk.
    case_decide; [congruence | eauto].
  - intros k tk Hk Hph.
    destruct (Htk _ _ Hk Hph) as (l' & j' & t' & Hjob & Hj' & Hs' & Hid' & Hp' & Hlive).
    assert (l ≠ l') as Hne.
    { intros ->. specialize (Hset _ _ Hk Hjob). done. }
    exists l', j', t'. rewrite Hlk, decide_False by done.
    repeat split; try done. cbn. rewrite lookup_delete_ne; [done|].
    intros <-. destruct Hlive as [iv Hlive].
    destruct (Hh _ _ _ Hl Hp) as [_ Hown]. destruct (Hh _ _ _ Hj' Hp') as [_ Hown'].
    specialize (Hown _ Hlive). specialize (Hown' _ Hlive). congruence.
  - intros k tk l' Hk Hjob. rewrite Hlk. case_decide; [done | eauto].
  - intros l' j'. rewrite Hlk. case_decide; [|eauto].
    intros [= <-]. by apply (Hpr _ _ Hl).
  - intros l' j'. rewrite Hlk. case_decide; [|eauto].
    intros [= <-]. by apply (Hid _ _ Hl).
Qed.

Lemma heap_evolves_clear (l : ref) :
  (∀ j, heap st !! l = Some j → job_status j = Processing) →
  heap_evolves st (clear_progress_interval l st).
Proof.
  intros Hs. unfold clear_progress_interval.
  destruct (heap st !! l) as [j|] eqn:Hl; [|by apply heap_evolves_refl].
  destruct (job_progressIntervalId j) as [t|]; [|by apply heap_evolves_refl].
  intros l' j' Hj'. cbn. rewrite lookup_alter. case_decide; [|by exists j'].
  subst. rewrite Hj'. cbn. eexists. split; [done|]. split; [done|].
  assert (j' = j) as -> by congruence. by rewrite (Hs _ eq_refl).
Qed.

(** After the interval of [l] is cleared, no live interval refers to it. *)
Lemma clear_no_interval (l : ref) (t : ref) (iv : interval) :
  is_Some (heap st !! l) →
  intervals (clear_progress_interval l st) !! t = Some iv → iv_job iv ≠ l.
Proof.
  destruct Hwf as [Hhf Hif Hreg Hh Hiv Htk Htj Hinj Hpr Hid].
  intros [j Hl]. unfold clear_progress_interval. rewrite Hl.
  destruct (job_progressIntervalId j) as [t0|] eqn:Hp; cbn.
  - rewrite lookup_delete. case_decide; [done|]. intros Ht Heq.
    destruct (Hiv _ _ Ht) as (j' & Hj' & _ & Hp' & _). congruence.
  - intros Ht Heq. destruct (Hiv _ _ Ht) as (j' & Hj' & _ & Hp' & _). congruence.
Qed.

(** A new job object. *)
Lemma wf_alloc (j0 : job) :
  job_progressIntervalId j0 = None → progress_ok j0 → job_id j0 ≠ "" →
  wf (bump (set_heap <[next st := j0]> st)).
Proof.
  destruct Hwf as [Hhf Hif Hreg Hh Hiv Htk Htj Hinj Hpr Hid].
  intros Hp0 Hok0 Hid0.
  assert (Hold : ∀ l j, heap st !! l = Some j → next st ≠ l).
  { intros l j Hl <-. specialize (Hhf _ _ Hl). lia. }
  assert (Hlk : ∀ l j, heap st !! l = Some j → <[next st := j0]> (heap st) !! l = Some j).
  { intros l j Hl. rewrite lookup_insert_ne; eauto. }
  split; cbn.
  - intros l j. rewrite lookup_insert. case_decide; [lia|].
    intros Hl. specialize (Hhf _ _ Hl). lia.
  - intros t iv Ht. specialize (Hif _ _ Ht). lia.
  - intros x l Hx. destruct (Hreg _ _ Hx) as (j & Hj & Hjid). eauto.
  - intros l j t. rewrite lookup_insert. case_decide; [intros [= <-]; congruence|].
    intros Hl Hp. destruct (Hh _ _ _ Hl Hp). split; [lia | done].
  - intros t iv Ht. destruct (Hiv _ _ Ht) as (j & Hj & ?). eauto.
  - intros k tk Hk Hph.
    destruct (Htk _ _ Hk Hph) as (l' & j' & t' & Hjob & Hj' & Hrest).
    exists l', j', t'. eauto.
  - intros k tk l Hk Hjob. destruct (Htj _ _ _ Hk Hjob) as [j Hj]. eauto.
  - eauto.
  - intros l j. rewrite lookup_insert. case_decide; [by intros [= <-] | eauto].
  - intros l j. rewrite lookup_insert. case_decide; [by intros [= <-] | eauto].
Qed.

(** [job.progressIntervalId = setInterval(...)] for a job without one. *)
Lemma wf_start_interval (l : ref) (j : job) (p : Q) :
  heap st !! l = Some j → job_status j = Processing →
  job_progressIntervalId j = None →
  wf (bump (set_intervals <[next st := Interval l (job_id j) p]>
             (write l (with_progressIntervalId (Some (next st))) st))).
Proof.
  destruct Hwf as [Hhf Hif Hreg Hh Hiv Htk Htj Hinj Hpr Hid].
  intros Hl Hs Hp.
  set (st' := bump _).
  assert (Hlk : ∀ l', heap st' !! l' =
             if decide (l = l') then Some (with_progressIntervalId (Some (next st)) j)
             else heap st !! l').
  { intros l'. cbn. rewrite lookup_alter. case_decide; [subst; by rewrite Hl | done]. }
  assert (Hiv' : ∀ t iv, intervals st' !! t = Some iv →
             (t = next st ∧ iv = Interval l (job_id j) p) ∨
             (t ≠ next st ∧ intervals st !! t = Some iv)).
  { intros t iv. cbn. rewrite lookup_insert. case_decide; [|by right].
    intros [= <-]. by left. }
  assert (Hfresh : ∀ t iv, intervals st !! t = Some iv → t ≠ next st).
  { intros t iv Ht ->. specialize (Hif _ _ Ht). lia. }
  split.
  - intros l' j'. rewrite Hlk. cbn. case_decide.
    + subst. intros _. specialize (Hhf _ _ Hl). lia.
    + intros Hl'. specialize (Hhf _ _ Hl'). lia.
  - intros t iv [[-> _]|[_ Ht]]%Hiv'; cbn; [lia|]. specialize (Hif _ _ Ht). lia.
  - intros x l' Hx. destruct (Hreg _ _ Hx) as (j' & Hj' & Hid').
    rewrite Hlk. case_decide; [|eauto]. assert (j' = j) as -> by congruence. eauto.
  - intros l' j' t. rewrite Hlk. case_decide.
    + intros [= <-] [= <-]. subst l'. split; [cbn; lia|].
      intros iv [[_ ->]|[? _]]%Hiv'; done.
    + intros Hl' Hp'. destruct (Hh _ _ _ Hl' Hp') as [Hlt Hown]. split; [cbn; lia|].
      intros iv [[-> _]|[_ Ht]]%Hiv'; [lia | eauto].
  - intros t iv [[-> ->]|[Hne Ht]]%Hiv'.
    + cbn [iv_job iv_jobId]. rewrite Hlk, decide_True by done. eauto.
    + destruct (Hiv _ _ Ht) as (j' & Hj' & Hs' & Hp' & Hid').
      rewrite Hlk. case_decide; [congruence | eauto].
  - intros k tk Hk Hph.
    destruct (Htk _ _ Hk Hph) as (l' & j' & t' & Hjob & Hj' & Hs' & Hid' & Hp' & Hlive).
    assert (l ≠ l') as Hne by congruence.
    exists l', j', t'. rewrite Hlk, decide_False by done.
    repeat split; try done. cbn. destruct Hlive as [iv Hlive].
    rewrite lookup_insert_ne; [done|]. intros Heq. by eapply Hfresh.
  - intros k tk l' Hk Hjob. rewrite Hlk. case_decide; [done|]. eapply Htj; eauto.
  - apply Hinj.
  - intros l' j'. rewrite Hlk. case_decide; [|eauto].
    intros [= <-]. by apply (Hpr _ _ Hl).
  - intros l' j'. rewrite Hlk. case_decide; [|eauto].
    intros [= <-]. by apply (Hid _ _ Hl).
Qed.

(** The promise chain of a job that has none yet. *)
Lemma wf_spawn (l t : ref) (j : job) (url quality : jsval) :
  heap st !! l = Some j → job_status j = Processing →
  job_progressIntervalId j = Some t → is_Some (intervals st !! t) →
  (∀ k tk, tasks st !! k = Some tk → t_job tk ≠ Some l) →
  wf (bump (set_tasks <[next st := Task (Some l) (job_id j) url quality AwaitInfo]> st)).
Proof.
  destruct Hwf as [Hhf Hif Hreg Hh Hiv Htk Htj Hinj Hpr Hid].
  intros Hl Hs Hp Hlive Hnone. split; cbn; eauto.
  - intros l' j' Hl'. specialize (Hhf _ _ Hl'). lia.
  - intros t' iv Ht. specialize (Hif _ _ Ht). lia.
  - intros l' j' t' Hl' Hp'. destruct (Hh _ _ _ Hl' Hp'). split; [lia | done].
  - intros k tk. rewrite lookup_insert. case_decide; [|by eauto].
    intros [= <-] _. cbn. exists l, j, t. done.
  - intros k tk l'. rewrite lookup_insert. case_decide; [|by eauto].
    intros [= <-] [= <-]. eauto.
  - intros k k' tk tk' l'. rewrite !lookup_insert.
    repeat case_decide; try congruence.
    + intros [= <-] Hk' [= <-] Hjob. by destruct (Hnone _ _ Hk').
    + intros Hk [= <-] Hjob [= <-]. by destruct (Hnone _ _ Hk).
    + eauto.
Qed.
End primitives.
(** *** The handlers *)

Lemma tick_live (t : ref) (r : Q) (st : state) (iv : interval) :
  wf st → intervals st !! t = Some iv →
  ∃ j, heap st !! iv_job iv = Some j ∧ job_status j = Processing ∧
       job_id j = iv_jobId iv ∧
       tick t r st =
         if negb (Qle_bool 90 (iv_progress iv)) then
           let p := Qmin 90 (iv_progress iv + r * 5) in
           set_jobs <[iv_jobId iv := iv_job iv]>
             (write (iv_job iv) (with_progress (Qfloor p))
               (set_intervals <[t := Interval (iv_job iv) (iv_jobId iv) p]> st))
         else st.
Proof.
  intros Hwf Ht. destruct (wf_interval _ Hwf _ _ Ht) as (j & Hj & Hs & Hp & Hid).
  exists j. repeat split; try done. unfold tick. by rewrite Ht, Hj, Hs.
Qed.

Lemma wf_tick (t : ref) (r : Q) (st : state) : wf st → wf (tick t r st).
Proof.
  intros Hwf. destruct (intervals st !! t) as [iv|] eqn:Ht;
    [|by unfold tick; rewrite Ht].
  destruct (tick_live t r st iv Hwf Ht) as (j & Hj & Hs & Hid & ->).
  destruct (negb _); [|done]. cbn zeta.
  set (p := Qmin 90 _).
  pose proof (wf_interval_progress st Hwf t iv p Ht) as Hwf1.
  set (st1 := set_intervals _ st) in *.
  assert (Hwf2 : wf (write (iv_job iv) (with_progress (Qfloor p)) st1)).
  { apply (wf_write st1 Hwf1 _ j); try done.
    - unfold progress_ok. cbn. rewrite Hs. apply Qfloor_min_90.
    - by left. }
  eapply (wf_jobs_set _ Hwf2).
  - cbn. rewrite lookup_alter_eq, Hj. reflexivity.
  - exact Hid.
Qed.

Lemma heap_evolves_tick (t : ref) (r : Q) (st : state) :
  wf st → heap_evolves st (tick t r st).
Proof.
  intros Hwf. destruct (intervals st !! t) as [iv|] eqn:Ht;
    [|unfold tick; rewrite Ht; by apply heap_evolves_refl].
  destruct (tick_live t r st iv Hwf Ht) as (j & Hj & Hs & Hid & ->).
  destruct (negb _); [|by apply heap_evolves_refl]. cbn zeta.
  intros l' j' Hj'. cbn. rewrite lookup_alter. case_decide; [|by exists j'].
  subst. assert (j' = j) as -> by congruence. rewrite Hj. cbn.
  eexists. split; [done|]. split; [done|]. by rewrite Hs.
Qed.
Lemma wf_set_fs (g : gmap string file → gmap string file) (st : state) :
  wf st → wf (set_fs g st).
Proof. intros Hwf. by apply (wf_frame st Hwf). Qed.

Lemma wf_info_resolved (k : ref) (title : option string) (st : state) :
  wf st → wf (info_resolved k title st).
Proof.
  intros Hwf. unfold info_resolved.
  destruct (tasks st !! k) as [tk|] eqn:Hk; [|done].
  destruct (t_phase tk) eqn:Hph; try done.
  destruct (wf_task _ Hwf _ _ Hk) as (l & j & t & Hjob & Hj & Hs & Hid & Hp & Hlive);
    [by rewrite Hph|].
  assert (Hphase : ∀ st', tasks st' = tasks st → wf st' → wf (set_phase k AwaitAudio st')).
  { intros st' Ht Hwf'. apply wf_set_phase; [done|].
    intros tk'. rewrite Ht, Hk. intros [= <-]. right. by rewrite Hph. }
  destruct (title_given title) as [s|]; [|by apply Hphase].
  apply Hphase; [by unfold when_job; rewrite Hjob|].
  unfold when_job. rewrite Hjob.
  set (f := λ j, with_progress 20 _).
  assert (Hwf1 : wf (write l f st)).
  { apply (wf_write st Hwf l j); try done. by left. }
  eapply (wf_jobs_set _ Hwf1).
  - cbn. rewrite lookup_alter_eq, Hj. reflexivity.
  - exact Hid.
Qed.

Lemma heap_evolves_info_resolved (k : ref) (title : option string) (st : state) :
  wf st → heap_evolves st (info_resolved k title st).
Proof.
  intros Hwf. unfold info_resolved.
  destruct (tasks st !! k) as [tk|] eqn:Hk; [|by apply heap_evolves_refl].
  destruct (t_phase tk) eqn:Hph; try by apply heap_evolves_refl.
  destruct (wf_task _ Hwf _ _ Hk) as (l & j & t & Hjob & Hj & Hs & Hid & Hp & Hlive);
    [by rewrite Hph|].
  destruct (title_given title) as [s|]; [|by apply heap_evolves_refl].
  unfold when_job. rewrite Hjob.
  apply (heap_evolves_trans _ (write l (λ j, with_progress 20 (with_status Processing
           (with_title (replace_non_word_space s) j))) st)); [|by apply heap_evolves_refl].
  apply heap_evolves_write. intros j' Hj'. by assert (j' = j) as -> by congruence.
Qed.

(** A terminal transition of chain [k]: the interval of its job is cleared,
    the job is rewritten by [f], stored again, and the chain is settled. *)
Lemma wf_settle (k l t : ref) (tk : task) (j : job) (f : job → job) (st : state) :
  wf st → tasks st !! k = Some tk → t_job tk = Some l →
  heap st !! l = Some j → job_progressIntervalId j = Some t →
  (∀ j', job_id (f j') = job_id j' ∧
         job_progressIntervalId (f j') = job_progressIntervalId j') →
  progress_ok (f (with_progressIntervalId None j)) →
  wf (set_phase k Settled (set_jobs <[job_id j := l]>
       (write l f (write l (with_progressIntervalId None)
         (set_intervals (delete t) st))))).
Proof.
  intros Hwf Hk Hjob Hj Hp Hf Hok.
  assert (Hwf1 : wf (set_phase k Settled st)) by (apply wf_set_phase; auto).
  set (st1 := set_phase k Settled st) in *.
  assert (Hsettled : ∀ k' tk', tasks st1 !! k' = Some tk' → t_job tk' = Some l →
                               t_phase tk' = Settled).
  { intros k' tk' Hk' Hjob'.
    destruct (lookup_set_phase st k Settled k' tk' Hk')
      as (tk0 & Hk0 & Hjob0 & _ & Hph0).
    assert (k' = k) as ->.
    { eapply (wf_task_inj _ Hwf); eauto. congruence. }
    destruct Hph0 as [Hph0|[_ ?]]; [|done].
    revert Hk'. unfold st1. cbn. rewrite lookup_alter_eq, Hk. cbn. by intros [= <-]. }
  pose proof (wf_clear st1 Hwf1 l Hsettled) as Hwf2.
  unfold clear_progress_interval in Hwf2.
  change (heap st1) with (heap st) in Hwf2. rewrite Hj, Hp in Hwf2.
  set (st2 := write l _ (set_intervals _ st1)) in *.
  assert (Hj2 : heap st2 !! l = Some (with_progressIntervalId None j)).
  { unfold st2. cbn. by rewrite lookup_alter_eq, Hj. }
  assert (Hwf3 : wf (write l f st2)).
  { destruct (Hf (with_progressIntervalId None j)) as [Hfid Hfp].
    apply (wf_write st2 Hwf2 l _ f Hj2); try done. right. split; [done|].
    exact Hsettled. }
  assert (Hwf4 : wf (set_jobs <[job_id j := l]> (write l f st2))).
  { eapply (wf_jobs_set _ Hwf3).
    - change (heap (write l f st2)) with (alter f l (heap st2)).
      rewrite lookup_alter_eq, Hj2. reflexivity.
    - by destruct (Hf (with_progressIntervalId None j)) as [-> _]. }
  exact Hwf4.
Qed.
Section settle.
Variables (k : ref) (tk : task) (f : job → job) (st : state).
Hypothesis Hwf : wf st.
Hypothesis Hk : tasks st !! k = Some tk.
Hypothesis Hph : t_phase tk ≠ Settled.
Hypothesis Hf : ∀ j, job_id (f j) = job_id j ∧
                     job_progressIntervalId (f j) = job_progressIntervalId j.

Let settled : state := set_phase k Settled (when_job tk f (when_job_clear tk st)).

(** What settling does to the job of the chain, and to nothing else. *)
Lemma settle_effect :
  ∃ l j t, t_job tk = Some l ∧ heap st !! l = Some j ∧
    job_status j = Processing ∧ job_id j = t_jobId tk ∧
    job_progressIntervalId j = Some t ∧
    settled = set_phase k Settled (set_jobs <[job_id j := l]>
                (write l f (write l (with_progressIntervalId None)
                  (set_intervals (delete t) st)))) ∧
    heap settled = <[l := f (with_progressIntervalId None j)]> (heap st) ∧
    intervals settled = delete t (intervals st) ∧
    jobs settled = <[t_jobId tk := l]> (jobs st) ∧
    fs settled = fs st ∧ transfers settled = transfers st ∧
    timeouts settled = timeouts st ∧ next settled = next st.
Proof.
  destruct (wf_task _ Hwf _ _ Hk Hph) as (l & j & t & Hjob & Hj & Hs & Hid & Hp & Hlive).
  exists l, j, t. repeat (split; [done|]).
  assert (Heq : settled = set_phase k Settled (set_jobs <[job_id j := l]>
                (write l f (write l (with_progressIntervalId None)
                  (set_intervals (delete t) st))))).
  { unfold settled, when_job, when_job_clear, clear_progress_interval.
    by rewrite Hjob, Hj, Hp, Hid. }
  split; [done|]. rewrite Heq. cbn. rewrite Hid. repeat split.
  apply map_eq. intros l'. rewrite lookup_insert, !lookup_alter.
  repeat case_decide; try done. by rewrite Hj.
Qed.

Lemma wf_settle_task :
  (∀ j, job_status j = Processing → (job_progress j ≤ 90)%Z →
        progress_ok (f (with_progressIntervalId None j))) →
  wf settled.
Proof.
  intros Hok.
  destruct settle_effect as (l & j & t & Hjob & Hj & Hs & Hid & Hp & -> & _).
  apply (wf_settle k l t tk j f st); try done.
  apply Hok; [done|]. pose proof (wf_progress _ Hwf _ _ Hj) as Hpr.
  unfold progress_ok in Hpr. by rewrite Hs in Hpr.
Qed.

Lemma heap_evolves_settle_task : heap_evolves st settled.
Proof.
  destruct settle_effect as (l & j & t & Hjob & Hj & Hs & Hid & Hp & _ & Hh & _).
  intros l' j' Hj'. rewrite Hh, lookup_insert. case_decide; [|by exists j'].
  subst. assert (j' = j) as -> by congruence.
  eexists. split; [done|]. split; [|by rewrite Hs].
  by destruct (Hf (with_progressIntervalId None j)) as [-> _].
Qed.

(** No interval of the settled job survives. *)
Lemma settle_no_interval (t' : ref) (iv : interval) :
  intervals settled !! t' = Some iv → t_job tk ≠ Some (iv_job iv).
Proof.
  destruct settle_effect as (l & j & t & Hjob & Hj & Hs & Hid & Hp & _ & _ & Hi & _).
  rewrite Hi, lookup_delete. case_decide; [done|]. intros Ht' Heq.
  destruct (wf_interval _ Hwf _ _ Ht') as (j' & Hj' & _ & Hp' & _).
  rewrite Hjob in Heq. simplify_eq.
Qed.
End settle.
Lemma wf_audio_resolved (k : ref) (mtime : Q) (st : state) :
  wf st → wf (audio_resolved k mtime st).
Proof.
  intros Hwf. unfold audio_resolved.
  destruct (tasks st !! k) as [tk|] eqn:Hk; [|done].
  destruct (t_phase tk) eqn:Hph; try done.
  apply (wf_settle_task k tk _ (set_fs <[artifact (t_jobId tk) := File mtime]> st));
    [by apply wf_set_fs | done | by rewrite Hph | done | done].
Qed.

Lemma heap_evolves_audio_resolved (k : ref) (mtime : Q) (st : state) :
  wf st → heap_evolves st (audio_resolved k mtime st).
Proof.
  intros Hwf. unfold audio_resolved.
  destruct (tasks st !! k) as [tk|] eqn:Hk; [|by apply heap_evolves_refl].
  destruct (t_phase tk) eqn:Hph; try by apply heap_evolves_refl.
  apply (heap_evolves_settle_task k tk _
           (set_fs <[artifact (t_jobId tk) := File mtime]> st));
    [by apply wf_set_fs | done | by rewrite Hph | done].
Qed.

Lemma on_rejected_cases (k : ref) (tk : task) (msg : string) (u : bool) (st : state) :
  let st3 := set_phase k Settled
               (when_job tk (λ j, with_error msg (with_status Error j))
                 (when_job_clear tk st)) in
  on_rejected k tk msg u st = st3 ∨
  (u = false ∧ on_rejected k tk msg u st = set_fs (delete (artifact (t_jobId tk))) st3).
Proof.
  intros st3. unfold on_rejected. fold st3.
  destruct (fs st3 !! _); [|by left].
  destruct u; cbn; [by left | by right].
Qed.

Lemma wf_on_rejected (k : ref) (tk : task) (msg : string) (u : bool) (st : state) :
  wf st → tasks st !! k = Some tk → t_phase tk ≠ Settled →
  wf (on_rejected k tk msg u st).
Proof.
  intros Hwf Hk Hph.
  assert (Hwf3 : wf (set_phase k Settled
               (when_job tk (λ j, with_error msg (with_status Error j))
                 (when_job_clear tk st)))).
  { by apply wf_settle_task. }
  destruct (on_rejected_cases k tk msg u st) as [->|[_ ->]]; [done|].
  by apply wf_set_fs.
Qed.

Lemma heap_evolves_on_rejected (k : ref) (tk : task) (msg : string) (u : bool)
    (st : state) :
  wf st → tasks st !! k = Some tk → t_phase tk ≠ Settled →
  heap_evolves st (on_rejected k tk msg u st).
Proof.
  intros Hwf Hk Hph.
  pose proof (heap_evolves_settle_task k tk
    (λ j, with_error msg (with_status Error j)) st Hwf Hk Hph) as Hev.
  destruct (on_rejected_cases k tk msg u st) as [->|[_ ->]]; by apply Hev.
Qed.

Lemma wf_info_rejected (k : ref) (msg : string) (u : bool) (st : state) :
  wf st → wf (info_rejected k msg u st).
Proof.
  intros Hwf. unfold info_rejected.
  destruct (tasks st !! k) as [tk|] eqn:Hk; [|done].
  destruct (t_phase tk) eqn:Hph; try done.
  apply wf_on_rejected; [done | done | by rewrite Hph].
Qed.

Lemma heap_evolves_info_rejected (k : ref) (msg : string) (u : bool) (st : state) :
  wf st → heap_evolves st (info_rejected k msg u st).
Proof.
  intros Hwf. unfold info_rejected.
  destruct (tasks st !! k) as [tk|] eqn:Hk; [|by apply heap_evolves_refl].
  destruct (t_phase tk) eqn:Hph; try by apply heap_evolves_refl.
  apply heap_evolves_on_rejected; [done | done | by rewrite Hph].
Qed.

Lemma wf_leave_partial (name : string) (partial : option file) (st : state) :
  wf st → wf (leave_partial name partial st).
Proof. intros Hwf. destruct partial; [by apply wf_set_fs | done]. Qed.

Lemma audio_rejected_eq (k : ref) (msg : string) (partial : option file) (u : bool)
    (st : state) (tk : task) :
  tasks st !! k = Some tk → t_phase tk = AwaitAudio →
  audio_rejected k msg partial u st =
  on_rejected k tk msg u (leave_partial (artifact (t_jobId tk)) partial st).
Proof. intros Hk Hph. unfold audio_rejected. by rewrite Hk, Hph. Qed.

Lemma wf_audio_rejected (k : ref) (msg : string) (partial : option file) (u : bool)
    (st : state) :
  wf st → wf (audio_rejected k msg partial u st).
Proof.
  intros Hwf.
  destruct (tasks st !! k) as [tk|] eqn:Hk; [|by unfold audio_rejected; rewrite Hk].
  destruct (decide (t_phase tk = AwaitAudio)) as [Hph|Hph].
  - rewrite (audio_rejected_eq _ _ _ _ _ tk) by done.
    apply wf_on_rejected; [by apply wf_leave_partial | by destruct partial | by rewrite Hph].
  - unfold audio_rejected. rewrite Hk. by destruct (t_phase tk).
Qed.

Lemma heap_evolves_audio_rejected (k : ref) (msg : string) (partial : option file)
    (u : bool) (st : state) :
  wf st → heap_evolves st (audio_rejected k msg partial u st).
Proof.
  intros Hwf.
  destruct (tasks st !! k) as [tk|] eqn:Hk;
    [|unfold audio_rejected; rewrite Hk; by apply heap_evolves_refl].
  destruct (decide (t_phase tk = AwaitAudio)) as [Hph|Hph].
  - rewrite (audio_rejected_eq _ _ _ _ _ tk) by done.
    apply (heap_evolves_trans _ (leave_partial (artifact (t_jobId tk)) partial st)).
    + apply heap_evolves_refl. by destruct partial.
    + apply heap_evolves_on_rejected;
        [by apply wf_leave_partial | by destruct partial | by rewrite Hph].
  - unfold audio_rejected. rewrite Hk.
    destruct (t_phase tk); try done; by apply heap_evolves_refl.
Qed.
Lemma state_eq (a b : state) :
  jobs a = jobs b → heap a = heap b → intervals a = intervals b →
  tasks a = tasks b → transfers a = transfers b → timeouts a = timeouts b →
  fs a = fs b → next a = next b → a = b.
Proof. destruct a, b. cbn. by intros -> -> -> -> -> -> -> ->. Qed.

(** The state after an accepted [POST /api/convert]: the new job object
    [l], its interval [t] and its chain [k] take the next three handles. *)
Lemma post_convert_accept (now : Z) (url quality : jsval) (st : state) :
  check_url url = Accept →
  let l := next st in
  let t := S l in
  let k := S t in
  let jobId := toString now in
  (post_convert now url quality st).2 =
  State (<[jobId := l]> (jobs st))
        (<[l := Job jobId Processing "Unknown Title" (js_or quality (JStr "192")) 5
                    None (Some t)]> (heap st))
        (<[t := Interval l jobId 5]> (intervals st))
        (<[k := Task (Some l) jobId url quality AwaitInfo]> (tasks st))
        (transfers st) (timeouts st) (fs st) (S k).
Proof.
  intros Hacc. unfold post_convert. rewrite Hacc. cbn [snd].
  unfold processConversion, simulateProgress.
  change (jobs (bump (set_jobs <[toString now := next st]> ?s)))
    with (<[toString now := next st]> (jobs s)).
  rewrite lookup_insert_eq.
  apply state_eq; cbn -[toString]; try done.
  all: try (apply map_eq; intros l'; rewrite !lookup_alter, !lookup_insert;
            repeat case_decide; try done; by rewrite ?lookup_insert_eq).
Qed.

Lemma wf_post_convert (now : Z) (url quality : jsval) (st : state) :
  wf st → wf (post_convert now url quality st).2.
Proof.
  intros Hwf. unfold post_convert.
  destruct (check_url url) eqn:Hacc; try done. cbn [snd].
  set (jobId := toString now). set (l := next st).
  set (j0 := Job jobId Processing "Unknown Title" (js_or quality (JStr "192")) 0 None None).
  assert (HwfA : wf (bump (set_heap <[l := j0]> st))).
  { apply wf_alloc; [done | done | done | apply toString_nonempty]. }
  set (sA := bump _) in HwfA.
  assert (HjA : heap sA !! l = Some j0) by (cbn; by rewrite lookup_insert_eq).
  pose proof (wf_jobs_set sA HwfA jobId l j0 HjA eq_refl) as HwfB.
  set (sB := set_jobs _ sA) in HwfB.
  change (bump (set_jobs <[jobId := l]> (set_heap <[l := j0]> st))) with sB.
  unfold processConversion, simulateProgress.
  assert (Hreg : jobs sB !! jobId = Some l) by (cbn; by rewrite lookup_insert_eq).
  rewrite Hreg.
  assert (HwfC : wf (write l (with_progress 5) sB)).
  { apply (wf_write sB HwfB l j0); try done. by left. }
  set (sC := write l (with_progress 5) sB) in *.
  assert (HjC : heap sC !! l = Some (with_progress 5 j0)).
  { unfold sC. change (heap (write l (with_progress 5) sB))
      with (alter (with_progress 5) l (heap sB)).
    change (heap sB) with (heap sA). by rewrite lookup_alter_eq, HjA. }
  pose proof (wf_start_interval sC HwfC l _ 5 HjC eq_refl eq_refl) as HwfD.
  change (next sB) with (next sC). change (job_id (with_progress 5 j0)) with jobId in HwfD.
  set (sD := bump (set_intervals _ _)) in *.
  assert (HjD : heap sD !! l =
            Some (with_progressIntervalId (Some (next sC)) (with_progress 5 j0))).
  { unfold sD. cbn -[sC]. by rewrite lookup_alter_eq, HjC. }
  apply (wf_spawn sD HwfD l (next sC) _ url quality HjD); try done.
  - unfold sD. cbn -[sC]. rewrite lookup_insert_eq. by eexists.
  - intros k tk Hk Hjob.
    destruct (wf_task_job _ Hwf k tk l Hk Hjob) as [j Hj].
    pose proof (wf_heap_fresh _ Hwf _ _ Hj). unfold l in *. lia.
Qed.

Lemma heap_evolves_post_convert (now : Z) (url quality : jsval) (st : state) :
  wf st → heap_evolves st (post_convert now url quality st).2.
Proof.
  intros Hwf. destruct (check_url url) eqn:Hacc.
  - rewrite post_convert_accept by done. intros l j Hj. cbn.
    exists j. split; [|done]. rewrite lookup_insert_ne; [done|].
    pose proof (wf_heap_fresh _ Hwf _ _ Hj). lia.
  - unfold post_convert. rewrite Hacc. by apply heap_evolves_refl.
  - unfold post_convert. rewrite Hacc. by apply heap_evolves_refl.
Qed.

Lemma wf_get_download (jobId : string) (st : state) :
  wf st → wf (get_download jobId st).2.
Proof.
  intros Hwf. unfold get_download.
  destruct (get_job jobId st) as [j|]; [|done].
  destruct (job_status j); try done.
  destruct (fs st !! artifact jobId); [|done].
  apply (wf_frame st Hwf); cbn; try done. lia.
Qed.

Lemma wf_download_done (d : ref) (err : option string) (st : state) :
  wf st → wf (download_done d err st).
Proof.
  intros Hwf. unfold download_done. destruct (transfers st !! d); [|done].
  apply (wf_frame st Hwf); cbn; try done. lia.
Qed.

Lemma wf_cleanup_fired (c : ref) (u : bool) (st : state) :
  wf st → wf (cleanup_fired c u st).
Proof.
  intros Hwf. unfold cleanup_fired. destruct (timeouts st !! c) as [cl|]; [|done].
  cbn. destruct (fs st !! artifact (cl_jobId cl)); [destruct u|]; cbn;
    apply (wf_frame st Hwf); cbn; try done;
    intros x l; rewrite lookup_delete; by case_decide.
Qed.

Lemma sweep_frame (now : Z) (S U : gset string) (names : list string) (st : state) :
  let st' := foldl (sweep_file now S U) st names in
  heap st' = heap st ∧ intervals st' = intervals st ∧ tasks st' = tasks st ∧
  transfers st' = transfers st ∧ timeouts st' = timeouts st ∧ next st' = next st ∧
  (∀ x l, jobs st' !! x = Some l → jobs st !! x = Some l) ∧
  (∀ n f, fs st' !! n = Some f → fs st !! n = Some f).
Proof.
  revert st. induction names as [|a names IH]; intros st; [done|].
  cbn [foldl]. set (st1 := sweep_file now S U st a).
  assert (H1 : heap st1 = heap st ∧ intervals st1 = intervals st ∧
               tasks st1 = tasks st ∧ transfers st1 = transfers st ∧
               timeouts st1 = timeouts st ∧ next st1 = next st ∧
               (∀ x l, jobs st1 !! x = Some l → jobs st !! x = Some l) ∧
               (∀ n f, fs st1 !! n = Some f → fs st !! n = Some f)).
  { unfold st1. rewrite sweep_file_deletes. destruct (deletes now S U st a); [|done].
    cbn. repeat split; try done; intros ? ?; rewrite lookup_delete; by case_decide. }
  destruct (IH st1) as (-> & -> & -> & -> & -> & -> & Hj & Hf).
  destruct H1 as (-> & -> & -> & -> & -> & -> & Hj1 & Hf1).
  repeat split; eauto.
Qed.

Lemma wf_sweep (now : Z) (S U : gset string) (st : state) :
  wf st → wf (sweep now S U st).
Proof.
  intros Hwf.
  destruct (sweep_frame now S U (readdirSync st) st)
    as (Hh & Hi & Ht & _ & _ & Hn & Hj & _).
  apply (wf_frame st Hwf); try done. fold (sweep now S U st) in Hn. by rewrite Hn.
Qed.

(** Every step keeps the invariant, and lets job objects only evolve. *)
Lemma wf_step (st : state) (e : event) : wf st → wf (step st e).
Proof.
  intros Hwf. destruct e; cbn [step];
    auto using wf_post_convert, wf_get_download, wf_download_done, wf_cleanup_fired,
      wf_tick, wf_info_resolved, wf_info_rejected, wf_audio_resolved,
      wf_audio_rejected, wf_sweep.
Qed.

Lemma heap_evolves_step (st : state) (e : event) : wf st → heap_evolves st (step st e).
Proof.
  intros Hwf. destruct e; cbn [step];
    auto using heap_evolves_post_convert, heap_evolves_tick,
      heap_evolves_info_resolved, heap_evolves_info_rejected,
      heap_evolves_audio_resolved, heap_evolves_audio_rejected.
  - by apply heap_evolves_refl.
  - apply heap_evolves_refl. unfold get_download.
    destruct (get_job jobId st) as [j|]; [|done]. destruct (job_status j); try done.
    by destruct (fs st !! artifact jobId).
  - apply heap_evolves_refl. unfold download_done. by destruct (transfers st !! d).
  - apply heap_evolves_refl. unfold cleanup_fired.
    destruct (timeouts st !! c) as [cl|]; [|done]. cbn.
    destruct (fs st !! artifact (cl_jobId cl)); [by destruct unlink_throws | done].
  - apply heap_evolves_refl.
    by destruct (sweep_frame now stat_throws unlink_throws (readdirSync st) st) as [? _].
Qed.

Lemma wf_run (es : list event) (st : state) : wf st → wf (run st es).
Proof.
  revert st. induction es as [|e es IH]; intros st Hwf; [done|].
  cbn. apply IH. by apply wf_step.
Qed.

Lemma reachable_wf (st : state) : reachable st → wf st.
Proof. intros (files & es & ->). apply wf_run, wf_init. Qed.

Lemma reachable_step (st : state) (e : event) : reachable st → reachable (step st e).
Proof.
  intros (files & es & ->). exists files, (es ++ [e])%list.
  unfold run. by rewrite foldl_app.
Qed.
(** ** Progress and status of a job *)

Lemma progress_le_100 (st : state) (l : ref) (j : job) :
  reachable st → heap st !! l = Some j → (job_progress j ≤ 100)%Z.
Proof.
  intros Hwf%reachable_wf Hj. pose proof (wf_progress _ Hwf _ _ Hj) as Hok.
  unfold progress_ok in Hok. destruct (job_status j); lia.
Qed.

(** C1. The progress of a job does go down.  The interval callback writes
    the floor of its own local [progress], which the jump to 20 does not
    touch: a tick after the metadata step takes the job from 20 back to 7.
    And the metadata step itself writes 20 over whatever the simulator had
    reached: after four ticks at 23, the job falls to 20. *)
Theorem progress_decreases :
  let url := JStr "https://youtu.be/x" in
  let st0 := (post_convert 1000 url JUndefined (init ∅)).2 in
  let st1 := info_resolved 2 (Some "Song") st0 in
  let st2 := tick 1 (1#2) st1 in
  let st3 := run st0 [Tick 1%nat (9#10); Tick 1%nat (9#10); Tick 1%nat (9#10);
                      Tick 1%nat (9#10)] in
  let st4 := info_resolved 2 (Some "Song") st3 in
  job_progress <$> get_job "1000" st0 = Some 5 ∧
  job_progress <$> get_job "1000" st1 = Some 20 ∧
  job_progress <$> get_job "1000" st2 = Some 7 ∧
  job_progress <$> get_job "1000" st3 = Some 23 ∧
  job_progress <$> get_job "1000" st4 = Some 20.
Proof. vm_compute. repeat split; reflexivity. Qed.

(** The guard of the interval callback alone, in any state: a tick leaves
    status and progress of a job in a terminal state as they are. *)
Lemma tick_terminal (t : ref) (r : Q) (st : state) (l : ref) (j : job) :
  heap st !! l = Some j → terminal (job_status j) = true →
  ∃ j', heap (tick t r st) !! l = Some j' ∧
        job_status j' = job_status j ∧ job_progress j' = job_progress j.
Proof.
  intros Hj Hterm. unfold tick.
  destruct (intervals st !! t) as [iv|]; [|by exists j].
  destruct (heap st !! iv_job iv) as [j0|] eqn:Hj0; [|by exists j].
  destruct (terminal (job_status j0)) eqn:Hterm0.
  - unfold clear_progress_interval. rewrite Hj0.
    destruct (job_progressIntervalId j0); [|by exists j].
    cbn. rewrite lookup_alter. case_decide; [|by exists j].
    subst. rewrite Hj. cbn. by eexists.
  - destruct (negb _); [|by exists j]. cbn. rewrite lookup_alter.
    case_decide; [|by exists j]. subst. congruence.
Qed.

(** C2. In a state the server can reach, whatever happens next, every job
    object is still there; its status is the same or has gone from
    [Processing] to [Completed] or [Error]; and a job whose status was
    terminal is unchanged altogether, so neither its status nor its
    progress is written again. *)
Theorem status_one_directional (st : state) (e : event) (l : ref) (j : job) :
  reachable st → heap st !! l = Some j →
  ∃ j', heap (step st e) !! l = Some j' ∧
    (job_status j' = job_status j ∨
     (job_status j = Processing ∧
      (job_status j' = Completed ∨ job_status j' = Error))) ∧
    (job_status j ≠ Processing → j' = j).
Proof.
  intros Hwf%reachable_wf Hj.
  destruct (heap_evolves_step st e Hwf l j Hj) as (j' & Hj' & _ & Hterm).
  exists j'. split; [done|]. split.
  - destruct (job_status j) eqn:Hs.
    + destruct (job_status j'); auto.
    + left. by rewrite Hterm.
    + left. by rewrite Hterm.
  - intros Hne. apply Hterm. by destruct (job_status j).
Qed.

Lemma reachable_progress (st : state) (l : ref) (j : job) :
  reachable st → heap st !! l = Some j →
  (job_status j = Processing → (job_progress j ≤ 90)%Z) ∧
  (job_progress j = 100 ↔ job_status j = Completed).
Proof.
  intros Hwf%reachable_wf Hj. pose proof (wf_progress _ Hwf _ _ Hj) as Hok.
  unfold progress_ok in Hok. destruct (job_status j); split; try done; split; try done; lia.
Qed.

(** C3. In a state the server can reach, a job that is [Processing] has
    progress at most 90, and the progress of a job is 100 exactly when the
    job is [Completed]. *)
Theorem progress_bounds (st : state) (l : ref) (j : job) :
  reachable st → heap st !! l = Some j →
  (job_status j = Processing → (job_progress j ≤ 90)%Z) ∧
  (job_progress j = 100 ↔ job_status j = Completed).
Proof. apply reachable_progress. Qed.

(** The same through the registry, as [GET /api/status/:jobId] reads it. *)
Corollary status_progress_bounds (st : state) (jobId : string) (j : job) :
  reachable st → get_job jobId st = Some j →
  (job_status j = Processing → (job_progress j ≤ 90)%Z) ∧
  (job_progress j = 100 ↔ job_status j = Completed).
Proof.
  intros Hr Hget. unfold get_job in Hget.
  destruct (jobs st !! jobId) as [l|]; [|done]. by apply (reachable_progress st l).
Qed.

(** ** Failure of a provider call *)

Lemma on_rejected_failed_as (k : ref) (tk : task) (msg : string) (st0 st : state) :
  wf st0 → tasks st0 !! k = Some tk → t_phase tk ≠ Settled → heap st0 = heap st →
  failed_as tk msg st (λ u, on_rejected k tk msg u st0).
Proof.
  intros Hwf Hk Hph Hheap.
  set (f := λ j, with_error msg (with_status Error j)).
  assert (Hf : ∀ j, job_id (f j) = job_id j ∧
                    job_progressIntervalId (f j) = job_progressIntervalId j) by done.
  destruct (settle_effect k tk f st0 Hwf Hk Hph)
    as (l & j & t & Hjob & Hj & Hs & Hid & Hp & _ & Hh & Hi & Hjobs & Hfs & _).
  pose proof (settle_no_interval k tk f st0 Hwf Hk Hph) as Hnoiv.
  set (st3 := set_phase k Settled (when_job tk f (when_job_clear tk st0))) in *.
  assert (Hcases : ∀ u, heap (on_rejected k tk msg u st0) = heap st3 ∧
                        jobs (on_rejected k tk msg u st0) = jobs st3 ∧
                        intervals (on_rejected k tk msg u st0) = intervals st3 ∧
                        tasks (on_rejected k tk msg u st0) = tasks st3).
  { intros u. by destruct (on_rejected_cases k tk msg u st0) as [->|[_ ->]]. }
  exists l, j. split; [done|]. split; [by rewrite <- Hheap|]. split; [|split].
  - intros u. destruct (Hcases u) as (-> & -> & -> & _). split; [|split].
    + by rewrite Hh, lookup_insert_eq.
    + by rewrite Hjobs, lookup_insert_eq.
    + intros t' iv Ht' Heq. apply (Hnoiv _ _ Ht'). by rewrite Hjob, Heq.
  - unfold on_rejected. fold f. fold st3.
    destruct (fs st3 !! artifact (t_jobId tk)) eqn:Hart; [|done].
    cbn. apply lookup_delete_eq.
  - destruct (Hcases true) as (-> & -> & -> & ->).
    by destruct (Hcases false) as (-> & -> & -> & ->).
Qed.

(** C7. When the metadata call or the extraction call of a chain fails, in
    a state the server can reach, the [.catch] handler leaves the job in
    state [Error] with the failure message in its [error] field (title and
    progress as they were), stores it in the registry, leaves no interval
    of the job alive, and removes the artifact at [{jobId}.mp3]; when
    [unlinkSync] throws instead, job objects, registry, intervals and
    chains end up the same. *)
Theorem rejection_spec (k : ref) (tk : task) (msg : string) (st : state) :
  reachable st → tasks st !! k = Some tk →
  (t_phase tk = AwaitInfo →
     failed_as tk msg st (λ u, info_rejected k msg u st)) ∧
  (t_phase tk = AwaitAudio →
     ∀ partial, failed_as tk msg st (λ u, audio_rejected k msg partial u st)).
Proof.
  intros Hwf%reachable_wf Hk. split.
  - intros Hph. unfold info_rejected. rewrite Hk, Hph.
    apply on_rejected_failed_as; [done | done | by rewrite Hph | done].
  - intros Hph partial. unfold audio_rejected. rewrite Hk, Hph.
    apply on_rejected_failed_as;
      [by apply wf_leave_partial | by destruct partial | by rewrite Hph
      | by destruct partial].
Qed.
(** ** Who writes the registry and the directory *)

Lemma done_job_mono (st st' : state) (y : string) :
  heap_evolves st st' → done_job st y → done_job st' y.
Proof.
  intros Hev (l & j & Hj & Hid & Hs).
  destruct (Hev _ _ Hj) as (j' & Hj' & _ & Hterm).
  assert (j' = j) as -> by (apply Hterm; by rewrite Hs). by exists l, j.
Qed.

Lemma info_resolved_effect (k : ref) (title : option string) (st : state) :
  wf st →
  info_resolved k title st = st ∨
  ∃ tk l st1, tasks st !! k = Some tk ∧ t_phase tk = AwaitInfo ∧
    processing_job st l (t_jobId tk) ∧
    info_resolved k title st = set_phase k AwaitAudio st1 ∧
    (st1 = st ∨
     ∃ f, st1 = set_jobs <[t_jobId tk := l]> (write l f st)).
Proof.
  intros Hwf. unfold info_resolved.
  destruct (tasks st !! k) as [tk|] eqn:Hk; [|by left].
  destruct (t_phase tk) eqn:Hph; try by left.
  destruct (wf_task _ Hwf _ _ Hk) as (l & j & t & Hjob & Hj & Hs & Hid & Hp & Hlive);
    [by rewrite Hph|].
  right. exists tk, l. destruct (title_given title) as [s|].
  - eexists. split; [done|]. split; [done|]. split; [by exists j|].
    split; [unfold when_job; rewrite Hjob; reflexivity|]. right. by eexists.
  - exists st. split; [done|]. split; [done|]. split; [by exists j|].
    split; [done | by left].
Qed.

(** The effect of a step other than a terminal transition on transfers,
    timeouts and directory. *)
Lemma tick_frame (t : ref) (r : Q) (st : state) :
  transfers (tick t r st) = transfers st ∧ timeouts (tick t r st) = timeouts st ∧
  fs (tick t r st) = fs st.
Proof.
  unfold tick, clear_progress_interval. by repeat case_match.
Qed.

Lemma info_resolved_frame (k : ref) (title : option string) (st : state) :
  transfers (info_resolved k title st) = transfers st ∧
  timeouts (info_resolved k title st) = timeouts st ∧
  fs (info_resolved k title st) = fs st.
Proof.
  unfold info_resolved, when_job. by repeat case_match.
Qed.

Lemma post_convert_frame (now : Z) (url quality : jsval) (st : state) :
  transfers (post_convert now url quality st).2 = transfers st ∧
  timeouts (post_convert now url quality st).2 = timeouts st ∧
  fs (post_convert now url quality st).2 = fs st.
Proof.
  destruct (check_url url) eqn:Hacc.
  - by rewrite post_convert_accept.
  - unfold post_convert. by rewrite Hacc.
  - unfold post_convert. by rewrite Hacc.
Qed.

Lemma settled_frame (k : ref) (tk : task) (f : job → job) (st : state) :
  let st' := set_phase k Settled (when_job tk f (when_job_clear tk st)) in
  transfers st' = transfers st ∧ timeouts st' = timeouts st ∧ fs st' = fs st.
Proof.
  unfold when_job, when_job_clear, clear_progress_interval. cbn zeta.
  by repeat case_match.
Qed.

Lemma on_rejected_frame (k : ref) (tk : task) (msg : string) (u : bool) (st : state) :
  transfers (on_rejected k tk msg u st) = transfers st ∧
  timeouts (on_rejected k tk msg u st) = timeouts st ∧
  (∀ n, is_Some (fs (on_rejected k tk msg u st) !! n) → is_Some (fs st !! n)).
Proof.
  destruct (settled_frame k tk (λ j, with_error msg (with_status Error j)) st)
    as (Ht & Hto & Hfs).
  destruct (on_rejected_cases k tk msg u st) as [->|[_ ->]].
  - rewrite Ht, Hto, Hfs. done.
  - cbn. cbn in Ht, Hto, Hfs. rewrite Ht, Hto, Hfs. repeat split.
    intros n. rewrite lookup_delete. by case_decide.
Qed.
Lemma step_effect_same (e : event) (st st' : state) :
  heap st' = heap st → jobs st' = jobs st → fs st' = fs st → step_effect e st st'.
Proof. intros Hh Hj Hf. split; rewrite ?Hh, ?Hj, ?Hf; eauto. Qed.

(** A job object rewritten in place and stored again in the registry. *)
Lemma step_effect_store (e : event) (st : state) (l : ref) (y : string) (f : job → job) :
  processing_job st l y →
  step_effect e st (set_jobs <[y := l]> (write l f st)).
Proof.
  intros (j & Hj & Hs & Hid). split; cbn.
  - intros l' j'. rewrite lookup_alter. case_decide; [subst; by left | eauto].
  - intros y'. rewrite lookup_insert. case_decide; [|by left].
    subst. right. left. exists l. split; [done|]. by exists j.
  - eauto.
Qed.

Lemma step_effect_tick (t : ref) (r : Q) (st : state) :
  wf st → step_effect (Tick t r) st (tick t r st).
Proof.
  intros Hwf. destruct (intervals st !! t) as [iv|] eqn:Ht;
    [|unfold tick; rewrite Ht; by apply step_effect_same].
  destruct (tick_live t r st iv Hwf Ht) as (j & Hj & Hs & Hid & ->).
  destruct (negb _); [|by apply step_effect_same]. cbn zeta.
  split; cbn.
  - intros l' j'. rewrite lookup_alter. case_decide; [subst; by left | eauto].
  - intros y. rewrite lookup_insert. case_decide; [|by left].
    subst. right. left. exists (iv_job iv). split; [done|]. by exists j.
  - eauto.
Qed.

Lemma step_effect_info_resolved (k : ref) (title : option string) (st : state) :
  wf st → step_effect (InfoResolved k title) st (info_resolved k title st).
Proof.
  intros Hwf.
  destruct (info_resolved_effect k title st Hwf)
    as [->|(tk & l & st1 & Hk & Hph & Hproc & -> & [->|[f ->]])].
  - by apply step_effect_same.
  - by apply step_effect_same.
  - destruct (step_effect_store (InfoResolved k title) st l (t_jobId tk) f Hproc)
      as [Hh Hj Hf].
    split; [exact Hh | exact Hj | exact Hf].
Qed.

(** A terminal transition, possibly after the provider wrote the artifact
    and before the handler deleted it. *)
Lemma step_effect_settle (e : event) (k : ref) (tk : task) (f : job → job)
    (st0 st st' : state) :
  wf st0 → tasks st0 !! k = Some tk → t_phase tk ≠ Settled →
  heap st0 = heap st → jobs st0 = jobs st →
  (∀ n, is_Some (fs st0 !! n) → is_Some (fs st !! n) ∨ n = artifact (t_jobId tk)) →
  heap st' = heap (set_phase k Settled (when_job tk f (when_job_clear tk st0))) →
  jobs st' = jobs (set_phase k Settled (when_job tk f (when_job_clear tk st0))) →
  (∀ n, is_Some (fs st' !! n) → is_Some (fs st0 !! n)) →
  step_effect e st st'.
Proof.
  intros Hwf Hk Hph Hh0 Hj0 Hfs0 Hh' Hj' Hfs'.
  destruct (settle_effect k tk f st0 Hwf Hk Hph)
    as (l & j & t & Hjob & Hj & Hs & Hid & Hp & _ & Hh & _ & Hjobs & _).
  assert (Hproc : processing_job st l (t_jobId tk)) by (exists j; by rewrite <- Hh0).
  split.
  - intros l' j'. rewrite Hh', Hh, lookup_insert, <- Hh0.
    case_decide; [subst; by left | eauto].
  - intros y. rewrite Hj', Hjobs, lookup_insert, <- Hj0.
    case_decide; [|by left]. subst. right. left. by exists l.
  - intros n Hn. destruct (Hfs0 n (Hfs' n Hn)) as [? | ->]; [by left|].
    right. exists l, (t_jobId tk). split; [done|]. split; [done|].
    rewrite Hj', Hjobs. apply lookup_insert_eq.
Qed.

Lemma step_effect_audio_resolved (k : ref) (mtime : Q) (st : state) :
  wf st → step_effect (AudioResolved k mtime) st (audio_resolved k mtime st).
Proof.
  intros Hwf. unfold audio_resolved.
  destruct (tasks st !! k) as [tk|] eqn:Hk; [|by apply step_effect_same].
  destruct (t_phase tk) eqn:Hph; try by apply step_effect_same.
  set (st0 := set_fs <[artifact (t_jobId tk) := File mtime]> st).
  apply (step_effect_settle _ k tk (λ j, with_progress 100 (with_status Completed j)) st0);
    try done.
  - by apply wf_set_fs.
  - by rewrite Hph.
  - intros n. unfold st0. cbn. rewrite lookup_insert. case_decide; [by right | by left].
  - intros n. by destruct (settled_frame k tk
      (λ j, with_progress 100 (with_status Completed j)) st0) as (_ & _ & ->).
Qed.

Lemma step_effect_on_rejected (e : event) (k : ref) (tk : task) (msg : string)
    (u : bool) (st0 st : state) :
  wf st0 → tasks st0 !! k = Some tk → t_phase tk ≠ Settled →
  heap st0 = heap st → jobs st0 = jobs st →
  (∀ n, is_Some (fs st0 !! n) → is_Some (fs st !! n) ∨ n = artifact (t_jobId tk)) →
  step_effect e st (on_rejected k tk msg u st0).
Proof.
  intros Hwf Hk Hph Hh0 Hj0 Hfs0.
  apply (step_effect_settle e k tk (λ j, with_error msg (with_status Error j)) st0);
    try done.
  - by destruct (on_rejected_cases k tk msg u st0) as [->|[_ ->]].
  - by destruct (on_rejected_cases k tk msg u st0) as [->|[_ ->]].
  - by destruct (on_rejected_frame k tk msg u st0) as (_ & _ & ?).
Qed.

Lemma step_effect_info_rejected (k : ref) (msg : string) (u : bool) (st : state) :
  wf st → step_effect (InfoRejected k msg u) st (info_rejected k msg u st).
Proof.
  intros Hwf. unfold info_rejected.
  destruct (tasks st !! k) as [tk|] eqn:Hk; [|by apply step_effect_same].
  destruct (t_phase tk) eqn:Hph; try by apply step_effect_same.
  apply step_effect_on_rejected; try done; [by rewrite Hph | by left].
Qed.

Lemma step_effect_audio_rejected (k : ref) (msg : string) (partial : option file)
    (u : bool) (st : state) :
  wf st →
  step_effect (AudioRejected k msg partial u) st (audio_rejected k msg partial u st).
Proof.
  intros Hwf. unfold audio_rejected.
  destruct (tasks st !! k) as [tk|] eqn:Hk; [|by apply step_effect_same].
  destruct (t_phase tk) eqn:Hph; try by apply step_effect_same.
  apply step_effect_on_rejected.
  - by apply wf_leave_partial.
  - by destruct partial.
  - by rewrite Hph.
  - by destruct partial.
  - by destruct partial.
  - intros n. destruct partial; cbn; [|by left].
    rewrite lookup_insert. case_decide; [by right | by left].
Qed.

Lemma step_effect_post_convert (now : Z) (url quality : jsval) (st : state) :
  step_effect (PostConvert now url quality) st (post_convert now url quality st).2.
Proof.
  destruct (check_url url) eqn:Hacc.
  - rewrite post_convert_accept by done. split; cbn -[toString].
    + intros l j'. rewrite lookup_insert. case_decide; [|eauto].
      intros [= <-]. right. by exists now, url, quality.
    + intros y. rewrite lookup_insert. case_decide; [|by left].
      right. right. left. split; [by exists now, url, quality | done].
    + eauto.
  - unfold post_convert. rewrite Hacc. by apply step_effect_same.
  - unfold post_convert. rewrite Hacc. by apply step_effect_same.
Qed.

Lemma step_effect_cleanup_fired (c : ref) (u : bool) (st : state) :
  wf_dl st → step_effect (CleanupFired c u) st (cleanup_fired c u st).
Proof.
  intros Hdl. unfold cleanup_fired.
  destruct (timeouts st !! c) as [cl|] eqn:Hc; [|by apply step_effect_same].
  destruct (wf_timeout _ Hdl _ _ Hc) as [Hdone _].
  assert (Hdel : ∀ st1, heap st1 = heap st → jobs st1 = jobs st →
            (∀ n, is_Some (fs st1 !! n) → is_Some (fs st !! n)) →
            step_effect (CleanupFired c u) st (set_jobs (delete (cl_jobId cl)) st1)).
  { intros st1 Hh Hj Hf. split; cbn.
    - rewrite Hh. eauto.
    - intros y. rewrite lookup_delete, Hj. case_decide; [|by left].
      subst. right. right. right. eauto.
    - eauto. }
  cbn. destruct (fs st !! artifact (cl_jobId cl)); [destruct u|]; cbn.
  - by apply step_effect_same.
  - apply (Hdel (set_fs (delete (artifact (cl_jobId cl))) (set_timeouts (delete c) st)));
      try done.
    intros n. cbn. rewrite lookup_delete. by case_decide.
  - by apply (Hdel (set_timeouts (delete c) st)).
Qed.

Lemma step_effect_sweep (now : Z) (S U : gset string) (st : state) :
  step_effect (Sweep now S U) st (sweep now S U st).
Proof.
  destruct (sweep_frame now S U (readdirSync st) st)
    as (Hh & _ & _ & _ & _ & _ & Hj & Hf).
  fold (sweep now S U st) in Hh, Hj, Hf.
  destruct (sweep_effect now S U st) as (_ & _ & _ & Hdel & Hkeep & _).
  split.
  - rewrite Hh. eauto.
  - intros y.
    destruct (decide (Exists (λ n, deletes now S U st n = true ∧ path_parse_name n = y)
                        (readdirSync st))) as [Hex|Hex].
    + apply Exists_exists in Hex as (n & Hin & Hs & Hy).
      right. right. right. split; [apply Hdel; eauto|].
      right. exists n. split; [|done]. by apply elem_of_readdirSync.
    + left. apply Hkeep. intros n Hs Hy. apply Hex, Exists_exists.
      exists n. eauto using deletes_readdirSync.
  - intros n [f Hn]. left. apply Hf in Hn. by exists f.
Qed.

Lemma step_effect_step (st : state) (e : event) :
  wf st → wf_dl st → step_effect e st (step st e).
Proof.
  intros Hwf Hdl. destruct e; cbn [step];
    auto using step_effect_post_convert, step_effect_tick, step_effect_info_resolved,
      step_effect_info_rejected, step_effect_audio_resolved,
      step_effect_audio_rejected, step_effect_cleanup_fired, step_effect_sweep.
  - by apply step_effect_same.
  - apply step_effect_same; unfold get_download;
      destruct (get_job jobId st) as [j|]; try done;
      destruct (job_status j); try done; by destruct (fs st !! artifact jobId).
  - apply step_effect_same; unfold download_done; by destruct (transfers st !! d).
Qed.
(** ** Downloads are those of completed jobs *)

Lemma wf_dl_frame (st st' : state) :
  wf_dl st → heap_evolves st st' →
  transfers st' = transfers st → timeouts st' = timeouts st → wf_dl st'.
Proof.
  intros [Htr Hto] Hev Et Eo. split; rewrite ?Et, ?Eo.
  - intros d tr Hd. eapply done_job_mono; eauto.
  - intros c cl Hc. destruct (Hto _ _ Hc). split; [|done]. eapply done_job_mono; eauto.
Qed.

Lemma wf_dl_init (files : gmap string file) : wf_dl (init files).
Proof. split; cbn; intros ? ?; by rewrite lookup_empty. Qed.

Lemma audio_resolved_frame (k : ref) (mtime : Q) (st : state) :
  transfers (audio_resolved k mtime st) = transfers st ∧
  timeouts (audio_resolved k mtime st) = timeouts st.
Proof.
  unfold audio_resolved.
  destruct (tasks st !! k) as [tk|]; [|done]. destruct (t_phase tk); try done.
  by destruct (settled_frame k tk (λ j, with_progress 100 (with_status Completed j))
                 (set_fs <[artifact (t_jobId tk) := File mtime]> st)) as (-> & -> & _).
Qed.

Lemma info_rejected_frame (k : ref) (msg : string) (u : bool) (st : state) :
  transfers (info_rejected k msg u st) = transfers st ∧
  timeouts (info_rejected k msg u st) = timeouts st.
Proof.
  unfold info_rejected.
  destruct (tasks st !! k) as [tk|]; [|done]. destruct (t_phase tk); try done.
  by destruct (on_rejected_frame k tk msg u st) as (-> & -> & _).
Qed.

Lemma audio_rejected_frame (k : ref) (msg : string) (partial : option file) (u : bool)
    (st : state) :
  transfers (audio_rejected k msg partial u st) = transfers st ∧
  timeouts (audio_rejected k msg partial u st) = timeouts st.
Proof.
  unfold audio_rejected.
  destruct (tasks st !! k) as [tk|]; [|done]. destruct (t_phase tk); try done.
  destruct (on_rejected_frame k tk msg u
              (leave_partial (artifact (t_jobId tk)) partial st)) as (-> & -> & _).
  by destruct partial.
Qed.

Lemma wf_dl_step (st : state) (e : event) : wf st → wf_dl st → wf_dl (step st e).
Proof.
  intros Hwf Hdl. pose proof (heap_evolves_step st e Hwf) as Hev.
  destruct e; cbn [step] in *.
  - destruct (post_convert_frame now url quality st) as (? & ? & _).
    by apply (wf_dl_frame st).
  - done.
  - unfold get_download in *.
    destruct (get_job jobId st) as [j|] eqn:Hget; [|done].
    destruct (job_status j) eqn:Hs; try done.
    destruct (fs st !! artifact jobId); [|done]. cbn.
    destruct Hdl as [Htr Hto]. split; cbn; [|done].
    intros d tr. rewrite lookup_insert. case_decide; [|by eauto].
    intros [= <-]. cbn. unfold get_job in Hget.
    destruct (jobs st !! jobId) as [l|] eqn:Hl; [|done]. cbn in Hget.
    destruct (wf_registry _ Hwf _ _ Hl) as (j' & Hj' & Hid).
    exists l, j. by simplify_eq.
  - unfold download_done in *. destruct (transfers st !! d) as [tr|] eqn:Hd; [|done].
    destruct Hdl as [Htr Hto]. split; cbn.
    + intros d' tr'. rewrite lookup_delete. case_decide; [done | eauto].
    + intros c cl. rewrite lookup_insert. case_decide; [|by eauto].
      intros [= <-]. cbn. eauto.
  - unfold cleanup_fired in *. destruct (timeouts st !! c) as [cl|] eqn:Hc; [|done].
    assert (Hdl' : wf_dl (set_timeouts (delete c) st)).
    { destruct Hdl as [Htr Hto]. split; cbn; [done|].
      intros c' cl'. rewrite lookup_delete. case_decide; [done | eauto]. }
    cbn. destruct (fs st !! artifact (cl_jobId cl)); [destruct unlink_throws|]; cbn;
      try done;
      by apply (wf_dl_frame (set_timeouts (delete c) st)); [|apply heap_evolves_refl|..].
  - destruct (tick_frame t r st) as (? & ? & _). by apply (wf_dl_frame st).
  - destruct (info_resolved_frame k title st) as (? & ? & _). by apply (wf_dl_frame st).
  - destruct (info_rejected_frame k msg unlink_throws st). by apply (wf_dl_frame st).
  - destruct (audio_resolved_frame k mtime st). by apply (wf_dl_frame st).
  - destruct (audio_rejected_frame k msg partial unlink_throws st).
    by apply (wf_dl_frame st).
  - destruct (sweep_frame now stat_throws unlink_throws (readdirSync st) st)
      as (_ & _ & _ & ? & ? & _).
    by apply (wf_dl_frame st).
Qed.

Lemma wf_dl_run (es : list event) (st : state) :
  wf st → wf_dl st → wf_dl (run st es).
Proof.
  revert st. induction es as [|e es IH]; intros st Hwf Hdl; [done|].
  cbn. apply IH; [by apply wf_step | by apply wf_dl_step].
Qed.

Lemma reachable_wf_dl (st : state) : reachable st → wf_dl st.
Proof. intros (files & es & ->). apply wf_dl_run; [apply wf_init | apply wf_dl_init]. Qed.

(** ** What remains of a failed job *)

Section failed_job.
Variables (x : string) (l : ref) (j : job).
Hypothesis Herr : job_status j = Error.

Lemma kept_step (st : state) (e : event) :
  wf st → wf_dl st → spares x e → kept x l j st → kept x l j (step st e).
Proof.
  intros Hwf Hdl Hsp (Hreg & Hj & Hsole & Hnofile).
  destruct (step_effect_step st e Hwf Hdl) as [Hh Hjobs Hfs].
  pose proof (heap_evolves_step st e Hwf) as Hev.
  assert (Hnew : ¬ accepted_as e x).
  { intros (now & url & q & -> & Hacc & Hx). by apply (Hsp Hacc). }
  assert (Hproc : ∀ l', ¬ processing_job st l' x).
  { intros l' (j' & Hj' & Hs' & Hid'). assert (l' = l) as -> by eauto.
    congruence. }
  assert (Hdone : ¬ done_job st x).
  { intros (l' & j' & Hj' & Hid' & Hs'). assert (l' = l) as -> by eauto.
    congruence. }
  repeat split.
  - destruct (Hjobs x) as [->|[(l' & _ & Hp)|[[Hacc _]|(_ & [Hd|(n & Hn & Hx)])]]];
      [done | by destruct (Hproc l') | done | done | by destruct (Hnofile n Hn)].
  - destruct (Hev _ _ Hj) as (j' & Hj' & _ & Hterm).
    rewrite Hj'. f_equal. apply Hterm. by rewrite Herr.
  - intros l' j' Hj' Hid'.
    destruct (Hh _ _ Hj') as [[j0 Hj0]|Hacc]; [|by rewrite Hid' in Hacc].
    destruct (Hev _ _ Hj0) as (j1 & Hj1 & Hid1 & _).
    apply (Hsole l' j0 Hj0). congruence.
  - intros n Hn. destruct (Hfs n Hn) as [Hold|(l' & y & Hp & -> & _)];
      [by apply Hnofile|].
    intros Hx. destruct Hp as (j' & Hj' & Hs' & Hid').
    rewrite path_parse_name_artifact in Hx by (rewrite <- Hid'; by eapply wf_id).
    subst y. apply (Hproc l'). by exists j'.
Qed.

Lemma kept_run (es : list event) (st : state) :
  wf st → wf_dl st → Forall (spares x) es → kept x l j st → kept x l j (run st es).
Proof.
  revert st. induction es as [|e es IH]; intros st Hwf Hdl Hsp Hk; [done|].
  apply Forall_cons in Hsp as [He Hes]. cbn.
  apply IH; [by apply wf_step | by apply wf_dl_step | done | by apply kept_step].
Qed.

(** A registry entry for the failed job is never made anew, and a file that
    parses to [x] appears only when the registry is given another job. *)
Lemma out_of_reach_step (st : state) (e : event) :
  wf st → wf_dl st → out_of_reach x l j st → out_of_reach x l j (step st e).
Proof.
  intros Hwf Hdl [Hj Hno].
  destruct (step_effect_step st e Hwf Hdl) as [_ Hjobs Hfs].
  assert (Hproc : ¬ processing_job st l x).
  { intros (j' & Hj' & Hs' & _). congruence. }
  split.
  - destruct (heap_evolves_step st e Hwf _ _ Hj) as (j' & Hj' & _ & Hterm).
    rewrite Hj'. f_equal. apply Hterm. by rewrite Herr.
  - intros Hreg'.
    assert (Hreg : jobs st !! x = Some l).
    { destruct (Hjobs x) as [<-|[(l' & Hl' & Hp)|[[_ Hl']|[Hnone _]]]]; [done|..].
      - destruct Hproc. congruence.
      - pose proof (wf_heap_fresh _ Hwf _ _ Hj). assert (l = next st) by congruence. lia.
      - congruence. }
    intros n Hn. destruct (Hfs n Hn) as [Hold|(l' & y & Hp & -> & Hy)];
      [by apply Hno|].
    intros Hx. destruct Hp as (j' & Hj' & Hs' & Hid').
    rewrite path_parse_name_artifact in Hx by (rewrite <- Hid'; by eapply wf_id).
    subst y. destruct Hproc. exists j'. assert (l' = l) as <- by congruence. done.
Qed.

Lemma out_of_reach_run (es : list event) (st : state) :
  wf st → wf_dl st → out_of_reach x l j st → out_of_reach x l j (run st es).
Proof.
  revert st. induction es as [|e es IH]; intros st Hwf Hdl Hk; [done|].
  cbn. apply IH; [by apply wf_step | by apply wf_dl_step | by apply out_of_reach_step].
Qed.
End failed_job.
(** The sweeper drops a registry entry only together with a directory entry
    that parses to its key. *)
Lemma sweep_registry (now : Z) (S U : gset string) (st : state) (y : string) :
  jobs (sweep now S U st) !! y = jobs st !! y ∨
  (jobs (sweep now S U st) !! y = None ∧
   ∃ name f, fs st !! name = Some f ∧ fs (sweep now S U st) !! name = None ∧
             path_parse_name name = y).
Proof.
  destruct (sweep_effect now S U st) as (Hfdel & _ & _ & Hdel & Hkeep & _).
  destruct (decide (Exists (λ n, deletes now S U st n = true ∧ path_parse_name n = y)
                      (readdirSync st))) as [Hex|Hex].
  - apply Exists_exists in Hex as (n & Hin & Hs & Hy). right.
    split; [apply Hdel; by exists n|].
    apply elem_of_readdirSync in Hin as [f Hf]. exists n, f. auto.
  - left. apply Hkeep. intros n Hs Hy. apply Hex, Exists_exists.
    exists n. eauto using deletes_readdirSync.
Qed.

Lemma sweep_keeps (now : Z) (S U : gset string) (st : state) (x : string) :
  no_file_of x st → jobs (sweep now S U st) !! x = jobs st !! x.
Proof.
  intros Hno.
  destruct (sweep_registry now S U st x) as [->|(_ & n & f & Hf & _ & Hx)]; [done|].
  destruct (Hno n); eauto.
Qed.

(** ** The claim about the sweeper *)

(** C9. One pass of the sweeper at time [now], [S] and [U] being the
    entries on which [statSync] and [unlinkSync] fail.  An entry of
    [downloads/] whose age, [now] minus its last-modified time, exceeds
    3600000 ms (one hour) and on which neither call fails is deleted, and
    so is the registry entry of the id it parses to.  Every other entry, be
    it younger, exactly one hour old, or one on which a call fails, is left
    as it was, so a failure on one entry has no effect on the others; and
    no entry appears.  For the artifact of a job the id the entry parses to
    is the job's id.  A registry entry to which no deleted entry parses is
    left as it was; the job objects and all timers are untouched. *)
Theorem sweep_spec (now : Z) (S U : gset string) (st : state) :
  let st' := sweep now S U st in
  (∀ name f, fs st !! name = Some f →
     (3600000 < inject_Z now - mtimeMs f)%Q → name ∉ S → name ∉ U →
     fs st' !! name = None ∧ jobs st' !! path_parse_name name = None) ∧
  (∀ name f, fs st !! name = Some f →
     ¬ (3600000 < inject_Z now - mtimeMs f)%Q ∨ name ∈ S ∨ name ∈ U →
     fs st' !! name = Some f) ∧
  (∀ name, fs st !! name = None → fs st' !! name = None) ∧
  (∀ jobId f, jobId ≠ "" → fs st !! artifact jobId = Some f →
     (3600000 < inject_Z now - mtimeMs f)%Q →
     artifact jobId ∉ S → artifact jobId ∉ U →
     jobs st' !! jobId = None) ∧
  (∀ x, (∀ name f, fs st !! name = Some f →
           (3600000 < inject_Z now - mtimeMs f)%Q → name ∉ S → name ∉ U →
           path_parse_name name ≠ x) →
     jobs st' !! x = jobs st !! x) ∧
  heap st' = heap st ∧ intervals st' = intervals st ∧ tasks st' = tasks st ∧
  transfers st' = transfers st ∧ timeouts st' = timeouts st.
Proof.
  intros st'.
  destruct (sweep_effect now S U st)
    as (Hdel & Hkeep & _ & Hjdel & Hjkeep & _ & Hrest).
  fold st' in Hdel, Hkeep, Hjdel, Hjkeep, Hrest.
  assert (Hold : ∀ name f, fs st !! name = Some f →
            (3600000 < inject_Z now - mtimeMs f)%Q → name ∉ S → name ∉ U →
            deletes now S U st name = true).
  { intros name f Hf Ho HS HU. apply deletes_iff. by exists f. }
  split; [|split; [|split; [|split; [|split]]]].
  - intros name f Hf Ho HS HU. split.
    + apply Hdel. eauto.
    + apply Hjdel. exists name. eauto.
  - intros name f Hf Hnot. rewrite Hkeep; [done|]. apply not_true_is_false.
    intros (f' & Hf' & Ho & HS & HU)%deletes_iff.
    assert (f' = f) as -> by congruence. tauto.
  - intros name Hf. rewrite Hkeep; [done|]. unfold deletes. by rewrite Hf.
  - intros jobId f Hne Hf Ho HS HU. apply Hjdel. exists (artifact jobId).
    split; [eauto | by apply path_parse_name_artifact].
  - intros x Hx. apply Hjkeep. intros name (f & Hf & Ho & HS & HU)%deletes_iff. eauto.
  - exact Hrest.
Qed.

(** ** The claim about failed jobs *)

(** C10, as stated, fails in two ways, each with a pass of the sweeper.

    In [example_foreign] the job ["1000"] has failed and its artifact
    [1000.mp3] does not exist, but the directory holds [1000.txt], last
    modified at 0.  A pass at clock reading 3601000 deletes that file, which
    is not the job's artifact, and with it the registry entry of the job:
    [path.parse("1000.txt").name] is ["1000"].

    In [example_left_behind] the job ["1000"] has failed too, but the
    [.catch] handler could not delete the part of [1000.mp3] that the
    provider had written, last modified at 2000.  A pass at clock reading
    3700000 deletes the file and the registry entry of the failed job. *)
Lemma failed_job_swept :
  get_status "1000" example_foreign =
    Json 200 (BJob "1000" Error "Unknown Title" (JStr "192") 5 (Some "boom")) ∧
  map_to_list (fs example_foreign) = [("1000.txt", File 0)] ∧
  artifact "1000" = "1000.mp3" ∧
  path_parse_name "1000.txt" = "1000" ∧
  map_to_list (fs (step example_foreign (Sweep 3601000 ∅ ∅))) = [] ∧
  get_status "1000" (step example_foreign (Sweep 3601000 ∅ ∅)) =
    Json 404 (BError "Job not found") ∧
  get_status "1000" example_left_behind =
    Json 200 (BJob "1000" Error "Song" (JStr "192") 20 (Some "boom")) ∧
  map_to_list (fs example_left_behind) = [("1000.mp3", File 2000)] ∧
  map_to_list (fs (step example_left_behind (Sweep 3700000 ∅ ∅))) = [] ∧
  get_status "1000" (step example_left_behind (Sweep 3700000 ∅ ∅)) =
    Json 404 (BError "Job not found").
Proof. vm_compute. repeat split; reflexivity. Qed.

(** Under the id collision of C5 the registry entry of a failed job is lost
    without any pass of the sweeper: in [example_collision] the job that
    failed is the one the registry holds under ["1000"], and [downloads/]
    is empty; the cleanup timer armed by the download of the other job then
    deletes that registry entry.  This is why the last part of the theorem
    below speaks of a job that alone has its id. *)
Lemma collision_drops_failed_job :
  get_status "1000" example_collision =
    Json 200 (BJob "1000" Error "Unknown Title" (JStr "192") 5 (Some "boom")) ∧
  jobs example_collision !! "1000" = Some 0%nat ∧
  map_to_list (fs example_collision) = [] ∧
  timeouts example_collision !! 7%nat = Some (Cleanup 30000 "1000") ∧
  get_status "1000" (step example_collision (CleanupFired 7%nat false)) =
    Json 404 (BError "Job not found").
Proof. vm_compute. repeat split; reflexivity. Qed.

(** C10, amended.  A pass of the sweeper changes a registry entry only by
    deleting it, and only when it deletes a directory entry that parses to
    its key.  So take a state the server can reach in which the registry
    holds a failed job under [x] while no directory entry parses to [x].
    Every pass leaves the job in the registry.  The same is true of every
    pass at any later time, whatever happened in between: the job object
    never changes again, and while the registry holds it under [x] no pass
    removes it.  And if no other job object has the id [x], then whatever
    happens next, short of a request that is accepted under the id [x], the
    registry still holds the job. *)
Theorem failed_job_persists (st : state) (x : string) (l : ref) (j : job) :
  reachable st → jobs st !! x = Some l → heap st !! l = Some j →
  job_status j = Error → no_file_of x st →
  (∀ now S U y,
     jobs (sweep now S U st) !! y = jobs st !! y ∨
     (jobs (sweep now S U st) !! y = None ∧
      ∃ name f, fs st !! name = Some f ∧ fs (sweep now S U st) !! name = None ∧
                path_parse_name name = y)) ∧
  (∀ now S U, jobs (sweep now S U st) !! x = Some l) ∧
  (∀ es now S U,
     heap (run st es) !! l = Some j ∧
     (jobs (run st es) !! x = Some l →
      jobs (sweep now S U (run st es)) !! x = Some l)) ∧
  (sole_owner x l st → ∀ es, Forall (spares x) es →
     jobs (run st es) !! x = Some l ∧ heap (run st es) !! l = Some j).
Proof.
  intros Hr Hreg Hj Herr Hnofile.
  pose proof (reachable_wf _ Hr) as Hwf. pose proof (reachable_wf_dl _ Hr) as Hdl.
  split; [|split; [|split]].
  - intros now S U y. apply sweep_registry.
  - intros now S U. by rewrite sweep_keeps.
  - intros es now S U.
    destruct (out_of_reach_run x l j Herr es st Hwf Hdl) as [Hj' Hno]; [done|].
    split; [done|]. intros Hreg'. rewrite sweep_keeps; auto.
  - intros Hsole es Hes.
    by destruct (kept_run x l j Herr es st) as (? & ? & _).
Qed.

Lemma example_failed_reachable : reachable example_failed.
Proof. exists ∅, [PostConvert 1000 example_url JUndefined; InfoRejected 2%nat "boom" false]. reflexivity. Qed.

Lemma failed_job_persists_witness :
  (∀ now S U y,
     jobs (sweep now S U example_failed) !! y = jobs example_failed !! y ∨
     (jobs (sweep now S U example_failed) !! y = None ∧
      ∃ name f, fs example_failed !! name = Some f ∧
                fs (sweep now S U example_failed) !! name = None ∧
                path_parse_name name = y)) ∧
  (∀ now S U, jobs (sweep now S U example_failed) !! "1000" = Some 0%nat) ∧
  (∀ es now S U,
     heap (run example_failed es) !! 0%nat =
       Some (Job "1000" Error "Unknown Title" (JStr "192") 5 (Some "boom") None) ∧
     (jobs (run example_failed es) !! "1000" = Some 0%nat →
      jobs (sweep now S U (run example_failed es)) !! "1000" = Some 0%nat)) ∧
  (sole_owner "1000" 0%nat example_failed → ∀ es, Forall (spares "1000") es →
     jobs (run example_failed es) !! "1000" = Some 0%nat ∧
     heap (run example_failed es) !! 0%nat =
       Some (Job "1000" Error "Unknown Title" (JStr "192") 5 (Some "boom") None)).
Proof.
  apply (failed_job_persists example_failed "1000" 0%nat
           (Job "1000" Error "Unknown Title" (JStr "192") 5 (Some "boom") None)).
  - exact example_failed_reachable.
  - vm_compute. reflexivity.
  - vm_compute. reflexivity.
  - reflexivity.
  - intros n [f Hf]. vm_compute in Hf. discriminate Hf.
Defined.

(** ** The theorems at the example states *)

Lemma example_processing_reachable : reachable example_processing.
Proof. exists ∅, [PostConvert 1000 example_url JUndefined]. reflexivity. Qed.

Lemma example_completed_reachable : reachable example_completed.
Proof.
  exists ∅, [PostConvert 1000 example_url JUndefined; InfoResolved 2%nat (Some "Song");
             AudioResolved 2%nat 1000%Q].
  reflexivity.
Qed.

Lemma status_one_directional_witness :
  ∃ j', heap (step example_completed (Tick 1%nat (1#2))) !! 0%nat = Some j' ∧
    (job_status j' = Completed ∨
     (Completed = Processing ∧ (job_status j' = Completed ∨ job_status j' = Error))) ∧
    (Completed ≠ Processing →
     j' = Job "1000" Completed "Song" (JStr "192") 100 None None).
Proof.
  apply (status_one_directional example_completed (Tick 1%nat (1#2)) 0%nat
           (Job "1000" Completed "Song" (JStr "192") 100 None None)).
  - exact example_completed_reachable.
  - vm_compute. reflexivity.
Defined.

Lemma progress_bounds_witness :
  (Completed = Processing → (100 ≤ 90)%Z) ∧ (100 = 100 ↔ Completed = Completed).
Proof.
  apply (progress_bounds example_completed 0%nat
           (Job "1000" Completed "Song" (JStr "192") 100 None None)).
  - exact example_completed_reachable.
  - vm_compute. reflexivity.
Defined.

Lemma rejection_spec_witness :
  let tk := Task (Some 0%nat) "1000" example_url JUndefined AwaitInfo in
  (AwaitInfo = AwaitInfo →
     failed_as tk "boom" example_processing
       (λ u, info_rejected 2%nat "boom" u example_processing)) ∧
  (AwaitInfo = AwaitAudio →
     ∀ partial, failed_as tk "boom" example_processing
       (λ u, audio_rejected 2%nat "boom" partial u example_processing)).
Proof.
  apply (rejection_spec 2%nat (Task (Some 0%nat) "1000" example_url JUndefined AwaitInfo)
           "boom" example_processing).
  - exact example_processing_reachable.
  - vm_compute. reflexivity.
Defined.
(** * Further properties of the server *)

(** ** [GET /api/status/:jobId] *)

Lemma get_job_post_convert_other (now : Z) (url quality : jsval) (st : state) (y : string) :
  wf st → y ≠ toString now →
  get_job y (post_convert now url quality st).2 = get_job y st.
Proof.
  intros Hwf Hy. destruct (check_url url) eqn:Hacc;
    [|by unfold post_convert; rewrite Hacc..].
  rewrite post_convert_accept by done. unfold get_job. cbn -[toString].
  rewrite lookup_insert_ne by done.
  destruct (jobs st !! y) as [l|] eqn:Hl; [|done]. cbn.
  destruct (wf_registry _ Hwf _ _ Hl) as (j & Hj & _).
  rewrite lookup_insert_ne; [done|]. pose proof (wf_heap_fresh _ Hwf _ _ Hj). lia.
Qed.

(** X1. Polling right after an accepted request finds the job: the id that
    [POST /api/convert] answers with is known to [GET /api/status], which
    shows status [Processing], the placeholder title, the requested quality
    or ["192"], progress 5 (the simulator has already started) and no error;
    and the answer for every other id is what it was before the request. *)
Theorem status_after_convert (now : Z) (url quality : jsval) (st : state) :
  reachable st → check_url url = Accept →
  let st' := (post_convert now url quality st).2 in
  accepted_id (post_convert now url quality st).1 = Some (toString now) ∧
  get_status (toString now) st' =
    Json 200 (BJob (toString now) Processing "Unknown Title"
                   (js_or quality (JStr "192")) 5 None) ∧
  (∀ y, y ≠ toString now → get_status y st' = get_status y st).
Proof.
  intros Hwf%reachable_wf Hacc st'. split; [by apply post_convert_accepted_id|]. split.
  - unfold st', get_status, get_job. rewrite post_convert_accept by done.
    cbn -[toString]. rewrite lookup_insert_eq. cbn -[toString].
    by rewrite lookup_insert_eq.
  - intros y Hy. unfold st', get_status. by rewrite get_job_post_convert_other.
Qed.

Lemma status_after_convert_witness :
  accepted_id (post_convert 2000 example_url (JStr "320") example_processing).1 =
    Some (toString 2000) ∧
  get_status (toString 2000) (post_convert 2000 example_url (JStr "320") example_processing).2 =
    Json 200 (BJob (toString 2000) Processing "Unknown Title"
                   (js_or (JStr "320") (JStr "192")) 5 None) ∧
  (∀ y, y ≠ toString 2000 →
     get_status y (post_convert 2000 example_url (JStr "320") example_processing).2 =
     get_status y example_processing).
Proof.
  apply (status_after_convert 2000 example_url (JStr "320") example_processing).
  - exact example_processing_reachable.
  - reflexivity.
Defined.

(** ** Jobs do not interfere *)

Lemma heap_clear_other (l l' : ref) (st : state) :
  l ≠ l' → heap (clear_progress_interval l st) !! l' = heap st !! l'.
Proof.
  intros Hne. unfold clear_progress_interval.
  destruct (heap st !! l) as [j|]; [|done].
  destruct (job_progressIntervalId j); [|done]. cbn. by rewrite lookup_alter_ne.
Qed.

Lemma heap_when_job_other (tk : task) (f : job → job) (l' : ref) (st : state) :
  t_job tk ≠ Some l' → heap (when_job tk f st) !! l' = heap st !! l'.
Proof.
  intros Hne. unfold when_job. destruct (t_job tk) as [l|]; [|done].
  cbn. rewrite lookup_alter_ne; [done | congruence].
Qed.

Lemma heap_when_job_clear_other (tk : task) (l' : ref) (st : state) :
  t_job tk ≠ Some l' → heap (when_job_clear tk st) !! l' = heap st !! l'.
Proof.
  intros Hne. unfold when_job_clear. destruct (t_job tk) as [l|]; [|done].
  apply heap_clear_other. congruence.
Qed.

Lemma heap_on_rejected_other (k : ref) (tk : task) (msg : string) (u : bool) (l' : ref)
    (st : state) :
  t_job tk ≠ Some l' → heap (on_rejected k tk msg u st) !! l' = heap st !! l'.
Proof.
  intros Hne.
  assert (heap (on_rejected k tk msg u st) =
          heap (when_job tk (λ j, with_error msg (with_status Error j))
                  (when_job_clear tk st))) as ->.
  { by destruct (on_rejected_cases k tk msg u st) as [->|[_ ->]]. }
  by rewrite heap_when_job_other, heap_when_job_clear_other.
Qed.

(** X14. A step writes to at most one job object, the one its event
    addresses: the job a request creates, the job captured by the ticking
    interval, the job captured by the promise chain.  Every other job object
    is exactly what it was, in any state whatever. *)
Theorem step_other_jobs (st : state) (e : event) (l : ref) :
  target st e ≠ Some l → heap (step st e) !! l = heap st !! l.
Proof.
  intros Hne. destruct e; cbn [step target] in *.
  - unfold post_convert. destruct (check_url url) eqn:Hacc; try done.
    cbn [snd]. unfold processConversion, simulateProgress.
    change (jobs (bump (set_jobs <[toString now := next st]> ?s)))
      with (<[toString now := next st]> (jobs s)).
    rewrite lookup_insert_eq. cbn -[toString].
    rewrite !lookup_alter_ne, lookup_insert_ne; congruence.
  - done.
  - unfold get_download. destruct (get_job jobId st) as [j|]; [|done].
    destruct (job_status j); try done. by destruct (fs st !! artifact jobId).
  - unfold download_done. by destruct (transfers st !! d).
  - unfold cleanup_fired. destruct (timeouts st !! c) as [cl|]; [|done]. cbn.
    destruct (fs st !! artifact (cl_jobId cl)); [by destruct unlink_throws | done].
  - unfold tick. destruct (intervals st !! t) as [iv|]; [|done]. cbn in Hne.
    destruct (heap st !! iv_job iv) as [j|]; [|done].
    destruct (terminal (job_status j)); [apply heap_clear_other; congruence|].
    destruct (negb _); [|done]. cbn. rewrite lookup_alter_ne; [done | congruence].
  - unfold info_resolved. destruct (tasks st !! k) as [tk|]; [|done]. cbn in Hne.
    destruct (t_phase tk); try done. cbn.
    destruct (title_given title); [|done]. by apply heap_when_job_other.
  - unfold info_rejected. destruct (tasks st !! k) as [tk|]; [|done]. cbn in Hne.
    destruct (t_phase tk); try done. by apply heap_on_rejected_other.
  - unfold audio_resolved. destruct (tasks st !! k) as [tk|]; [|done]. cbn in Hne.
    destruct (t_phase tk); try done. cbn.
    by rewrite heap_when_job_other, heap_when_job_clear_other.
  - unfold audio_rejected. destruct (tasks st !! k) as [tk|]; [|done]. cbn in Hne.
    destruct (t_phase tk); try done. rewrite heap_on_rejected_other by done.
    by destruct partial.
  - destruct (sweep_frame now stat_throws unlink_throws (readdirSync st) st) as [Hh _].
    unfold sweep. by rewrite Hh.
Qed.

Lemma step_other_jobs_witness :
  heap (step example_two (Tick 4%nat (1#2))) !! 0%nat = heap example_two !! 0%nat.
Proof.
  apply (step_other_jobs example_two (Tick 4%nat (1#2)) 0%nat).
  vm_compute. discriminate.
Defined.
(** ** Artifact names *)

Lemma artifact_inj (y y' : string) : artifact y = artifact y' → y = y'.
Proof.
  unfold artifact. revert y'. induction y as [|c y IH]; intros [|c' y'] Heq;
    rewrite ?app_empty, ?app_String in Heq.
  - done.
  - exfalso. injection Heq as _ Heq. destruct y' as [|? [|? [|? [|? ?]]]];
      rewrite ?app_empty, ?app_String in Heq; simplify_eq.
  - exfalso. injection Heq as _ Heq. destruct y as [|? [|? [|? [|? ?]]]];
      rewrite ?app_empty, ?app_String in Heq; simplify_eq.
  - injection Heq as -> Heq. f_equal. by apply IH.
Qed.

(** X13. The name under which a job's artifact is written and the id that
    the sweeper reads back from a directory entry agree: for an id made by
    [Date.now().toString()], [path.parse(`${id}.mp3`).name] is the id again;
    and two jobs have the same artifact name only if they have the same id. *)
Theorem artifact_round_trip (n : Z) (y y' : string) :
  path_parse_name (artifact (toString n)) = toString n ∧
  (artifact y = artifact y' ↔ y = y').
Proof.
  split; [apply path_parse_name_artifact, toString_nonempty|].
  split; [apply artifact_inj | by intros ->].
Qed.
(** ** More on the sweeper and the download finalizer *)

Lemma deletes_after_sweep (now : Z) (S U : gset string) (st : state) (name : string) :
  deletes now S U (sweep now S U st) name = false.
Proof.
  destruct (sweep_effect now S U st) as (Hdel & Hkeep & _).
  destruct (deletes now S U st name) eqn:Hs.
  - unfold deletes at 1. by rewrite (Hdel _ Hs).
  - unfold deletes at 1. rewrite (Hkeep _ Hs). exact Hs.
Qed.

(** X10. A second pass of the sweeper at the same clock reading, with the
    same failing entries, finds nothing left to do: the state after two
    passes is the state after one. *)
Theorem sweep_idempotent (now : Z) (S U : gset string) (st : state) :
  sweep now S U (sweep now S U st) = sweep now S U st.
Proof.
  set (st1 := sweep now S U st).
  destruct (sweep_effect now S U st1) as (_ & Hkeep & _ & _ & Hjkeep & _ & Hh & Hi & Ht & Htr & Hto).
  destruct (sweep_frame now S U (readdirSync st1) st1) as (_ & _ & _ & _ & _ & Hn & _).
  apply state_eq; try done.
  - apply map_eq. intros x. apply Hjkeep. intros name Hs.
    unfold st1 in Hs. by rewrite deletes_after_sweep in Hs.
  - apply map_eq. intros name. apply Hkeep. apply deletes_after_sweep.
Qed.

(** X11. The cleanup timer of a download, in the two cases where the file
    is not simply deleted.  If the artifact is already gone (the sweeper
    took it), the callback still deletes the registry entry.  If the
    artifact exists and [unlinkSync] throws, the exception skips
    [jobs.delete]: file and registry entry both stay, and the timer is
    spent, so nothing of this download will remove them later. *)
Theorem cleanup_fired_edge (c : ref) (cl : cleanup) (st : state) :
  timeouts st !! c = Some cl →
  (fs st !! artifact (cl_jobId cl) = None →
     ∀ u, jobs (cleanup_fired c u st) = delete (cl_jobId cl) (jobs st) ∧
          fs (cleanup_fired c u st) = fs st) ∧
  (is_Some (fs st !! artifact (cl_jobId cl)) →
     jobs (cleanup_fired c true st) = jobs st ∧
     fs (cleanup_fired c true st) = fs st ∧
     timeouts (cleanup_fired c true st) = delete c (timeouts st)).
Proof.
  intros Hc. unfold cleanup_fired. rewrite Hc. cbn. split.
  - intros ->. done.
  - intros [f ->]. done.
Qed.

Lemma cleanup_fired_edge_witness :
  let st := run example_completed [GetDownload "1000"; DownloadDone 3%nat None] in
  (fs st !! artifact "1000" = None →
     ∀ u, jobs (cleanup_fired 4%nat u st) = delete "1000" (jobs st) ∧
          fs (cleanup_fired 4%nat u st) = fs st) ∧
  (is_Some (fs st !! artifact "1000") →
     jobs (cleanup_fired 4%nat true st) = jobs st ∧
     fs (cleanup_fired 4%nat true st) = fs st ∧
     timeouts (cleanup_fired 4%nat true st) = delete 4%nat (timeouts st)).
Proof.
  apply (cleanup_fired_edge 4%nat (Cleanup 30000 "1000")
           (run example_completed [GetDownload "1000"; DownloadDone 3%nat None])).
  vm_compute. reflexivity.
Defined.

(** ** [POST /api/videoinfo] *)

(** X12. [POST /api/videoinfo] validates its URL as [POST /api/convert]
    does: it answers 400 with the same body exactly when [convert] does, for
    every body and whatever the provider would have said; and a URL that
    [convert] accepts is answered by the provider's JSON itself, or by 500
    carrying the provider's message. *)
Theorem videoinfo_validates_as_convert {R : Type} (url quality : jsval) (now : Z)
    (st : state) (o : outcome R) :
  (post_videoinfo url o = inl (Json 400 (BError "Invalid YouTube URL")) ↔
   (post_convert now url quality st).1 = Json 400 (BError "Invalid YouTube URL")) ∧
  (is_Some (accepted_id (post_convert now url quality st).1) →
   post_videoinfo url o =
     match o with
     | Fulfilled result => inr result
     | RejectedWith msg => inl (Json 500 (BError ("Failed to get video info: " +:+ msg)))
     end).
Proof.
  unfold post_videoinfo, post_convert.
  destruct (check_url url); cbn; (split; [split|]); try done;
    try (by destruct o); by intros [? ?].
Qed.
(** ** The simulator is cancelled with its job *)

(** X6. In a state the server can reach, every live interval belongs to a
    job object that is still [Processing] and whose id the callback will
    store under; and no job has two live intervals.  So a job in a terminal
    state has no interval left, and the terminal branch of the callback is
    never taken. *)
Theorem live_intervals (st : state) (t : ref) (iv : interval) :
  reachable st → intervals st !! t = Some iv →
  (∃ j, heap st !! iv_job iv = Some j ∧ job_status j = Processing ∧
        job_id j = iv_jobId iv ∧ job_progressIntervalId j = Some t) ∧
  (∀ t' iv', intervals st !! t' = Some iv' → iv_job iv' = iv_job iv → t' = t) ∧
  (∀ r, tick t r st =
        if negb (Qle_bool 90 (iv_progress iv)) then
          let p := Qmin 90 (iv_progress iv + r * 5) in
          set_jobs <[iv_jobId iv := iv_job iv]>
            (write (iv_job iv) (with_progress (Qfloor p))
              (set_intervals <[t := Interval (iv_job iv) (iv_jobId iv) p]> st))
        else st).
Proof.
  intros Hwf%reachable_wf Ht.
  destruct (wf_interval _ Hwf _ _ Ht) as (j & Hj & Hs & Hp & Hid).
  split; [by exists j|]. split.
  - intros t' iv' Ht' Heq.
    destruct (wf_interval _ Hwf _ _ Ht') as (j' & Hj' & _ & Hp' & _).
    rewrite Heq in Hj'. congruence.
  - intros r. by destruct (tick_live t r st iv Hwf Ht) as (? & _ & _ & _ & ->).
Qed.

Lemma live_intervals_witness :
  (∃ j, heap example_two !! 3%nat = Some j ∧ job_status j = Processing ∧
        job_id j = "2000" ∧ job_progressIntervalId j = Some 4%nat) ∧
  (∀ t' iv', intervals example_two !! t' = Some iv' → iv_job iv' = 3%nat → t' = 4%nat) ∧
  (∀ r, tick 4%nat r example_two =
        if negb (Qle_bool 90 5) then
          let p := Qmin 90 (5 + r * 5) in
          set_jobs <["2000" := 3%nat]>
            (write 3%nat (with_progress (Qfloor p))
              (set_intervals <[4%nat := Interval 3%nat "2000" p]> example_two))
        else example_two).
Proof.
  apply (live_intervals example_two 4%nat (Interval 3%nat "2000" 5)).
  - exists ∅, [PostConvert 1000 example_url JUndefined;
               PostConvert 2000 example_url (JStr "320")]. reflexivity.
  - vm_compute. reflexivity.
Defined.

(** ** Completion *)

Lemma get_download_ready (y : string) (l : ref) (j : job) (st : state) :
  jobs st !! y = Some l → heap st !! l = Some j → job_status j = Completed →
  is_Some (fs st !! artifact y) →
  (get_download y st).1 = DownloadFile (artifact y) (job_title j +:+ ".mp3").
Proof.
  intros Hy Hl Hs [f Hf]. unfold get_download, get_job. rewrite Hy. cbn.
  by rewrite Hl, Hs, Hf.
Qed.

(** What the second [.then] handler leaves behind. *)
Lemma audio_resolved_effect (k : ref) (tk : task) (mtime : Q) (st : state) :
  reachable st → tasks st !! k = Some tk → t_phase tk = AwaitAudio →
  let st' := audio_resolved k mtime st in
  ∃ l j, t_job tk = Some l ∧ heap st !! l = Some j ∧
    heap st' !! l =
      Some (with_progress 100 (with_status Completed (with_progressIntervalId None j))) ∧
    jobs st' !! t_jobId tk = Some l ∧
    fs st' !! artifact (t_jobId tk) = Some (File mtime) ∧
    (∀ t iv, intervals st' !! t = Some iv → iv_job iv ≠ l) ∧
    (t_phase <$> tasks st' !! k) = Some Settled ∧
    (get_download (t_jobId tk) st').1 =
      DownloadFile (artifact (t_jobId tk)) (job_title j +:+ ".mp3").
Proof.
  intros Hwf%reachable_wf Hk Hph st'. unfold st', audio_resolved. rewrite Hk, Hph.
  set (f := λ j, with_progress 100 (with_status Completed j)).
  set (st0 := set_fs <[artifact (t_jobId tk) := File mtime]> st).
  assert (Hwf0 : wf st0) by (by apply wf_set_fs).
  assert (Hne : t_phase tk ≠ Settled) by (by rewrite Hph).
  destruct (settle_effect k tk f st0 Hwf0 Hk Hne)
    as (l & j & t & Hjob & Hj & Hs & Hid & Hp & Heq & Hh & Hi & Hjobs & Hfs & _).
  pose proof (settle_no_interval k tk f st0 Hwf0 Hk Hne) as Hnoiv.
  set (st3 := set_phase k Settled (when_job tk f (when_job_clear tk st0))) in *.
  exists l, j. split; [done|]. split; [done|].
  assert (Hl3 : heap st3 !! l = Some (f (with_progressIntervalId None j))).
  { by rewrite Hh, lookup_insert_eq. }
  assert (Hj3 : jobs st3 !! t_jobId tk = Some l) by (by rewrite Hjobs, lookup_insert_eq).
  assert (Hf3 : fs st3 !! artifact (t_jobId tk) = Some (File mtime)).
  { rewrite Hfs. unfold st0. cbn. by rewrite lookup_insert_eq. }
  split; [done|]. split; [done|]. split; [done|]. split; [|split].
  - intros t' iv Ht' Heq'. apply (Hnoiv _ _ Ht'). by rewrite Hjob, Heq'.
  - rewrite Heq. cbn. by rewrite lookup_alter_eq, Hk.
  - by apply (get_download_ready _ l (f (with_progressIntervalId None j))).
Qed.

(** X3. When the extraction call of a chain resolves, in a state the server
    can reach, the job becomes [Completed] with progress 100 (title and
    the other fields as they were), is stored in the registry under its id,
    has no interval left, the chain is settled, and the artifact the
    provider wrote is in place; so [GET /api/download] for the id now sends
    that file under the job's title. *)
Theorem audio_resolved_spec (k : ref) (tk : task) (mtime : Q) (st : state) :
  reachable st → tasks st !! k = Some tk → t_phase tk = AwaitAudio →
  let st' := audio_resolved k mtime st in
  ∃ l j, t_job tk = Some l ∧ heap st !! l = Some j ∧
    heap st' !! l =
      Some (with_progress 100 (with_status Completed (with_progressIntervalId None j))) ∧
    jobs st' !! t_jobId tk = Some l ∧
    fs st' !! artifact (t_jobId tk) = Some (File mtime) ∧
    (∀ t iv, intervals st' !! t = Some iv → iv_job iv ≠ l) ∧
    (t_phase <$> tasks st' !! k) = Some Settled ∧
    (get_download (t_jobId tk) st').1 =
      DownloadFile (artifact (t_jobId tk)) (job_title j +:+ ".mp3").
Proof. apply audio_resolved_effect. Qed.

Lemma audio_resolved_spec_witness :
  let st := run example_processing [InfoResolved 2%nat (Some "Song")] in
  let tk := Task (Some 0%nat) "1000" example_url JUndefined AwaitAudio in
  let st' := audio_resolved 2%nat 1000 st in
  ∃ l j, t_job tk = Some l ∧ heap st !! l = Some j ∧
    heap st' !! l =
      Some (with_progress 100 (with_status Completed (with_progressIntervalId None j))) ∧
    jobs st' !! t_jobId tk = Some l ∧
    fs st' !! artifact (t_jobId tk) = Some (File 1000) ∧
    (∀ t iv, intervals st' !! t = Some iv → iv_job iv ≠ l) ∧
    (t_phase <$> tasks st' !! 2%nat) = Some Settled ∧
    (get_download (t_jobId tk) st').1 =
      DownloadFile (artifact (t_jobId tk)) (job_title j +:+ ".mp3").
Proof.
  apply (audio_resolved_spec 2%nat (Task (Some 0%nat) "1000" example_url JUndefined AwaitAudio)
           1000 (run example_processing [InfoResolved 2%nat (Some "Song")])).
  - exists ∅, [PostConvert 1000 example_url JUndefined; InfoResolved 2%nat (Some "Song")].
    reflexivity.
  - vm_compute. reflexivity.
  - reflexivity.
Defined.
(** ** What a step writes to a job object *)

Lemma title_given_Some (title : option string) (s : string) :
  title_given title = Some s → title = Some s ∧ s ≠ "".
Proof.
  unfold title_given. destruct title as [s'|]; [|done].
  destruct (String.eqb_spec s' ""); [done|]. by intros [= <-].
Qed.

Lemma heap_same_job_step (st st' : state) (e : event) (l : ref) (j' : job) :
  heap st' = heap st → heap st' !! l = Some j' →
  ∃ j, heap st !! l = Some j ∧ job_step st e j j'.
Proof. intros -> Hj'. exists j'. split; [done | constructor]. Qed.

Lemma on_rejected_job_step (e : event) (k : ref) (tk : task) (msg : string) (u : bool)
    (st0 st : state) (l : ref) (j' : job) :
  wf st0 → tasks st0 !! k = Some tk → t_phase tk ≠ Settled → heap st0 = heap st →
  heap (on_rejected k tk msg u st0) !! l = Some j' →
  ∃ j, heap st !! l = Some j ∧ job_step st e j j'.
Proof.
  intros Hwf Hk Hph Hh0.
  set (f := λ j, with_error msg (with_status Error j)).
  destruct (settle_effect k tk f st0 Hwf Hk Hph)
    as (l0 & j0 & t & Hjob & Hj & Hs & Hid & Hp & _ & Hh & _).
  assert (heap (on_rejected k tk msg u st0) =
          <[l0 := f (with_progressIntervalId None j0)]> (heap st)) as ->.
  { rewrite <- Hh0, <- Hh. by destruct (on_rejected_cases k tk msg u st0) as [->|[_ ->]]. }
  rewrite lookup_insert. case_decide.
  - intros [= <-]. subst l. exists j0. rewrite <- Hh0. split; [done|].
    by apply js_fail.
  - intros Hj'. exists j'. split; [done | constructor].
Qed.

Lemma step_job (st : state) (e : event) (l : ref) (j' : job) :
  wf st → heap (step st e) !! l = Some j' →
  (∃ j, heap st !! l = Some j ∧ job_step st e j j') ∨
  (∃ now url q, e = PostConvert now url q ∧ check_url url = Accept ∧
                l = next st ∧ j' = new_job now q (S (next st))).
Proof.
  intros Hwf. destruct e; cbn [step].
  - destruct (check_url url) eqn:Hacc.
    + rewrite post_convert_accept by done. cbn -[toString].
      rewrite lookup_insert. case_decide.
      * intros [= <-]. right. by exists now, url, quality.
      * intros Hj'. left. exists j'. split; [done | constructor].
    + unfold post_convert. rewrite Hacc. intros Hj'. left. by apply heap_same_job_step with (st' := st).
    + unfold post_convert. rewrite Hacc. intros Hj'. left. by apply heap_same_job_step with (st' := st).
  - intros Hj'. left. by apply heap_same_job_step with (st' := st).
  - intros Hj'. left. eapply heap_same_job_step; [|exact Hj'].
    unfold get_download. destruct (get_job jobId st) as [j|]; [|done].
    destruct (job_status j); try done. by destruct (fs st !! artifact jobId).
  - intros Hj'. left. eapply heap_same_job_step; [|exact Hj'].
    unfold download_done. by destruct (transfers st !! d).
  - intros Hj'. left. eapply heap_same_job_step; [|exact Hj'].
    unfold cleanup_fired. destruct (timeouts st !! c) as [cl|]; [|done]. cbn.
    destruct (fs st !! artifact (cl_jobId cl)); [by destruct unlink_throws | done].
  - intros H. left. destruct (intervals st !! t) as [iv|] eqn:Ht.
    + destruct (tick_live t r st iv Hwf Ht) as (j & Hj & Hs & Hid & Heq).
      rewrite Heq in H. destruct (negb _); [|by apply heap_same_job_step with (st' := st)].
      cbn in H. rewrite lookup_alter in H. case_decide.
      * subst l. rewrite Hj in H. cbn in H. injection H as <-.
        exists j. split; [done|]. by eapply js_tick.
      * exists j'. split; [done | constructor].
    + unfold tick in H. rewrite Ht in H. by apply heap_same_job_step with (st' := st).
  - intros H. left. unfold info_resolved in H.
    destruct (tasks st !! k) as [tk|] eqn:Hk; [|by apply heap_same_job_step with (st' := st)].
    destruct (t_phase tk) eqn:Hph; try by apply heap_same_job_step with (st' := st).
    destruct (wf_task _ Hwf _ _ Hk) as (l0 & j0 & t & Hjob & Hj & Hs & Hid & Hp & Hlive);
      [by rewrite Hph|].
    destruct (title_given title) as [s|] eqn:Htitle;
      [|by apply heap_same_job_step with (st' := st)].
    apply title_given_Some in Htitle as [-> Hne].
    unfold when_job in H. rewrite Hjob in H. cbn in H. rewrite lookup_alter in H.
    case_decide.
    + subst l. rewrite Hj in H. cbn in H. injection H as <-.
      exists j0. split; [done|]. by eapply js_info.
    + exists j'. split; [done | constructor].
  - intros H. left. unfold info_rejected in H.
    destruct (tasks st !! k) as [tk|] eqn:Hk; [|by apply heap_same_job_step with (st' := st)].
    destruct (t_phase tk) eqn:Hph; try by apply heap_same_job_step with (st' := st).
    eapply (on_rejected_job_step _ k tk msg unlink_throws st st); try done.
    by rewrite Hph.
  - intros H. left. unfold audio_resolved in H.
    destruct (tasks st !! k) as [tk|] eqn:Hk; [|by apply heap_same_job_step with (st' := st)].
    destruct (t_phase tk) eqn:Hph; try by apply heap_same_job_step with (st' := st).
    set (st0 := set_fs <[artifact (t_jobId tk) := File mtime]> st) in *.
    set (f := λ j, with_progress 100 (with_status Completed j)) in *.
    assert (Hne : t_phase tk ≠ Settled) by (by rewrite Hph).
    destruct (settle_effect k tk f st0 (wf_set_fs _ _ Hwf) Hk Hne)
      as (l0 & j0 & t & Hjob & Hj & Hs & Hid & Hp & _ & Hh & _).
    rewrite Hh in H. change (heap st0) with (heap st) in H.
    rewrite lookup_insert in H. case_decide.
    + injection H as <-. subst l. exists j0. split; [done|]. by apply js_done.
    + exists j'. split; [done | constructor].
  - intros H. left. unfold audio_rejected in H.
    destruct (tasks st !! k) as [tk|] eqn:Hk; [|by apply heap_same_job_step with (st' := st)].
    destruct (t_phase tk) eqn:Hph; try by apply heap_same_job_step with (st' := st).
    eapply (on_rejected_job_step _ k tk msg unlink_throws
              (leave_partial (artifact (t_jobId tk)) partial st) st); try done.
    + by apply wf_leave_partial.
    + by destruct partial.
    + by rewrite Hph.
    + by destruct partial.
  - intros Hj'. left. eapply heap_same_job_step; [|exact Hj'].
    by destruct (sweep_frame now stat_throws unlink_throws (readdirSync st) st) as [? _].
Qed.
(** ** The fields of a job *)

Lemma word_or_space_replace (s : string) : word_or_space (replace_non_word_space s).
Proof.
  unfold word_or_space. rewrite replace_non_word_space_filter.
  apply Forall_forall. intros c Hc. apply list_elem_of_In, filter_In in Hc. tauto.
Qed.

Lemma tidy_new_job (now : Z) (quality : jsval) (t : ref) : tidy (new_job now quality t).
Proof.
  split; cbn -[toString].
  - by exists now.
  - unfold js_or. by destruct (truthy quality) eqn:Hq.
  - unfold word_or_space. cbn. repeat constructor.
  - split; [by intros [? ?] | done].
Qed.

Lemma tidy_job_step (st : state) (e : event) (j j' : job) :
  job_step st e j j' → tidy j → tidy j'.
Proof.
  intros Hstep [Hid Hq Ht He]. destruct Hstep; split; cbn; try done.
  all: try apply word_or_space_replace.
  all: try (rewrite He; split; congruence).
  all: try (split; [done | by eexists]).
Qed.

Lemma tidy_run (es : list event) (st : state) :
  wf st → (∀ l j, heap st !! l = Some j → tidy j) →
  ∀ l j, heap (run st es) !! l = Some j → tidy j.
Proof.
  revert st. induction es as [|e es IH]; intros st Hwf Htidy; [done|].
  cbn. apply IH; [by apply wf_step|]. intros l j' Hj'.
  destruct (step_job st e l j' Hwf Hj') as [(j & Hj & Hstep)|(now & url & q & _ & _ & _ & ->)].
  - eapply tidy_job_step; eauto.
  - apply tidy_new_job.
Qed.

Lemma reachable_tidy (st : state) (l : ref) (j : job) :
  reachable st → heap st !! l = Some j → tidy j.
Proof.
  intros (files & es & ->). apply tidy_run; [apply wf_init|].
  intros l' j'. cbn. by rewrite lookup_empty.
Qed.

Lemma get_job_reachable (st : state) (y : string) (j : job) :
  reachable st → get_job y st = Some j →
  ∃ l, jobs st !! y = Some l ∧ heap st !! l = Some j ∧ job_id j = y ∧ tidy j.
Proof.
  intros Hr Hget. unfold get_job in Hget.
  destruct (jobs st !! y) as [l|] eqn:Hl; [|done]. cbn in Hget.
  destruct (wf_registry _ (reachable_wf _ Hr) _ _ Hl) as (j' & Hj' & Hid).
  assert (j' = j) as -> by congruence.
  exists l. split; [done|]. split; [done|]. split; [done|]. by eapply reachable_tidy.
Qed.

(** X2. What [GET /api/status/:jobId] answers in a state the server can
    reach.  The answer is 404 exactly when the registry does not hold the
    id asked for.  When the registry holds it, the answer is 200 with the
    fields of the job object stored under that id: its [id] is the id asked
    for, its [error] is present exactly when its status is [Error], and its
    [quality] is never empty (the request's own, or ["192"]). *)
Theorem get_status_answer (st : state) (y : string) :
  reachable st →
  (get_status y st = Json 404 (BError "Job not found") ↔ jobs st !! y = None) ∧
  (∀ l, jobs st !! y = Some l →
     ∃ j, heap st !! l = Some j ∧
       get_status y st =
         Json 200 (BJob y (job_status j) (job_title j) (job_quality j)
                        (job_progress j) (job_error j)) ∧
       (is_Some (job_error j) ↔ job_status j = Error) ∧
       truthy (job_quality j) = true).
Proof.
  intros Hr. unfold get_status, get_job.
  destruct (jobs st !! y) as [l|] eqn:Hl; cbn.
  - destruct (wf_registry _ (reachable_wf _ Hr) _ _ Hl) as (j & Hj & Hid).
    rewrite Hj. cbn. split; [done|].
    intros l' [= <-]. exists j. split; [done|].
    destruct (reachable_tidy st l j Hr Hj) as [_ Hq _ He].
    by rewrite Hid.
  - split; [done|]. by intros l.
Qed.

Lemma get_status_answer_witness :
  (get_status "1000" example_failed = Json 404 (BError "Job not found") ↔
   jobs example_failed !! "1000" = None) ∧
  (∀ l, jobs example_failed !! "1000" = Some l →
     ∃ j, heap example_failed !! l = Some j ∧
       get_status "1000" example_failed =
         Json 200 (BJob "1000" (job_status j) (job_title j) (job_quality j)
                        (job_progress j) (job_error j)) ∧
       (is_Some (job_error j) ↔ job_status j = Error) ∧
       truthy (job_quality j) = true).
Proof. apply (get_status_answer example_failed "1000"). exact example_failed_reachable. Defined.

(** X7. The file that [GET /api/download/:jobId] sends, in a state the
    server can reach, is the artifact of the id asked for, and that id is
    the decimal rendering of a clock reading; the name it is sent under is
    [{title}.mp3] for a title made only of letters, digits, underscores and
    whitespace.  So neither the path nor the download name can carry a
    separator, a dot sequence or a quote taken from the request or from the
    provider's title. *)
Theorem get_download_served (st : state) (y path filename : string) :
  reachable st → (get_download y st).1 = DownloadFile path filename →
  path = artifact y ∧ (∃ n, y = toString n) ∧ is_Some (fs st !! path) ∧
  ∃ title, filename = title +:+ ".mp3" ∧ word_or_space title ∧
           ∃ j, get_job y st = Some j ∧ job_title j = title ∧ job_status j = Completed.
Proof.
  intros Hr. unfold get_download.
  destruct (get_job y st) as [j|] eqn:Hget; [|done].
  destruct (get_job_reachable st y j Hr Hget) as (l & _ & _ & Hid & [[n Hn] _ Ht _]).
  destruct (job_status j) eqn:Hs; try done.
  destruct (fs st !! artifact y) eqn:Hf; [|done]. cbn. intros [= <- <-].
  split; [done|]. split; [exists n; congruence|]. split; [by rewrite Hf|].
  exists (job_title j). repeat split; try done. by exists j.
Qed.

Lemma get_download_served_witness :
  "1000.mp3" = artifact "1000" ∧ (∃ n, "1000" = toString n) ∧
  is_Some (fs example_completed !! "1000.mp3") ∧
  ∃ title, "Song.mp3" = title +:+ ".mp3" ∧ word_or_space title ∧
           ∃ j, get_job "1000" example_completed = Some j ∧ job_title j = title ∧
                job_status j = Completed.
Proof.
  apply (get_download_served example_completed "1000" "1000.mp3" "Song.mp3").
  - exact example_completed_reachable.
  - vm_compute. reflexivity.
Defined.

(** X8. Job objects are never destroyed, and their [id] and [quality] are
    never written again: whatever happens after a state the server can
    reach, the job object is still there with the same id and quality. *)
Theorem job_id_quality_fixed (st : state) (es : list event) (l : ref) (j : job) :
  reachable st → heap st !! l = Some j →
  ∃ j', heap (run st es) !! l = Some j' ∧
        job_id j' = job_id j ∧ job_quality j' = job_quality j.
Proof.
  intros Hwf%reachable_wf. revert st j Hwf.
  induction es as [|e es IH]; intros st j Hwf Hj; [by exists j|].
  destruct (heap_evolves_step st e Hwf l j Hj) as (j1 & Hj1 & Hid1 & _).
  destruct (step_job st e l j1 Hwf Hj1) as [(j0 & Hj0 & Hstep)|(? & ? & ? & _ & _ & -> & _)].
  - assert (j0 = j) as -> by congruence.
    destruct (IH (step st e) j1 (wf_step _ _ Hwf) Hj1) as (j' & Hj' & Hid' & Hq').
    exists j'. split; [done|]. split; [congruence|].
    rewrite Hq'. by destruct Hstep.
  - pose proof (wf_heap_fresh _ Hwf _ _ Hj). lia.
Qed.

Lemma job_id_quality_fixed_witness :
  ∃ j', heap (run example_two [Tick 1%nat (1#2); InfoResolved 2%nat (Some "Song");
                               AudioResolved 2%nat 1000]) !! 0%nat = Some j' ∧
        job_id j' = "1000" ∧ job_quality j' = JStr "192".
Proof.
  apply (job_id_quality_fixed example_two
           [Tick 1%nat (1#2); InfoResolved 2%nat (Some "Song"); AudioResolved 2%nat 1000]
           0%nat (Job "1000" Processing "Unknown Title" (JStr "192") 5 None (Some 1%nat))).
  - exists ∅, [PostConvert 1000 example_url JUndefined;
               PostConvert 2000 example_url (JStr "320")]. reflexivity.
  - vm_compute. reflexivity.
Defined.
(** ** The range of the progress *)

Lemma intervals_clear (l t' : ref) (iv : interval) (st : state) :
  intervals (clear_progress_interval l st) !! t' = Some iv → intervals st !! t' = Some iv.
Proof.
  unfold clear_progress_interval. destruct (heap st !! l) as [j|]; [|done].
  destruct (job_progressIntervalId j); [|done]. cbn.
  rewrite lookup_delete. by case_decide.
Qed.

Lemma intervals_settled (k : ref) (tk : task) (f : job → job) (t' : ref) (iv : interval)
    (st : state) :
  intervals (set_phase k Settled (when_job tk f (when_job_clear tk st))) !! t' = Some iv →
  intervals st !! t' = Some iv.
Proof.
  unfold when_job, when_job_clear. destruct (t_job tk) as [l|]; [|done]. cbn.
  apply intervals_clear.
Qed.

Lemma intervals_on_rejected (k : ref) (tk : task) (msg : string) (u : bool) (t' : ref)
    (iv : interval) (st : state) :
  intervals (on_rejected k tk msg u st) !! t' = Some iv → intervals st !! t' = Some iv.
Proof.
  destruct (on_rejected_cases k tk msg u st) as [->|[_ ->]]; apply intervals_settled.
Qed.

(** Where the live intervals of the next state come from. *)
Lemma step_interval (st : state) (e : event) (t : ref) (iv' : interval) :
  wf st → intervals (step st e) !! t = Some iv' →
  intervals st !! t = Some iv' ∨
  (∃ r iv, e = Tick t r ∧ intervals st !! t = Some iv ∧
           iv_progress iv' = Qmin 90 (iv_progress iv + r * 5)) ∨
  iv_progress iv' = 5%Q.
Proof.
  intros Hwf. destruct e; cbn [step].
  - destruct (check_url url) eqn:Hacc; [|unfold post_convert; rewrite Hacc; by left..].
    rewrite post_convert_accept by done. cbn -[toString].
    rewrite lookup_insert. case_decide; [|by left]. intros [= <-]. by right; right.
  - by left.
  - unfold get_download. destruct (get_job jobId st) as [j|]; [|by left].
    destruct (job_status j); try by left. destruct (fs st !! artifact jobId); by left.
  - unfold download_done. destruct (transfers st !! d); by left.
  - unfold cleanup_fired. destruct (timeouts st !! c) as [cl|]; [|by left]. cbn.
    destruct (fs st !! artifact (cl_jobId cl)); [destruct unlink_throws|]; cbn;
      by left.
  - destruct (intervals st !! t0) as [iv|] eqn:Ht.
    + destruct (tick_live t0 r st iv Hwf Ht) as (j & _ & _ & _ & ->).
      destruct (negb _); [|by left]. cbn. rewrite lookup_insert.
      case_decide; [|by left]. subst. intros [= <-]. right; left. by exists r, iv.
    + unfold tick. rewrite Ht. by left.
  - unfold info_resolved. destruct (tasks st !! k) as [tk|]; [|by left].
    destruct (t_phase tk); try by left. cbn.
    destruct (title_given title); [|by left].
    unfold when_job. destruct (t_job tk); by left.
  - unfold info_rejected. destruct (tasks st !! k) as [tk|]; [|by left].
    destruct (t_phase tk); try by left.
    intros H%intervals_on_rejected. by left.
  - unfold audio_resolved. destruct (tasks st !! k) as [tk|]; [|by left].
    destruct (t_phase tk); try by left.
    intros H%intervals_settled. by left.
  - unfold audio_rejected. destruct (tasks st !! k) as [tk|]; [|by left].
    destruct (t_phase tk); try by left.
    intros H%intervals_on_rejected. left. by destruct partial.
  - destruct (sweep_frame now stat_throws unlink_throws (readdirSync st) st)
      as (_ & Hi & _).
    unfold sweep. rewrite Hi. by left.
Qed.

Lemma tick_progress_range (p r : Q) :
  (5 <= p)%Q → (0 <= r)%Q →
  (5 <= Qmin 90 (p + r * 5))%Q ∧ (Qmin 90 (p + r * 5) <= 90)%Q.
Proof.
  intros Hp Hr. split; [|apply Q.le_min_l].
  apply Q.min_glb; [done|].
  assert (0 <= r * 5)%Q as Hr5 by (apply Qmult_le_0_compat; done).
  rewrite <- (Qplus_0_r 5). by apply Qplus_le_compat.
Qed.

Lemma in_range_step (st : state) (e : event) :
  wf st → random_ok e → in_range st → in_range (step st e).
Proof.
  intros Hwf Hr [Hjobs Hivs]. split.
  - intros l j' Hj'. split.
    + destruct (step_job st e l j' Hwf Hj')
        as [(j & Hj & Hstep)|(now & url & q & _ & _ & _ & ->)]; [|done].
      destruct (Hjobs _ _ Hj) as [Hlo _].
      destruct Hstep as [|t r iv -> Ht _| | |]; cbn; try done.
      destruct (Hivs _ _ Ht) as [Hp _]. destruct Hr as [Hr _].
      destruct (tick_progress_range _ _ Hp Hr) as [Hlo' _].
      change 5 with (Qfloor 5). by apply Qfloor_resp_le.
    + pose proof (wf_progress _ (wf_step _ e Hwf) _ _ Hj') as Hok.
      unfold progress_ok in Hok. destruct (job_status j'); lia.
  - intros t iv' Ht'.
    destruct (step_interval st e t iv' Hwf Ht') as [Ht|[(r & iv & -> & Ht & Heq)|Heq]].
    + by apply (Hivs _ _ Ht).
    + destruct (Hivs _ _ Ht) as [Hp _]. destruct Hr as [Hr _].
      rewrite Heq. by apply tick_progress_range.
    + rewrite Heq. done.
Qed.

(** X5. As long as [Math.random()] returns numbers in [[0, 1)], the progress
    of every job is between 5 and 100, and the local [progress] of every
    running simulator is between 5 and 90. *)
Theorem progress_range (files : gmap string file) (es : list event) :
  Forall random_ok es →
  let st := run (init files) es in
  (∀ l j, heap st !! l = Some j → (5 ≤ job_progress j ≤ 100)%Z) ∧
  (∀ t iv, intervals st !! t = Some iv →
           (5 <= iv_progress iv)%Q ∧ (iv_progress iv <= 90)%Q).
Proof.
  intros Hes. cbn zeta. change (in_range (run (init files) es)).
  assert (Hgen : ∀ st, wf st → in_range st → in_range (run st es)).
  { induction Hes as [|e es He Hes IH]; intros st Hwf Hin; [done|].
    cbn. apply IH; [by apply wf_step | by apply in_range_step]. }
  apply Hgen; [apply wf_init|]. split; cbn; intros ? ?; by rewrite lookup_empty.
Qed.

Lemma progress_range_witness :
  let st := run (init ∅) [PostConvert 1000 example_url JUndefined; Tick 1%nat (9#10);
                          InfoResolved 2%nat (Some "Song"); Tick 1%nat 0] in
  (∀ l j, heap st !! l = Some j → (5 ≤ job_progress j ≤ 100)%Z) ∧
  (∀ t iv, intervals st !! t = Some iv →
           (5 <= iv_progress iv)%Q ∧ (iv_progress iv <= 90)%Q).
Proof.
  apply (progress_range ∅ [PostConvert 1000 example_url JUndefined; Tick 1%nat (9#10);
                           InfoResolved 2%nat (Some "Song"); Tick 1%nat 0]).
  repeat constructor; cbn; done.
Defined.
(** ** A conversion from request to cleanup *)

Lemma info_resolved_chain (k l : ref) (tk : task) (j : job) (title : option string)
    (st : state) :
  tasks st !! k = Some tk → t_phase tk = AwaitInfo →
  t_job tk = Some l → heap st !! l = Some j →
  let st' := info_resolved k title st in
  tasks st' !! k =
    Some (Task (t_job tk) (t_jobId tk) (t_url tk) (t_quality tk) AwaitAudio) ∧
  heap st' !! l =
    Some (match title_given title with
          | Some s => with_progress 20 (with_status Processing
                        (with_title (replace_non_word_space s) j))
          | None => j
          end).
Proof.
  intros Hk Hph Hjob Hj. unfold info_resolved. rewrite Hk, Hph.
  destruct (title_given title) as [s|]; unfold when_job; rewrite ?Hjob; cbn; split.
  - rewrite lookup_alter_eq, Hk. cbn. by rewrite ?Hjob.
  - by rewrite lookup_alter_eq, Hj.
  - rewrite lookup_alter_eq, Hk. cbn. by rewrite ?Hjob.
  - done.
Qed.

Lemma get_download_ready_state (y : string) (l : ref) (j : job) (st : state) :
  jobs st !! y = Some l → heap st !! l = Some j → job_status j = Completed →
  is_Some (fs st !! artifact y) →
  (get_download y st).2 = bump (set_transfers <[next st := Transfer y]> st).
Proof.
  intros Hy Hl Hs [f Hf]. unfold get_download, get_job. rewrite Hy. cbn.
  by rewrite Hl, Hs, Hf.
Qed.

(** X4. One conversion end to end, started in any state the server can
    reach, with nothing happening in between.  After the request is
    accepted and both provider calls resolve, [GET /api/status] shows the
    job [Completed] at 100 with the sanitized title (or the placeholder when
    the provider gave none), and [GET /api/download] sends its artifact
    under that title.  After the transfer ends and the cleanup timer fires,
    the artifact is gone and both routes answer 404 for the id. *)
Theorem conversion_round (st : state) (now : Z) (url quality : jsval)
    (title : option string) (mtime : Q) (err : option string) :
  reachable st → check_url url = Accept →
  let y := toString now in
  let k := S (S (next st)) in
  let st3 := run st [PostConvert now url quality; InfoResolved k title;
                     AudioResolved k mtime] in
  let st6 := run st3 [GetDownload y; DownloadDone (next st3) err;
                      CleanupFired (S (next st3)) false] in
  get_status y st3 =
    Json 200 (BJob y Completed (shown_title title) (js_or quality (JStr "192")) 100 None) ∧
  (get_download y st3).1 = DownloadFile (artifact y) (shown_title title +:+ ".mp3") ∧
  fs st6 !! artifact y = None ∧
  get_status y st6 = Json 404 (BError "Job not found") ∧
  (get_download y st6).1 = Json 404 (BError "File not ready or not found").
Proof.
  intros Hr Hacc y k st3 st6.
  set (st1 := step st (PostConvert now url quality)).
  set (st2 := step st1 (InfoResolved k title)).
  assert (Hr1 : reachable st1) by (by apply reachable_step).
  assert (Hr2 : reachable st2) by (by apply reachable_step).
  set (l := next st).
  set (tk1 := Task (Some l) y url quality AwaitInfo).
  assert (Hk1 : tasks st1 !! k = Some tk1).
  { unfold st1. cbn [step]. rewrite post_convert_accept by done. cbn -[toString].
    by rewrite lookup_insert_eq. }
  assert (Hj1 : heap st1 !! l = Some (new_job now quality (S l))).
  { unfold st1. cbn [step]. rewrite post_convert_accept by done. cbn -[toString].
    by rewrite lookup_insert_eq. }
  destruct (info_resolved_chain k l tk1 _ title st1 Hk1 eq_refl eq_refl Hj1)
    as [Hk2 Hj2].
  change (info_resolved k title st1) with st2 in Hk2, Hj2. cbn [tk1 t_job t_jobId t_url t_quality] in Hk2.
  destruct (audio_resolved_effect k _ mtime st2 Hr2 Hk2 eq_refl)
    as (l' & j2 & Hjob & Hj2' & Hj3 & Hreg3 & Hf3 & _ & _ & Hdl3).
  cbn [t_job t_jobId] in Hjob, Hreg3, Hf3, Hdl3. injection Hjob as <-.
  change (audio_resolved k mtime st2) with st3 in Hj3, Hreg3, Hf3, Hdl3.
  assert (j2 = match title_given title with
               | Some s => with_progress 20 (with_status Processing
                             (with_title (replace_non_word_space s)
                                (new_job now quality (S l))))
               | None => new_job now quality (S l)
               end) as Hj2eq by congruence.
  assert (Htitle : job_title j2 = shown_title title).
  { rewrite Hj2eq. unfold shown_title. by destruct (title_given title). }
  assert (Hfields : job_id j2 = y ∧ job_quality j2 = js_or quality (JStr "192") ∧
                    job_error j2 = None).
  { rewrite Hj2eq. by destruct (title_given title). }
  destruct Hfields as (Hid & Hq & He).
  split; [|split].
  - unfold get_status, get_job. rewrite Hreg3. cbn [mbind option_bind].
    rewrite Hj3. cbn. by rewrite Hid, Htitle, Hq, He.
  - by rewrite Hdl3, Htitle.
  - set (st4 := step st3 (GetDownload y)).
    assert (Hst4 : st4 = bump (set_transfers <[next st3 := Transfer y]> st3)).
    { unfold st4. cbn [step]. by eapply get_download_ready_state. }
    set (st5 := step st4 (DownloadDone (next st3) err)).
    assert (Hc5 : timeouts st5 !! S (next st3) = Some (Cleanup 30000 y)).
    { unfold st5. cbn [step]. unfold download_done. rewrite Hst4. cbn.
      rewrite lookup_insert_eq. cbn. by rewrite lookup_insert_eq. }
    destruct (cleanup_fired_deletes _ _ _ _ Hc5) as (Hfs6 & Hjobs6 & _).
    change (cleanup_fired (S (next st3)) false st5) with st6 in Hfs6, Hjobs6.
    split; [done|]. unfold get_status, get_download, get_job. by rewrite Hjobs6.
Qed.

Lemma conversion_round_witness :
  let st3 := run example_two [PostConvert 3000 example_url JNull;
                              InfoResolved 8%nat (Some "A/B: (live)");
                              AudioResolved 8%nat 3500] in
  let st6 := run st3 [GetDownload (toString 3000); DownloadDone (next st3) None;
                      CleanupFired (S (next st3)) false] in
  get_status (toString 3000) st3 =
    Json 200 (BJob (toString 3000) Completed (shown_title (Some "A/B: (live)"))
                   (js_or JNull (JStr "192")) 100 None) ∧
  (get_download (toString 3000) st3).1 =
    DownloadFile (artifact (toString 3000)) (shown_title (Some "A/B: (live)") +:+ ".mp3") ∧
  fs st6 !! artifact (toString 3000) = None ∧
  get_status (toString 3000) st6 = Json 404 (BError "Job not found") ∧
  (get_download (toString 3000) st6).1 = Json 404 (BError "File not ready or not found").
Proof.
  apply (conversion_round example_two 3000 example_url JNull (Some "A/B: (live)") 3500 None).
  - exists ∅, [PostConvert 1000 example_url JUndefined;
               PostConvert 2000 example_url (JStr "320")]. reflexivity.
  - reflexivity.
Defined.
(** ** No job is left processing without a pending provider call *)

Lemma tasks_clear (l : ref) (st : state) :
  tasks (clear_progress_interval l st) = tasks st.
Proof.
  unfold clear_progress_interval. destruct (heap st !! l) as [j|]; [|done].
  by destruct (job_progressIntervalId j).
Qed.

Lemma tasks_when_job (tk : task) (f : job → job) (st : state) :
  tasks (when_job tk f st) = tasks st.
Proof. unfold when_job. by destruct (t_job tk). Qed.

Lemma tasks_when_job_clear (tk : task) (st : state) :
  tasks (when_job_clear tk st) = tasks st.
Proof. unfold when_job_clear. destruct (t_job tk); [apply tasks_clear | done]. Qed.

Lemma tasks_on_rejected (k : ref) (tk : task) (msg : string) (u : bool) (st : state) :
  tasks (on_rejected k tk msg u st) =
  alter (λ t, Task (t_job t) (t_jobId t) (t_url t) (t_quality t) Settled) k (tasks st).
Proof.
  destruct (on_rejected_cases k tk msg u st) as [->|[_ ->]]; cbn;
    by rewrite tasks_when_job, tasks_when_job_clear.
Qed.

Lemma next_clear (l : ref) (st : state) : next (clear_progress_interval l st) = next st.
Proof.
  unfold clear_progress_interval. destruct (heap st !! l) as [j|]; [|done].
  by destruct (job_progressIntervalId j).
Qed.

Lemma next_on_rejected (k : ref) (tk : task) (msg : string) (u : bool) (st : state) :
  next (on_rejected k tk msg u st) = next st.
Proof.
  destruct (on_rejected_cases k tk msg u st) as [->|[_ ->]]; cbn;
    unfold when_job, when_job_clear; destruct (t_job tk); cbn; by rewrite ?next_clear.
Qed.

Lemma next_when_jobs (tk : task) (f : job → job) (st : state) :
  next (when_job tk f (when_job_clear tk st)) = next st.
Proof.
  unfold when_job, when_job_clear. destruct (t_job tk); cbn; by rewrite ?next_clear.
Qed.

(** A job that is [Processing] after a step was so before, or was just
    created. *)
Lemma step_processing_back (st : state) (e : event) (l : ref) (j' : job) :
  wf st → heap (step st e) !! l = Some j' → job_status j' = Processing →
  (∃ j, heap st !! l = Some j ∧ job_status j = Processing) ∨
  (∃ now url q, e = PostConvert now url q ∧ check_url url = Accept ∧ l = next st).
Proof.
  intros Hwf Hj' Hs.
  destruct (step_job st e l j' Hwf Hj') as [(j & Hj & Hstep)|(now & url & q & ? & ? & ? & _)].
  - left. exists j. split; [done|]. by destruct Hstep.
  - right. by exists now, url, q.
Qed.

Section chains.
Variables (st st' : state).
Hypothesis Hch : wf_chain st.
Hypothesis Hnext : (next st ≤ next st')%nat.
Hypothesis Hback : ∀ l j', heap st' !! l = Some j' → job_status j' = Processing →
  ∃ j, heap st !! l = Some j ∧ job_status j = Processing.

Lemma wf_chain_same : tasks st' = tasks st → wf_chain st'.
Proof.
  destruct Hch as [Hfresh Hlive]. intros Ht. split; rewrite Ht.
  - intros k tk Hk. specialize (Hfresh _ _ Hk). lia.
  - intros l j' Hj' Hs. destruct (Hback _ _ Hj' Hs) as (j & Hj & Hsj). eauto.
Qed.

Lemma wf_chain_move (k : ref) (p : phase) :
  tasks st' =
    alter (λ t, Task (t_job t) (t_jobId t) (t_url t) (t_quality t) p) k (tasks st) →
  (p = Settled → ∀ tk l j', tasks st !! k = Some tk → t_job tk = Some l →
     heap st' !! l = Some j' → job_status j' ≠ Processing) →
  wf_chain st'.
Proof.
  destruct Hch as [Hfresh Hlive]. intros Ht Hp. split; rewrite Ht.
  - intros k' tk'. rewrite lookup_alter. case_decide; [subst|].
    + destruct (tasks st !! k') as [tk|] eqn:Hk; [|done].
      intros _. specialize (Hfresh _ _ Hk). lia.
    + intros Hk. specialize (Hfresh _ _ Hk). lia.
  - intros l j' Hj' Hs. destruct (Hback _ _ Hj' Hs) as (j & Hj & Hsj).
    destruct (Hlive _ _ Hj Hsj) as (k0 & tk0 & Hk0 & Hjob0 & Hph0).
    destruct (decide (k = k0)) as [->|Hne].
    + exists k0. eexists. rewrite lookup_alter_eq, Hk0. cbn.
      split; [done|]. split; [done|]. cbn. intros ->.
      by apply (Hp eq_refl tk0 l j').
    + exists k0, tk0. by rewrite lookup_alter_ne.
Qed.
End chains.

Lemma wf_chain_settle (e : event) (k : ref) (tk : task) (f : job → job)
    (st0 st st' : state) :
  wf st → wf st0 → wf_chain st → tasks st0 = tasks st → heap st0 = heap st →
  next st0 = next st → tasks st !! k = Some tk → t_phase tk ≠ Settled →
  (∀ j, job_status (f j) ≠ Processing) →
  heap st' = heap (set_phase k Settled (when_job tk f (when_job_clear tk st0))) →
  tasks st' = tasks (set_phase k Settled (when_job tk f (when_job_clear tk st0))) →
  next st' = next st →
  wf_chain st'.
Proof.
  intros Hwf Hwf0 Hch Ht0 Hh0 Hn0 Hk Hph Hf Hh' Ht' Hn'.
  assert (Hk0 : tasks st0 !! k = Some tk) by (by rewrite Ht0).
  destruct (settle_effect k tk f st0 Hwf0 Hk0 Hph)
    as (l0 & j0 & t & Hjob & Hj & Hs & Hid & Hp & _ & Hh & _).
  apply (wf_chain_move st st' Hch) with (k := k) (p := Settled).
  - lia.
  - intros l j'. rewrite Hh', Hh, Hh0, lookup_insert. case_decide; [|by eauto].
    intros [= <-] Hsj. by destruct (Hf (with_progressIntervalId None j0)).
  - rewrite Ht'. cbn. by rewrite tasks_when_job, tasks_when_job_clear, Ht0.
  - intros _ tk' l j' Hk' Hjob'. rewrite Hh', Hh, Hh0.
    assert (tk' = tk) as -> by congruence. assert (l = l0) as -> by congruence.
    rewrite lookup_insert_eq. intros [= <-]. apply Hf.
Qed.

Lemma wf_chain_step (st : state) (e : event) :
  wf st → wf_chain st → wf_chain (step st e).
Proof.
  intros Hwf Hch.
  assert (Hback : ∀ l j', (¬ ∃ now url q, e = PostConvert now url q) →
            heap (step st e) !! l = Some j' → job_status j' = Processing →
            ∃ j, heap st !! l = Some j ∧ job_status j = Processing).
  { intros l j' Hno Hj' Hs.
    destruct (step_processing_back st e l j' Hwf Hj' Hs)
      as [?|(now & url & q & -> & _)]; [done|].
    destruct Hno. by exists now, url, q. }
  destruct e; cbn [step] in *.
  - destruct (check_url url) eqn:Hacc;
      [|unfold post_convert; rewrite Hacc; exact Hch..].
    rewrite post_convert_accept by done. destruct Hch as [Hfresh Hlive]. split.
    + intros k tk. cbn -[toString]. rewrite lookup_insert. case_decide; [lia|].
      intros Hk. specialize (Hfresh _ _ Hk). lia.
    + intros l j'. cbn -[toString]. rewrite lookup_insert. case_decide.
      * intros _ _. subst l. eexists _, _. rewrite lookup_insert_eq. done.
      * intros Hj' Hs. destruct (Hlive _ _ Hj' Hs) as (k0 & tk0 & Hk0 & Hrest).
        exists k0, tk0. split; [|done]. rewrite lookup_insert_ne; [done|].
        specialize (Hfresh _ _ Hk0). lia.
  - done.
  - apply (wf_chain_same st _ Hch).
    + unfold get_download. destruct (get_job jobId st) as [j|]; [|done].
      destruct (job_status j); try done. destruct (fs st !! artifact jobId); cbn; lia.
    + intros l j'. apply Hback. by intros (? & ? & ? & ?).
    + unfold get_download. destruct (get_job jobId st) as [j|]; [|done].
      destruct (job_status j); try done. by destruct (fs st !! artifact jobId).
  - apply (wf_chain_same st _ Hch).
    + unfold download_done. destruct (transfers st !! d); cbn; lia.
    + intros l j'. apply Hback. by intros (? & ? & ? & ?).
    + unfold download_done. by destruct (transfers st !! d).
  - apply (wf_chain_same st _ Hch).
    + unfold cleanup_fired. destruct (timeouts st !! c) as [cl|]; [|done]. cbn.
      destruct (fs st !! artifact (cl_jobId cl)); [destruct unlink_throws|]; cbn; lia.
    + intros l j'. apply Hback. by intros (? & ? & ? & ?).
    + unfold cleanup_fired. destruct (timeouts st !! c) as [cl|]; [|done]. cbn.
      destruct (fs st !! artifact (cl_jobId cl)); [by destruct unlink_throws | done].
  - apply (wf_chain_same st _ Hch).
    + unfold tick, clear_progress_interval. repeat case_match; cbn; lia.
    + intros l j'. apply Hback. by intros (? & ? & ? & ?).
    + unfold tick, clear_progress_interval. by repeat case_match.
  - assert (Hb : ∀ l j', heap (info_resolved k title st) !! l = Some j' →
              job_status j' = Processing →
              ∃ j, heap st !! l = Some j ∧ job_status j = Processing).
    { intros l j'. apply Hback. by intros (? & ? & ? & ?). }
    revert Hb. unfold info_resolved.
    destruct (tasks st !! k) as [tk|] eqn:Hk; [|done].
    destruct (t_phase tk) eqn:Hph; try done. intros Hb.
    apply (wf_chain_move st _ Hch) with (k := k) (p := AwaitAudio); try done.
    + cbn. destruct (title_given title); [|done]. unfold when_job.
      destruct (t_job tk); cbn; lia.
    + cbn. destruct (title_given title); [|done]. by rewrite tasks_when_job.
  - unfold info_rejected. destruct (tasks st !! k) as [tk|] eqn:Hk; [|done].
    destruct (t_phase tk) eqn:Hph; try done.
    apply (wf_chain_settle (InfoRejected k msg unlink_throws) k tk
             (λ j, with_error msg (with_status Error j)) st st); try done.
    + by rewrite Hph.
    + by destruct (on_rejected_cases k tk msg unlink_throws st) as [->|[_ ->]].
    + by destruct (on_rejected_cases k tk msg unlink_throws st) as [->|[_ ->]].
    + apply next_on_rejected.
  - unfold audio_resolved. destruct (tasks st !! k) as [tk|] eqn:Hk; [|done].
    destruct (t_phase tk) eqn:Hph; try done.
    apply (wf_chain_settle (AudioResolved k mtime) k tk
             (λ j, with_progress 100 (with_status Completed j))
             (set_fs <[artifact (t_jobId tk) := File mtime]> st) st); try done.
    + by apply wf_set_fs.
    + by rewrite Hph.
    + cbn. apply (next_when_jobs tk _ (set_fs <[artifact (t_jobId tk) := File mtime]> st)).
  - unfold audio_rejected. destruct (tasks st !! k) as [tk|] eqn:Hk; [|done].
    destruct (t_phase tk) eqn:Hph; try done.
    set (st0 := leave_partial (artifact (t_jobId tk)) partial st).
    apply (wf_chain_settle (AudioRejected k msg partial unlink_throws) k tk
             (λ j, with_error msg (with_status Error j)) st0 st); try done.
    + by apply wf_leave_partial.
    + by destruct partial.
    + by destruct partial.
    + by destruct partial.
    + by rewrite Hph.
    + by destruct (on_rejected_cases k tk msg unlink_throws st0) as [->|[_ ->]].
    + by destruct (on_rejected_cases k tk msg unlink_throws st0) as [->|[_ ->]].
    + rewrite next_on_rejected. by destruct partial.
  - destruct (sweep_frame now stat_throws unlink_throws (readdirSync st) st)
      as (_ & _ & Ht & _ & _ & Hn & _).
    apply (wf_chain_same st _ Hch).
    + unfold sweep. lia.
    + intros l j'. apply Hback. by intros (? & ? & ? & ?).
    + exact Ht.
Qed.

Lemma reachable_wf_chain (st : state) : reachable st → wf_chain st.
Proof.
  intros (files & es & ->).
  assert (Hgen : ∀ st, wf st → wf_chain st → wf_chain (run st es)).
  { induction es as [|e es IH]; intros st Hwf Hch; [done|].
    cbn. apply IH; [by apply wf_step | by apply wf_chain_step]. }
  apply Hgen; [apply wf_init|]. split; cbn; intros ? ?; by rewrite lookup_empty.
Qed.

(** X9. In a state the server can reach, a job that is [Processing] is
    never orphaned: a promise chain that is not settled still holds it, so
    a provider answer for that chain is what moves it on, and the interval
    stored in it is alive and ticks for this very job. *)
Theorem processing_job_pending (st : state) (l : ref) (j : job) :
  reachable st → heap st !! l = Some j → job_status j = Processing →
  ∃ k tk t iv,
    tasks st !! k = Some tk ∧ t_job tk = Some l ∧ t_phase tk ≠ Settled ∧
    t_jobId tk = job_id j ∧
    job_progressIntervalId j = Some t ∧ intervals st !! t = Some iv ∧ iv_job iv = l.
Proof.
  intros Hr Hj Hs. pose proof (reachable_wf _ Hr) as Hwf.
  destruct (wf_chain_live _ (reachable_wf_chain _ Hr) _ _ Hj Hs)
    as (k & tk & Hk & Hjob & Hph).
  destruct (wf_task _ Hwf _ _ Hk Hph)
    as (l' & j' & t & Hjob' & Hj' & _ & Hid & Hp & [iv Hiv]).
  assert (l' = l) as -> by congruence. assert (j' = j) as -> by congruence.
  exists k, tk, t, iv. repeat split; try done.
  by destruct (wf_handle _ Hwf _ _ _ Hj Hp) as [_ ->].
Qed.

Lemma processing_job_pending_witness :
  ∃ k tk t iv,
    tasks example_two !! k = Some tk ∧ t_job tk = Some 3%nat ∧ t_phase tk ≠ Settled ∧
    t_jobId tk = "2000" ∧
    Some 4%nat = Some t ∧ intervals example_two !! t = Some iv ∧ iv_job iv = 3%nat.
Proof.
  apply (processing_job_pending example_two 3%nat
           (Job "2000" Processing "Unknown Title" (JStr "320") 5 None (Some 4%nat))).
  - exists ∅, [PostConvert 1000 example_url JUndefined;
               PostConvert 2000 example_url (JStr "320")]. reflexivity.
  - vm_compute. reflexivity.
  - reflexivity.
Defined.
(** ** Bodies whose [url] is not a string *)

Lemma array_includes_iff (l : list jsval) (x : string) :
  js_includes (JArr l) x = Some true ↔ JStr x ∈ l.
Proof.
  cbn. induction l as [|a l IH]; cbn.
  - split; [done | by intros ?%elem_of_nil].
  - rewrite elem_of_cons. destruct a as [| | | |s| |]; cbn;
      try (rewrite IH; split; [by right | by intros [?|?]]).
    destruct (String.eqb_spec s x) as [->|Hne]; cbn.
    + split; [by left | done].
    + rewrite IH. split; [by right | intros [[= ?]|?]; done].
Qed.

Lemma check_url_array (l : list jsval) :
  check_url (JArr l) =
  if decide (js_includes (JArr l) "youtube.com/" = Some true ∨
             js_includes (JArr l) "youtu.be/" = Some true)
  then Accept else Reject.
Proof.
  unfold check_url. cbn [truthy negb].
  change (js_includes (JArr l) "youtube.com/")
    with (Some (existsb (λ e, match e with JStr s => String.eqb s "youtube.com/"
                                         | _ => false end) l)).
  change (js_includes (JArr l) "youtu.be/")
    with (Some (existsb (λ e, match e with JStr s => String.eqb s "youtu.be/"
                                         | _ => false end) l)).
  destruct (existsb _ l); [by rewrite decide_True by (by left)|].
  destruct (existsb _ l); [by rewrite decide_True by (by right)|].
  rewrite decide_False; [done|]. by intros [[=]|[=]].
Qed.

(** X15. What [POST /api/convert] does with a [url] that is not a string.
    A number other than 0, [true] or an object has no [includes]: the
    [TypeError] is caught, the answer is 500 with its message, and nothing
    is created.  An array has one, which looks for an element equal to the
    marker: a body whose [url] is an array holding ["youtube.com/"] or
    ["youtu.be/"] is accepted and becomes a job, any other array is answered
    with 400. *)
Theorem post_convert_non_string (now : Z) (quality : jsval) (st : state) :
  (∀ url, url = JBool true ∨ url = JObj ∨ (∃ n, n ≠ 0 ∧ url = JNum n) →
     post_convert now url quality st =
       (Json 500 (BError "Failed to process video: url.includes is not a function"), st)) ∧
  (∀ l, JStr "youtube.com/" ∈ l ∨ JStr "youtu.be/" ∈ l →
     accepted_id (post_convert now (JArr l) quality st).1 = Some (toString now) ∧
     is_Some (get_job (toString now) (post_convert now (JArr l) quality st).2)) ∧
  (∀ l, ¬ (JStr "youtube.com/" ∈ l ∨ JStr "youtu.be/" ∈ l) →
     post_convert now (JArr l) quality st = (Json 400 (BError "Invalid YouTube URL"), st)).
Proof.
  split; [|split].
  - intros url [->|[->|(n & Hn & ->)]]; try done.
    unfold post_convert, check_url. cbn. by destruct (Z.eqb_spec n 0).
  - intros l Hl.
    assert (Hacc : check_url (JArr l) = Accept).
    { rewrite check_url_array, decide_True; [done|]. by rewrite !array_includes_iff. }
    split; [by apply post_convert_accepted_id|].
    rewrite post_convert_accept by done. unfold get_job. cbn -[toString].
    rewrite lookup_insert_eq. cbn -[toString]. by rewrite lookup_insert_eq.
  - intros l Hl. unfold post_convert.
    rewrite check_url_array, decide_False; [done|]. by rewrite !array_includes_iff.
Qed.
